(** * blender_robotics: trajectory replay, TCP markers and MoveIt scene files

    A shallow embedding of the algorithmic parts of

    - [dual_joint_trajectory_replay_addon.py] (trajectory parser, sampler,
      scrub orchestration, load operators, TCP point extraction),
    - [export_objects_to_moveit_scene.py] (scene serializer),
    - [import_objects_from_moveit_scene.py] (scene parser, unique names),

    followed by the properties of these functions.

    Numbers.  The add-on's state and operators, the TCP points and the
    scene files are modelled with exact rationals [Q] for Python's [float]s:
    every arithmetic step of the source is kept, but it is carried out
    without rounding, and the special values [inf] and [nan] have no
    counterpart; values are compared with [Qeq] ([==]).  The trajectory
    parser and the sampler are modelled a second time, in module [B64], over
    the binary64 numbers of the kernel, with rounding, signed zeros,
    infinities and nan; the properties of the parser's order and collapse
    and of the sampler's interpolation are stated and proved there.

    Text.  Strings are [String.string]; a character is a code below 256.
    A text file is the string of its contents.

    Exceptions.  A Python function that may raise returns a [result] or an
    option: [Raise msg] stands for an exception with the message [msg],
    [None] for an [IndexError] (or for a search that ran out of rounds). *)

From Stdlib Require Import QArith Qabs Qminmax Qround Lqa Lia ZArith Sorting.Sorted.
From Stdlib Require Import Ascii DecimalString DecimalN.
From Stdlib Require String.
From Stdlib Require Import Floats.
From stdpp Require Import base list strings gmap.

Local Open Scope Q_scope.

(* ===================================================================== *)
(** * Python sequences *)

(** [l[i]] for a Python list and a possibly negative index; [None] is
    [IndexError]. *)
Definition py_index {A} (l : list A) (i : Z) : option A :=
  let n := Z.of_nat (length l) in
  if (0 <=? i)%Z then (if (i <? n)%Z then l !! Z.to_nat i else None)
  else if (- n <=? i)%Z then l !! Z.to_nat (n + i)
  else None.

(** [l[-1] = x] when [l] is not empty. *)
Definition set_last {A} (l : list A) (x : A) : list A :=
  match l with
  | [] => []
  | _ => removelast l ++ [x]
  end.

(** [zip(a, b)], truncated to the shorter list. *)
Fixpoint zip {A B} (a : list A) (b : list B) : list (A * B) :=
  match a, b with
  | x :: a', y :: b' => (x, y) :: zip a' b'
  | _, _ => []
  end.

(** Comparison of numbers as booleans ([<], [<=]). *)
Definition Qltb (x y : Q) : bool := negb (Qle_bool y x).
Definition Qleb (x y : Q) : bool := Qle_bool x y.

(** [min(l)] and [max(l)] of a non-empty list of numbers; Python keeps the
    first of several equal extremes. *)
Fixpoint py_min (x : Q) (l : list Q) : Q :=
  match l with
  | [] => x
  | y :: l' => py_min (if Qltb y x then y else x) l'
  end.

Fixpoint py_max (x : Q) (l : list Q) : Q :=
  match l with
  | [] => x
  | y :: l' => py_max (if Qltb x y then y else x) l'
  end.

(** [sorted(l, key=...)]: a stable sort.  [lt a b] is [key(a) < key(b)].
    An element is inserted in front of the first element that is not
    smaller, so elements with equal keys keep their order. *)
Fixpoint insert_sorted {A} (lt : A -> A -> bool) (x : A) (l : list A) : list A :=
  match l with
  | [] => [x]
  | y :: l' => if lt y x then y :: insert_sorted lt x l' else x :: y :: l'
  end.

Fixpoint sorted {A} (lt : A -> A -> bool) (l : list A) : list A :=
  match l with
  | [] => []
  | x :: l' => insert_sorted lt x (sorted lt l')
  end.

(** [bisect.bisect_left(a, x)]: the loop of the standard library,
    [lo, hi = 0, len(a); while lo < hi: mid = (lo+hi)//2;
     if a[mid] < x: lo = mid+1 else: hi = mid].
    The fuel bounds the number of iterations; [None] when it runs out. *)
Fixpoint bisect_loop (fuel : nat) (a : list Q) (x : Q) (lo hi : nat) : option nat :=
  if (lo <? hi)%nat then
    match fuel with
    | O => None
    | S fuel' =>
        let mid := ((lo + hi) / 2)%nat in
        match a !! mid with
        | Some am => if Qltb am x then bisect_loop fuel' a x (S mid) hi
                     else bisect_loop fuel' a x lo mid
        | None => None
        end
    end
  else Some lo.

Definition bisect_left (a : list Q) (x : Q) : option nat :=
  bisect_loop (length a) a x 0 (length a).

(* ===================================================================== *)
(** * Trajectories and the sampler *)

Abbreviation Pose := (list Q).

(** [{'t': [...], 'q': [[7], ...]}] *)
Record Trajectory := mkTraj { traj_t : list Q; traj_q : list Pose }.

Definition eps12 : Q := 1 # 1000000000000.   (* 1e-12 *)
Definition eps9 : Q := 1 # 1000000000.       (* 1e-9 *)

(** [sample_q(traj, t)] *)
Definition sample_q (traj : Trajectory) (t : Q) : option Pose :=
  let ts := traj_t traj in
  let qs := traj_q traj in
  ts0 ← py_index ts 0;
  if Qleb t ts0 then py_index qs 0 else
  tsl ← py_index ts (-1);
  if Qleb tsl t then py_index qs (-1) else
  i ← bisect_left ts t;
  let i := Z.of_nat i in
  t0 ← py_index ts (i - 1);
  t1 ← py_index ts i;
  q0 ← py_index qs (i - 1);
  q1 ← py_index qs i;
  if Qleb t1 (t0 + eps12) then Some q1 else
  let r := (t - t0) / (t1 - t0) in
  Some (map (fun ab => (1 - r) * fst ab + r * snd ab) (zip q0 q1)).

(** [_global_time_range()], with the two module globals as arguments.
    A loaded trajectory is a non-empty dict and therefore true; [None] is
    false. *)
Definition append_ends (TRAJ : option Trajectory) (acc : list Q * list Q)
  : option (list Q * list Q) :=
  match TRAJ with
  | Some T =>
      t0 ← py_index (traj_t T) 0;
      t1 ← py_index (traj_t T) (-1);
      Some (fst acc ++ [t0], snd acc ++ [t1])
  | None => Some acc
  end.

Definition _global_time_range (TRAJ_A TRAJ_B : option Trajectory) : option (Q * Q) :=
  acc ← append_ends TRAJ_A ([], []);
  acc ← append_ends TRAJ_B acc;
  match fst acc, snd acc with
  | m :: tmins, M :: tmaxs => Some (py_min m tmins, py_max M tmaxs)
  | _, _ => Some (0, 1)
  end.

(** The absolute time computed at the head of [apply_pose_from_scrub]. *)
Definition scrub_time (TRAJ_A TRAJ_B : option Trajectory) (sa_scrub : Q) : option Q :=
  r ← _global_time_range TRAJ_A TRAJ_B;
  let t0 := fst r in
  let t1 := snd r in
  let duration := if Qltb (t1 - t0) eps9 then eps9 else t1 - t0 in
  Some (t0 + sa_scrub * duration).

(* ===================================================================== *)
(** * Text *)

Definition LF : ascii := "010"%char.
Definition CR : ascii := "013"%char.
Definition TABc : ascii := "009"%char.

(** [str.isspace] on one character: the codes 9-13, 28-32, 133 and 160. *)
Definition is_space (c : ascii) : bool :=
  let n := N_of_ascii c in
  ((9 <=? n) && (n <=? 13) || (28 <=? n) && (n <=? 32) || (n =? 133) || (n =? 160))%N.

Definition is_digit (c : ascii) : bool :=
  let n := N_of_ascii c in ((48 <=? n) && (n <=? 57))%N.

Fixpoint lstrip (s : string) : string :=
  match s with
  | String c s' => if is_space c then lstrip s' else s
  | EmptyString => EmptyString
  end.

Fixpoint rstrip (s : string) : string :=
  match s with
  | String c s' =>
      match rstrip s' with
      | EmptyString => if is_space c then EmptyString else String c EmptyString
      | r => String c r
      end
  | EmptyString => EmptyString
  end.

(** [s.strip()] *)
Definition strip (s : string) : string := lstrip (rstrip s).

(** [s.startswith(p)] *)
Fixpoint startswith (p s : string) : bool :=
  match p with
  | EmptyString => true
  | String a p' =>
      match s with
      | String b s' => Ascii.eqb a b && startswith p' s'
      | EmptyString => false
      end
  end.

(** [c in s] for a character [c] *)
Fixpoint contains (c : ascii) (s : string) : bool :=
  match s with
  | String d s' => Ascii.eqb c d || contains c s'
  | EmptyString => false
  end.

(** [s.split(sep)] for a one-character separator: empty fields are kept. *)
Fixpoint split_char (sep : ascii) (s : string) : list string :=
  match s with
  | EmptyString => [EmptyString]
  | String c s' =>
      if Ascii.eqb c sep then EmptyString :: split_char sep s'
      else match split_char sep s' with
           | w :: ws => String c w :: ws
           | [] => [String c EmptyString]
           end
  end.

(** [s.split()]: fields are the maximal runs of non-space characters. *)
Fixpoint split_ws (s : string) : list string :=
  match s with
  | EmptyString => []
  | String c s' =>
      if is_space c then split_ws s'
      else match s' with
           | EmptyString => [String c EmptyString]
           | String c' _ =>
               if is_space c' then String c EmptyString :: split_ws s'
               else match split_ws s' with
                    | w :: ws => String c w :: ws
                    | [] => [String c EmptyString]
                    end
           end
  end.

(** [re.split(r"[,\s]+", s)]: the separators are the maximal runs of commas
    and spaces; a separator at either end leaves an empty field there. *)
Definition is_sep (c : ascii) : bool := Ascii.eqb c ","%char || is_space c.

Fixpoint re_split (s : string) : list string :=
  match s with
  | EmptyString => [EmptyString]
  | String c s' =>
      if is_sep c then
        match s' with
        | String c' _ => if is_sep c' then re_split s' else EmptyString :: re_split s'
        | EmptyString => [EmptyString; EmptyString]
        end
      else match re_split s' with
           | w :: ws => String c w :: ws
           | [] => [String c EmptyString]
           end
  end.

(** Reading a text file: universal newlines turn "\r\n" and "\r" into
    "\n"; iterating over the file yields the lines with their terminator. *)
Fixpoint universal_newlines (s : string) : string :=
  match s with
  | EmptyString => EmptyString
  | String c s' =>
      if Ascii.eqb c CR then
        String LF (match s' with
                   | String c' s'' =>
                       if Ascii.eqb c' LF then universal_newlines s''
                       else universal_newlines s'
                   | EmptyString => EmptyString
                   end)
      else String c (universal_newlines s')
  end.

Fixpoint split_lines (s : string) : list string :=
  match s with
  | EmptyString => []
  | String c s' =>
      if Ascii.eqb c LF then String LF EmptyString :: split_lines s'
      else match split_lines s' with
           | l :: ls => String c l :: ls
           | [] => [String c EmptyString]
           end
  end.

Definition file_lines (contents : string) : list string :=
  split_lines (universal_newlines contents).

(** ["\n".join(lines)] *)
Fixpoint join_lines (lines : list string) : string :=
  match lines with
  | [] => EmptyString
  | [l] => l
  | l :: ls => l +:+ String LF (join_lines ls)
  end.

(** [s.replace(" ", "_")] *)
Fixpoint replace_spaces (s : string) : string :=
  match s with
  | EmptyString => EmptyString
  | String c s' => String (if Ascii.eqb c " "%char then "_"%char else c) (replace_spaces s')
  end.

(** [s.lower()]: the capital letters are the codes 65-90 and, among the
    accented ones, 192-214 and 216-222. *)
Definition lower_char (c : ascii) : ascii :=
  let n := N_of_ascii c in
  if ((65 <=? n) && (n <=? 90) || (192 <=? n) && (n <=? 214)
      || (216 <=? n) && (n <=? 222))%N
  then ascii_of_N (n + 32) else c.

Fixpoint lower (s : string) : string :=
  match s with
  | EmptyString => EmptyString
  | String c s' => String (lower_char c) (lower s')
  end.

(** Decimal numerals. *)
Definition str_N (n : N) : string := NilZero.string_of_uint (N.to_uint n).

(** [s.zfill(w)]-style left padding with zeros, as done by the format
    specifications [03d] and by the fraction digits of [.6f]. *)
Definition zero_pad (w : nat) (s : string) : string :=
  String.string_of_list_ascii (replicate (w - String.length s) "0"%char) +:+ s.

(** The digits of [m] on exactly [w] places (the least significant ones
    when [m] is larger). *)
Fixpoint fixed_digits (w : nat) (m : N) : string :=
  match w with
  | O => EmptyString
  | S w' => fixed_digits w' (m / 10) +:+
            String (ascii_of_N (48 + m mod 10)) EmptyString
  end.

(** Value of a string of decimal digits, read from the left with the
    accumulator [acc]; [None] when a character is not a digit. *)
Fixpoint digits_acc (acc : N) (s : string) : option N :=
  match s with
  | EmptyString => Some acc
  | String c s' =>
      if is_digit c then digits_acc (10 * acc + (N_of_ascii c - 48)) s' else None
  end.

(** The longest prefix of digits, and what follows it. *)
Fixpoint span_digits (s : string) : string * string :=
  match s with
  | String c s' =>
      if is_digit c then let '(d, r) := span_digits s' in (String c d, r)
      else (EmptyString, s)
  | EmptyString => (EmptyString, EmptyString)
  end.

Local Open Scope Q_scope.

Definition Q_of_N (n : N) : Q := inject_Z (Z.of_N n).

(** An optional sign in front of a numeral. *)
Definition split_sign (s : string) : bool * string :=
  match s with
  | String c r =>
      if Ascii.eqb c "-"%char then (true, r)
      else if Ascii.eqb c "+"%char then (false, r)
      else (false, s)
  | EmptyString => (false, s)
  end.

(** The exponent part of a numeral: nothing, or [e] and a signed integer. *)
Definition py_exponent (s : string) : option Z :=
  match s with
  | EmptyString => Some 0%Z
  | String c s' =>
      if Ascii.eqb c "e"%char || Ascii.eqb c "E"%char then
        let '(neg, s'') := split_sign s' in
        match s'' with
        | EmptyString => None
        | _ => e ← digits_acc 0 s''; Some (if neg : bool then (- Z.of_N e)%Z else Z.of_N e)
        end
      else None
  end.

(** [float(s)] on decimal literals: surrounding blanks, an optional sign,
    digits with an optional fraction (one of the two parts may be empty),
    an optional exponent.  The spellings of infinities and of not-a-number
    and digit-group underscores, which Python also accepts, are outside this
    model and are reported like any other malformed token. *)
Definition py_float (s : string) : option Q :=
  let s := strip s in
  let '(neg, s) := split_sign s in
  let '(ip, s) := span_digits s in
  let '(fp, s) :=
    match s with
    | String c r => if Ascii.eqb c "."%char then span_digits r else (EmptyString, s)
    | EmptyString => (EmptyString, s)
    end in
  match ip, fp with
  | EmptyString, EmptyString => None
  | _, _ =>
      i ← digits_acc 0 ip;
      f ← digits_acc 0 fp;
      e ← py_exponent s;
      let m := Q_of_N i + Q_of_N f / Q_of_N (10 ^ N.of_nat (String.length fp)) in
      let v := m * (10 # 1) ^ e in
      Some (if neg : bool then - v else v)
  end.

(** Rounding to the nearest integer, ties to the even one, as the
    conversions [.6f] and [.3f] do with the digits they drop. *)
Definition round_half_even (x : Q) : Z :=
  let f := Qfloor x in
  let d := x - inject_Z f in
  if Qltb d (1 # 2) then f
  else if Qltb (1 # 2) d then (f + 1)%Z
  else if Z.even f then f else (f + 1)%Z.

(** [f"{x:.{prec}f}"] *)
Definition format_f (prec : nat) (x : Q) : string :=
  let scale := (10 ^ N.of_nat prec)%N in
  let n := Z.to_N (round_half_even (Qabs x * Q_of_N scale)) in
  (if Qltb x 0 then "-" else EmptyString) +:+
  str_N (n / scale) +:+
  match prec with
  | O => EmptyString
  | _ => "." +:+ fixed_digits prec (n mod scale)
  end.

Definition format_6f (x : Q) : string := format_f 6 x.
Definition format_3f (x : Q) : string := format_f 3 x.

(** [f"{i:03d}"] for [i >= 0] *)
Definition format_03d (i : N) : string := zero_pad 3 (str_N i).

(* ===================================================================== *)
(** * Exceptions *)

(** The outcome of a call: a value, or an exception with its message. *)
Inductive result (A : Type) : Type :=
| Ok (a : A)
| Raise (msg : string).
Arguments Ok {A} a.
Arguments Raise {A} msg.

Definition is_ok {A} (r : result A) : bool :=
  match r with Ok _ => true | Raise _ => false end.

(* ===================================================================== *)
(** * The trajectory parser *)

Inductive Delim := AUTO | SPACE | COMMA | TAB.
Inductive TimeUnit := SECONDS | MILLISECONDS.

(** The file system as far as the add-on sees it: the regular files and
    their contents. *)
Abbreviation FileSystem := (gmap string string).

(** The tokens of a stripped line under the delimiter mode. *)
Definition split_fields (delim_mode : Delim) (s : string) : list string :=
  match delim_mode with
  | COMMA => split_char ","%char s
  | TAB => split_char TABc s
  | SPACE => split_ws s
  | AUTO => if contains ","%char s then split_char ","%char s
            else if contains TABc s then split_char TABc s
            else split_ws s
  end.

(** A line the loop skips: blank or a comment. *)
Definition skipped (s : string) : bool :=
  match s with
  | EmptyString => true
  | _ => startswith "#" s
  end.

(** The double nearest to pi, and [math.radians]. *)
Definition math_pi : Q := 884279719003555 # 281474976710656.
Definition radians (v : Q) : Q := v * (math_pi / (180 # 1)).

(** The sort-and-dedup tail of [parse_single_arm]. *)
Definition dedup_step (acc : list Q * list Pose) (p : Q * Pose) : list Q * list Pose :=
  let '(times, joints) := acc in
  let '(t, q) := p in
  match last times with
  | Some tl =>
      if Qltb (Qabs (t - tl)) eps12
      then (set_last times t, set_last joints q)
      else (times ++ [t], joints ++ [q])
  | None => (times ++ [t], joints ++ [q])
  end.

Definition sort_dedup (times : list Q) (joints : list Pose) : Trajectory :=
  let pairs := sorted (fun a b => Qltb (fst a) (fst b)) (zip times joints) in
  let '(times, joints) := fold_left dedup_step pairs ([], []) in
  mkTraj times joints.

Section Parsers.

(** Python's [float] on one token: the value, or [None] for [ValueError]. *)
Variable float_of : string -> option Q.

(** [[float(x) for x in parts]] *)
Definition floats (parts : list string) : option (list Q) := mapM float_of parts.

(** The reading loop of [parse_single_arm], from the remaining lines and
    the loop's variables. *)
Fixpoint read_rows (delim_mode : Delim) (time_unit : TimeUnit)
    (has_header degrees : bool) (lines : list string)
    (header_skipped : bool) (times : list Q) (joints : list Pose)
  : result (list Q * list Pose) :=
  match lines with
  | [] => Ok (times, joints)
  | line :: rest =>
      let s := strip line in
      if skipped s then
        read_rows delim_mode time_unit has_header degrees rest header_skipped times joints
      else
        let parts := split_fields delim_mode s in
        if has_header && negb header_skipped then
          read_rows delim_mode time_unit has_header degrees rest true times joints
        else
          match floats parts with
          | None => Raise ("Non-numeric data in line: " +:+ line)
          | Some vals =>
              if (length vals <? 15)%nat then
                Raise ("Expected 15 numbers (t + 7 pos + 7 vel). Got "
                       +:+ str_N (N.of_nat (length vals)))
              else
                let t := nth 0 vals 0 *
                         (match time_unit with
                          | MILLISECONDS => 1 # 1000
                          | SECONDS => 1
                          end) in
                let qpos := take 7 (drop 1 vals) in
                let qpos := if degrees then map radians qpos else qpos in
                read_rows delim_mode time_unit has_header degrees rest
                          header_skipped (times ++ [t]) (joints ++ [qpos])
          end
  end.

(** [parse_single_arm(filepath, delim_mode, time_unit, has_header, degrees)] *)
Definition parse_single_arm (fs : FileSystem) (filepath : string)
    (delim_mode : Delim) (time_unit : TimeUnit) (has_header degrees : bool)
  : result Trajectory :=
  match fs !! filepath with
  | None => Raise ("File not found: " +:+ filepath)
  | Some contents =>
      match read_rows delim_mode time_unit has_header degrees
                      (file_lines contents) false [] [] with
      | Raise msg => Raise msg
      | Ok (times, joints) =>
          match times with
          | [] => Raise "No valid data rows found."
          | _ => Ok (sort_dedup times joints)
          end
      end
  end.

(** The reading loop of [_parse_tcp_positions]. *)
Fixpoint read_tcp_rows (delim_mode : Delim) (has_header column_major : bool)
    (y_offset : Q) (lines : list string) (header_skipped : bool)
    (pts : list (Q * Q * Q)) : result (list (Q * Q * Q)) :=
  match lines with
  | [] => Ok pts
  | line :: rest =>
      let s := strip line in
      if skipped s then
        read_tcp_rows delim_mode has_header column_major y_offset rest header_skipped pts
      else
        let parts := split_fields delim_mode s in
        if has_header && negb header_skipped then
          read_tcp_rows delim_mode has_header column_major y_offset rest true pts
        else
          match floats parts with
          | None => Raise ("Non-numeric data in line: " +:+ line)
          | Some vals =>
              if (length vals <? 17)%nat then
                Raise ("Expected 17 numbers (t + 16 matrix). Got "
                       +:+ str_N (N.of_nat (length vals)))
              else
                let m := take 16 (drop 1 vals) in
                let '(x, y, z) :=
                  if column_major then (nth 12 m 0, nth 13 m 0, nth 14 m 0)
                  else (nth 3 m 0, nth 7 m 0, nth 11 m 0) in
                read_tcp_rows delim_mode has_header column_major y_offset rest
                              header_skipped (pts ++ [(x, y + y_offset, z)])
          end
  end.

(** [_parse_tcp_positions(filepath, delim_mode, has_header, column_major, y_offset)] *)
Definition _parse_tcp_positions (fs : FileSystem) (filepath : string)
    (delim_mode : Delim) (has_header column_major : bool) (y_offset : Q)
  : result (list (Q * Q * Q)) :=
  match fs !! filepath with
  | None => Raise ("File not found: " +:+ filepath)
  | Some contents =>
      match read_tcp_rows delim_mode has_header column_major y_offset
                          (file_lines contents) false [] with
      | Raise msg => Raise msg
      | Ok [] => Raise "No valid TCP rows found."
      | Ok pts => Ok pts
      end
  end.

End Parsers.

(* ===================================================================== *)
(** * The add-on's state and its operators *)

(** An object of [bpy.data.objects]: an armature with the Y rotation
    ([rotation_euler[1]]) of each of its pose bones, or something else. *)
Inductive BObject :=
| Armature (bones : gmap string Q)
| NotArmature.

(** The scene properties registered by the add-on. *)
Record Scene := mkScene {
  sa_base_name : string;
  sa_bone_name : string;
  sa_start_index : nat;
  sa_joints : nat;
  sa_suffix_a : string;
  sa_suffix_b : string;
  sa_folder_a : string;
  sa_folder_b : string;
  da_common_filename : string;
  da_delim : Delim;
  sa_time_unit : TimeUnit;
  sa_has_header : bool;
  sa_degrees : bool;
  sa_scrub : Q;
  sa_time : Q;
  da_tcp_filename : string;
  tcp_radius : Q;
  tcp_step : nat;
  tcp_column_major : bool;
  tcp_material : string
}.

Inductive Arm := ArmA | ArmB.

(** The key of the binding cache and a cache entry [{'key':..., 'refs':...}];
    a reference is the pair (object name, bone name) or [(None, None)]. *)
Abbreviation RefKey := (string * nat * nat * string * string)%type.
Abbreviation Refs := (list (option (string * string))).

(** A sphere instance linked by [_scatter_tcp_points]:
    location, [tcp_i], scale. *)
Record Marker := mkMarker { m_location : Q * Q * Q; m_tcp_i : nat; m_scale : Q }.

Record State := mkState {
  TRAJ_A : option Trajectory;
  TRAJ_B : option Trajectory;
  ARMREFS_A : option (RefKey * Refs);
  ARMREFS_B : option (RefKey * Refs);
  scene : Scene;
  objects : gmap string BObject;
  collections : gmap string (list Marker)
}.

Definition set_TRAJ (which : Arm) (T : option Trajectory) (st : State) : State :=
  match which with
  | ArmA => mkState T (TRAJ_B st) (ARMREFS_A st) (ARMREFS_B st) (scene st) (objects st) (collections st)
  | ArmB => mkState (TRAJ_A st) T (ARMREFS_A st) (ARMREFS_B st) (scene st) (objects st) (collections st)
  end.

Definition set_ARMREFS (which : Arm) (c : option (RefKey * Refs)) (st : State) : State :=
  match which with
  | ArmA => mkState (TRAJ_A st) (TRAJ_B st) c (ARMREFS_B st) (scene st) (objects st) (collections st)
  | ArmB => mkState (TRAJ_A st) (TRAJ_B st) (ARMREFS_A st) c (scene st) (objects st) (collections st)
  end.

Definition set_sa_time (t : Q) (st : State) : State :=
  let s := scene st in
  mkState (TRAJ_A st) (TRAJ_B st) (ARMREFS_A st) (ARMREFS_B st)
    (mkScene (sa_base_name s) (sa_bone_name s) (sa_start_index s) (sa_joints s)
       (sa_suffix_a s) (sa_suffix_b s) (sa_folder_a s) (sa_folder_b s)
       (da_common_filename s) (da_delim s) (sa_time_unit s) (sa_has_header s)
       (sa_degrees s) (sa_scrub s) t (da_tcp_filename s) (tcp_radius s)
       (tcp_step s) (tcp_column_major s) (tcp_material s))
    (objects st) (collections st).

Definition set_objects (o : gmap string BObject) (st : State) : State :=
  mkState (TRAJ_A st) (TRAJ_B st) (ARMREFS_A st) (ARMREFS_B st) (scene st) o (collections st).

Definition set_collections (c : gmap string (list Marker)) (st : State) : State :=
  mkState (TRAJ_A st) (TRAJ_B st) (ARMREFS_A st) (ARMREFS_B st) (scene st) (objects st) c.

Definition TRAJ (which : Arm) (st : State) : option Trajectory :=
  match which with ArmA => TRAJ_A st | ArmB => TRAJ_B st end.

Definition ARMREFS (which : Arm) (st : State) : option (RefKey * Refs) :=
  match which with ArmA => ARMREFS_A st | ArmB => ARMREFS_B st end.

(** [get_joint_bone(base_name, index, suffix, bone_name)]: the reference,
    or [None] where the source returns an error text. *)
Definition get_joint_bone (objs : gmap string BObject)
    (base_name : string) (index : nat) (suffix bone_name : string)
  : option (string * string) :=
  let obj_name := base_name +:+ str_N (N.of_nat index) +:+ suffix in
  match objs !! obj_name with
  | Some (Armature bones) =>
      match bones !! bone_name with
      | Some _ => Some (obj_name, bone_name)
      | None => None
      end
  | _ => None
  end.

(** [ensure_arm_refs(scene, which)]: the references and the updated cache. *)
Definition ensure_arm_refs (which : Arm) (st : State) : Refs * State :=
  let scn := scene st in
  let suffix := match which with ArmA => sa_suffix_a scn | ArmB => sa_suffix_b scn end in
  let key : RefKey :=
    (sa_base_name scn, sa_start_index scn, sa_joints scn, suffix, sa_bone_name scn) in
  match ARMREFS which st with
  | Some (k, refs) =>
      if decide (k = key) then (refs, st)
      else
        let refs := map (fun j => get_joint_bone (objects st) (sa_base_name scn)
                                    (j + 1) suffix (sa_bone_name scn))
                        (seq (sa_start_index scn) (sa_joints scn)) in
        (refs, set_ARMREFS which (Some (key, refs)) st)
  | None =>
      let refs := map (fun j => get_joint_bone (objects st) (sa_base_name scn)
                                  (j + 1) suffix (sa_bone_name scn))
                      (seq (sa_start_index scn) (sa_joints scn)) in
      (refs, set_ARMREFS which (Some (key, refs)) st)
  end.

(** [bone.rotation_euler[1] = v] *)
Definition set_bone (ref : option (string * string)) (v : Q)
    (objs : gmap string BObject) : gmap string BObject :=
  match ref with
  | Some (obj_name, bone_name) =>
      match objs !! obj_name with
      | Some (Armature bones) => <[obj_name := Armature (<[bone_name := v]> bones)]> objs
      | _ => objs
      end
  | None => objs
  end.

(** The loop [for j, (obj, bone) in enumerate(refs[:len(q)])]. *)
Definition apply_refs (refs : Refs) (q : Pose) (objs : gmap string BObject)
  : gmap string BObject :=
  fold_left (fun o rv => set_bone (fst rv) (snd rv) o) (zip (take (length q) refs) q) objs.

(** One arm's block of [apply_pose_from_scrub]; [None] when [sample_q]
    raises. *)
Definition apply_arm (which : Arm) (t : Q) (st : State) : option State :=
  match TRAJ which st with
  | Some T =>
      q ← sample_q T t;
      let '(refs, st) := ensure_arm_refs which st in
      Some (set_objects (apply_refs refs q (objects st)) st)
  | None => Some st
  end.

(** [apply_pose_from_scrub(context)]: the state reached, and whether the call
    returned ([true]) or raised ([false]). *)
Definition apply_pose_from_scrub (st : State) : State * bool :=
  match scrub_time (TRAJ_A st) (TRAJ_B st) (sa_scrub (scene st)) with
  | None => (st, false)
  | Some t =>
      let st := set_sa_time t st in
      match apply_arm ArmA t st with
      | None => (st, false)
      | Some st =>
          match apply_arm ArmB t st with
          | None => (st, false)
          | Some st => (st, true)
          end
      end
  end.

(** [os.path.join(a, b)] on POSIX paths. *)
Definition ends_with_slash (a : string) : bool :=
  match last (String.list_ascii_of_string a) with
  | Some c => Ascii.eqb c "/"%char
  | None => false
  end.

Definition path_join (a b : string) : string :=
  if startswith "/" b then b
  else match a with
       | EmptyString => b
       | _ => if ends_with_slash a then a +:+ b else a +:+ "/" +:+ b
       end.

(** What an operator hands back: its status set and what it reported. *)
Inductive Status := FINISHED | CANCELLED.
Inductive Level := INFO | ERROR | WARNING.
Record Outcome := mkOutcome { status : Status; reports : list (Level * string) }.

Definition arm_letter (which : Arm) : string :=
  match which with ArmA => "A" | ArmB => "B" end.

Section Operators.

Variable float_of : string -> option Q.
Variable fs : FileSystem.

(** [SA_OT_load_a.execute] and [SA_OT_load_b.execute]; the two bodies
    differ in the arm only.  The last component tells whether the call
    returned or an exception left it. *)
Definition load_execute (which : Arm) (st : State) : State * Outcome * bool :=
  let scn := scene st in
  let folder := match which with ArmA => sa_folder_a scn | ArmB => sa_folder_b scn end in
  let path := match da_common_filename scn with
              | EmptyString => EmptyString
              | name => path_join folder name
              end in
  match path with
  | EmptyString =>
      (st, mkOutcome CANCELLED
             [(ERROR, "Arm " +:+ arm_letter which +:+ ": set folder and filename first")],
       true)
  | _ =>
      match parse_single_arm float_of fs path (da_delim scn) (sa_time_unit scn)
                             (sa_has_header scn) (sa_degrees scn) with
      | Raise e =>
          (st, mkOutcome CANCELLED [(ERROR, arm_letter which +:+ ": " +:+ e)], true)
      | Ok T =>
          let st := set_TRAJ which (Some T) st in
          let st := set_ARMREFS which None st in
          match py_index (traj_t T) (-1), py_index (traj_t T) 0 with
          | Some tl, Some t0 =>
              let dur := tl - t0 in
              let rep := (INFO, arm_letter which +:+ ": "
                                +:+ str_N (N.of_nat (length (traj_t T)))
                                +:+ " samples (" +:+ format_3f dur +:+ "s)") in
              let '(st, returned) := apply_pose_from_scrub st in
              if returned then (st, mkOutcome FINISHED [rep], true)
              else (st, mkOutcome CANCELLED [rep], false)
          | _, _ => (st, mkOutcome CANCELLED [], false)
          end
      end
  end.

Definition SA_OT_load_a_execute : State -> State * Outcome * bool := load_execute ArmA.
Definition SA_OT_load_b_execute : State -> State * Outcome * bool := load_execute ArmB.

(** [pts[::step]] for [step >= 1]: [skip] elements are passed over before
    the next one is taken. *)
Fixpoint slice_from {A} (step skip : nat) (l : list A) : list A :=
  match l with
  | [] => []
  | x :: l' =>
      match skip with
      | O => x :: slice_from step (step - 1) l'
      | S k => slice_from step k l'
      end
  end.

Definition slice_step {A} (step : nat) (l : list A) : list A := slice_from step 0 l.

(** [_scatter_tcp_points(points, radius, coll_name, material_name)]:
    the instances are linked to the collection of that name, which is
    created when absent; the number of points is returned.  The field
    [objects] of the state holds the rig that the joint lookup reads; the
    sphere template that [_ensure_tcp_marker] creates when it is missing,
    and the copies made of it, are objects of Blender too, and they are
    represented by the markers of the collection only: no property below
    speaks of the objects after a display. *)
Definition _scatter_tcp_points (points : list (Q * Q * Q)) (radius : Q)
    (coll_name : string) (st : State) : nat * State :=
  let coll := default [] (collections st !! coll_name) in
  let insts := imap (fun i p => mkMarker p i radius) points in
  (length points, set_collections (<[coll_name := coll ++ insts]> (collections st)) st).

Definition tcp_y_offset (which : Arm) : Q :=
  match which with ArmA => 281 # 1000 | ArmB => - (281 # 1000) end.

(** [SA_OT_tcp_visualize_a.execute] and [SA_OT_tcp_visualize_b.execute]. *)
Definition tcp_visualize_execute (which : Arm) (st : State) : State * Outcome :=
  let scn := scene st in
  let folder := match which with ArmA => sa_folder_a scn | ArmB => sa_folder_b scn end in
  let fname := da_tcp_filename scn in
  match folder, fname with
  | EmptyString, _ | _, EmptyString =>
      (st, mkOutcome CANCELLED
             [(ERROR, "Set Arm " +:+ arm_letter which +:+ " folder and TCP filename first")])
  | _, _ =>
      let path := path_join folder fname in
      match _parse_tcp_positions float_of fs path (da_delim scn) (sa_has_header scn)
                                 (tcp_column_major scn) (tcp_y_offset which) with
      | Raise e =>
          (st, mkOutcome CANCELLED [(ERROR, "TCP " +:+ arm_letter which +:+ ": " +:+ e)])
      | Ok pts =>
          let pts := if (1 <? tcp_step scn)%nat then slice_step (tcp_step scn) pts else pts in
          let '(n, st) :=
            _scatter_tcp_points pts (tcp_radius scn)
              ("TCP " +:+ arm_letter which +:+ " (" +:+ fname +:+ ")") st in
          (st, mkOutcome FINISHED
                 [(INFO, "TCP " +:+ arm_letter which +:+ ": Plotted "
                         +:+ str_N (N.of_nat n) +:+ " points")])
      end
  end.

Definition SA_OT_tcp_visualize_a_execute : State -> State * Outcome :=
  tcp_visualize_execute ArmA.
Definition SA_OT_tcp_visualize_b_execute : State -> State * Outcome :=
  tcp_visualize_execute ArmB.

End Operators.

(* ===================================================================== *)
(** * The MoveIt scene exporter *)

(** What the exporter reads from a selected object: its name, whether it is
    a mesh, the translation and the quaternion (x, y, z, w) of its world
    matrix, and its dimensions. *)
Record SceneObject := mkSceneObject {
  o_name : string;
  o_is_mesh : bool;
  o_t : Q * Q * Q;
  o_q : Q * Q * Q * Q;
  o_dims : Q * Q * Q
}.

Definition TYPE_LINE : string := "box".
Definition SANITIZE_NAMES : bool := true.

(** The ten lines written for one object. *)
Definition export_block (o : SceneObject) : list string :=
  let name := strip (o_name o) in
  let name := if SANITIZE_NAMES then replace_spaces name else name in
  let '(tx, ty, tz) := o_t o in
  let '(qx, qy, qz, qw) := o_q o in
  let '(dx, dy, dz) := o_dims o in
  [ "* " +:+ name;
    format_6f tx +:+ " " +:+ format_6f ty +:+ " " +:+ format_6f tz;
    format_6f qx +:+ " " +:+ format_6f qy +:+ " " +:+ format_6f qz +:+ " " +:+ format_6f qw;
    "1";
    TYPE_LINE;
    format_6f dx +:+ " " +:+ format_6f dy +:+ " " +:+ format_6f dz;
    "0 0 0";
    "0 0 0 1";
    "0 0 0 0";
    "0" ].

(** The objects the script writes, in the order it writes them. *)
Definition export_objects (selected : list SceneObject) : list SceneObject :=
  sorted (fun a b => String.ltb (lower (o_name a)) (lower (o_name b)))
         (filter (fun o => o_is_mesh o = true) selected).

(** The script: the text written to [OUTPUT_PATH]. *)
Definition export_scene (selected : list SceneObject) : result string :=
  match export_objects selected with
  | [] => Raise "No MESH objects selected. Select your objects and run again."
  | objs => Ok (join_lines (["(noname)+"] ++ concat (map export_block objs) ++ ["."]))
  end.

(* ===================================================================== *)
(** * The MoveIt scene importer *)

Record Entry := mkEntry {
  e_name : string;
  e_pos : list Q;
  e_quat_xyzw : list Q;
  e_shape : string;
  e_size : list Q
}.

(** [nonempty_lines(fp)]: the stripped lines that are not empty. *)
Definition nonempty_lines (lines : list string) : list string :=
  filter (fun s => s ≠ EmptyString) (map strip lines).

(** [x = next(it)]: the next line of the iterator; at its end the exception
    is [StopIteration], whose message is empty. *)
Notation "'let_next' x , it' ':=' it 'in' k" :=
  (match it with
   | [] => Raise EmptyString (* StopIteration *)
   | x :: it' => k
   end) (at level 10, x name, it' name, k at level 200, only parsing).

Notation "'let_ok' x ':=' r 'in' k" :=
  (match r with
   | Raise msg => Raise msg
   | Ok x => k
   end) (at level 10, x name, r at level 200, k at level 200, only parsing).

Section Importer.

Variable float_of : string -> option Q.

(** The token that makes [float] fail, for the message. *)
Definition first_bad (parts : list string) : string :=
  default EmptyString (head (filter (fun p => float_of p = None) parts)).

(** [parse_floats(line, n)] with [n] given. *)
Definition parse_floats (line : string) (n : nat) : result (list Q) :=
  let parts := re_split (strip line) in
  match mapM float_of parts with
  | None => Raise ("could not convert string to float: " +:+ first_bad parts)
  | Some vals =>
      if decide (length vals = n) then Ok vals
      else Raise ("Expected " +:+ str_N (N.of_nat n) +:+ " floats, got "
                  +:+ str_N (N.of_nat (length vals)) +:+ String LF ("Line: " +:+ line))
  end.

(** The loop [for line in it] of [_parse_scene_file]. *)
Fixpoint scene_entries (it : list string) (entries : list Entry) : result (list Entry) :=
  match it with
  | [] => Ok entries
  | line :: it =>
      if negb (startswith "* " line) then scene_entries it entries
      else
        let name := match strip (String.substring 2 (String.length line - 2) line) with
                    | EmptyString => "cube"
                    | nm => nm
                    end in
        let_next l1, it := it in
        let_ok pos := parse_floats l1 3 in
        let_next l2, it := it in
        let_ok quat := parse_floats l2 4 in
        let_next _l3, it := it in
        let_next l4, it := it in
        let shape := lower (strip l4) in
        let_next l5, it := it in
        let_ok size := parse_floats l5 3 in
        let_next _l6, it := it in
        let_next _l7, it := it in
        let_next _l8, it := it in
        let_next _l9, it := it in
        scene_entries it (entries ++ [mkEntry name pos quat shape size])
  end.

(** [_parse_scene_file(path)], from the file's contents. *)
Definition _parse_scene_file (contents : string) : result (list Entry) :=
  match nonempty_lines (file_lines contents) with
  | [] => Ok []
  | first :: it =>
      let it := if startswith "* " first then [first] ++ it else it in
      scene_entries it []
  end.

End Importer.

(** [_unique_name(base, existing_names)].  The search [while True] is
    bounded by a number of rounds; [None] when the rounds are used up. *)
Fixpoint unique_name_loop (rounds : nat) (base : string) (existing_names : gset string)
    (i : N) : option string :=
  match rounds with
  | O => None
  | S rounds' =>
      let nm := base +:+ "." +:+ format_03d i in
      if decide (nm ∈ existing_names) then
        unique_name_loop rounds' base existing_names (i + 1)
      else Some nm
  end.

Definition _unique_name (base : string) (existing_names : gset string) : option string :=
  if decide (base ∈ existing_names) then
    unique_name_loop (S (size existing_names)) base existing_names 1
  else Some base.

(** The names in [bpy.data.objects] and [bpy.data.meshes]. *)
Record Names := mkNames { obj_names : gset string; mesh_names : gset string }.

Section Spawn.

(** The name Blender gives to the mesh of a newly added cube, from the mesh
    names in use. *)
Variable new_mesh_name : gset string -> string.

(** The naming steps of [_spawn_cube_unique(base_name, ...)]: the object
    name chosen and the names afterwards.  The cube added by
    [primitive_cube_add] is renamed at once, so of its object only the
    final name is recorded. *)
Definition _spawn_cube_unique (base_name : string) (w : Names) : option (string * Names) :=
  let existing_obj_names := obj_names w in
  obj_name ← _unique_name base_name existing_obj_names;
  let tmp_mesh := new_mesh_name (mesh_names w) in
  let existing_mesh_names := mesh_names w ∪ {[tmp_mesh]} in
  mesh_name ← _unique_name (obj_name +:+ "_Mesh") existing_mesh_names;
  Some (obj_name, mkNames (existing_obj_names ∪ {[obj_name]})
                          (mesh_names w ∪ {[mesh_name]})).

(** The loop over the entries in [MOVEIT_SCENE_OT_Import.execute]: the
    names of the cubes created, in order, and the names afterwards. *)
Fixpoint import_entries (entries : list Entry) (w : Names) (created : list string)
  : option (list string * Names) :=
  match entries with
  | [] => Some (created, w)
  | e :: rest =>
      if decide (e_shape e = "box") then
        r ← _spawn_cube_unique (e_name e) w;
        import_entries rest (snd r) (created ++ [fst r])
      else import_entries rest w created
  end.

End Spawn.

(* ===================================================================== *)
(** * Notions used in the statements *)

(* --------------------------------------------------------------------- *)
(** ** Trajectories *)

(** Times that increase strictly, resp. never decrease, from one sample to
    the next. *)
Fixpoint increasing (l : list Q) : bool :=
  match l with
  | x :: l' => match l' with
               | y :: _ => Qltb x y && increasing l'
               | [] => true
               end
  | [] => true
  end.

Fixpoint nondecreasing (l : list Q) : bool :=
  match l with
  | x :: l' => match l' with
               | y :: _ => Qleb x y && nondecreasing l'
               | [] => true
               end
  | [] => true
  end.

(** Poses that are equal as vectors of numbers (Python's [==] on lists of
    floats). *)
Definition pose_eq (p p' : Pose) : Prop := Forall2 Qeq p p'.

(** One pose per time, and all poses of one length. *)
Definition well_formed (n : nat) (T : Trajectory) : Prop :=
  length (traj_q T) = length (traj_t T) /\
  Forall (fun p : Pose => length p = n) (traj_q T).

(* --------------------------------------------------------------------- *)
(** ** The sampler *)

(** The linear blend of two poses at ratio [r]. *)
Definition blend (r : Q) (q0 q1 : Pose) : Pose :=
  map (fun ab => (1 - r) * fst ab + r * snd ab) (zip q0 q1).

(* --------------------------------------------------------------------- *)
(** ** Sorting and collapsing the rows *)

(** The collapse of a time-sorted list of rows, in the words of the
    specification: a row followed within 1e-12 by another one gives way to
    it; [prev] is the row that currently stands. *)
Fixpoint collapse_from (prev : Q * Pose) (l : list (Q * Pose)) : list (Q * Pose) :=
  match l with
  | [] => [prev]
  | p :: l' =>
      if Qltb (Qabs (fst p - fst prev)) eps12 then collapse_from p l'
      else prev :: collapse_from p l'
  end.

Definition collapse (l : list (Q * Pose)) : list (Q * Pose) :=
  match l with
  | [] => []
  | p :: l' => collapse_from p l'
  end.

(** The order in which [parse_single_arm] sorts its rows. *)
Definition time_lt (a b : Q * Pose) : bool := Qltb (fst a) (fst b).

(** The rows of a file that have the time [t], in file order. *)
Definition rows_at (t : Q) (rows : list (Q * Pose)) : list (Q * Pose) :=
  List.filter (fun p => Qeq_bool (fst p) t) rows.

Abbreviation time_sorted := (StronglySorted (fun a b : Q * Pose => fst a <= fst b)).

(* --------------------------------------------------------------------- *)
(** ** Data lines *)

(** The lines of a file that are neither blank nor comments, and its data
    lines: the same without the header line, when one is announced. *)
Definition content_lines (lines : list string) : list string :=
  List.filter (fun l => negb (skipped (strip l))) lines.

Definition data_lines (has_header : bool) (lines : list string) : list string :=
  if has_header then drop 1 (content_lines lines) else content_lines lines.

(** A line with a token that is not a number; the number of its fields; a
    data line that makes the parse fail. *)
Definition non_numeric (float_of : string -> option Q) (delim_mode : Delim)
    (line : string) : bool :=
  existsb (fun tok => match float_of tok with None => true | Some _ => false end)
          (split_fields delim_mode (strip line)).

Definition field_count (delim_mode : Delim) (line : string) : nat :=
  length (split_fields delim_mode (strip line)).

Definition bad_line (float_of : string -> option Q) (delim_mode : Delim)
    (line : string) : bool :=
  non_numeric float_of delim_mode line || (field_count delim_mode line <? 15)%nat.

(** A data line that makes the TCP parse fail. *)
Definition tcp_bad_line (float_of : string -> option Q) (delim_mode : Delim)
    (line : string) : bool :=
  non_numeric float_of delim_mode line || (field_count delim_mode line <? 17)%nat.

(** The numbers of a data line ([[]] when a token is not a number). *)
Definition line_values (float_of : string -> option Q) (delim_mode : Delim)
    (line : string) : list Q :=
  default [] (floats float_of (split_fields delim_mode (strip line))).

(** The point the source computes from the numbers of a row. *)
Definition tcp_point (column_major : bool) (y_offset : Q) (vals : list Q) : Q * Q * Q :=
  let m := take 16 (drop 1 vals) in
  if column_major then (nth 12 m 0, nth 13 m 0 + y_offset, nth 14 m 0)
  else (nth 3 m 0, nth 7 m 0 + y_offset, nth 11 m 0).

(** The collection an arm's points are linked to. *)
Definition tcp_collection (which : Arm) (fname : string) : string :=
  "TCP " +:+ arm_letter which +:+ " (" +:+ fname +:+ ")".

Section RowLoops.

Variable float_of : string -> option Q.
Variable delim_mode : Delim.
Variable time_unit : TimeUnit.
Variable degrees : bool.
Variable y_offset : Q.

(** The reading loop on the data lines alone. *)
Fixpoint read_data (dl : list string) (times : list Q) (joints : list Pose)
  : result (list Q * list Pose) :=
  match dl with
  | [] => Ok (times, joints)
  | line :: rest =>
      match floats float_of (split_fields delim_mode (strip line)) with
      | None => Raise ("Non-numeric data in line: " +:+ line)
      | Some vals =>
          if (length vals <? 15)%nat then
            Raise ("Expected 15 numbers (t + 7 pos + 7 vel). Got "
                   +:+ str_N (N.of_nat (length vals)))
          else
            let t := nth 0 vals 0 *
                     (match time_unit with MILLISECONDS => 1 # 1000 | SECONDS => 1 end) in
            let qpos := take 7 (drop 1 vals) in
            let qpos := if degrees then map radians qpos else qpos in
            read_data rest (times ++ [t]) (joints ++ [qpos])
      end
  end.

(** The reading loop on the data lines alone. *)
Fixpoint read_tcp_data (column_major : bool) (dl : list string) (pts : list (Q * Q * Q))
  : result (list (Q * Q * Q)) :=
  match dl with
  | [] => Ok pts
  | line :: rest =>
      match floats float_of (split_fields delim_mode (strip line)) with
      | None => Raise ("Non-numeric data in line: " +:+ line)
      | Some vals =>
          if (length vals <? 17)%nat then
            Raise ("Expected 17 numbers (t + 16 matrix). Got "
                   +:+ str_N (N.of_nat (length vals)))
          else read_tcp_data column_major rest (pts ++ [tcp_point column_major y_offset vals])
      end
  end.

End RowLoops.

(* --------------------------------------------------------------------- *)
(** ** The load operators *)

(** The folder of an arm and the path a load action reads. *)
Definition arm_folder (which : Arm) (scn : Scene) : string :=
  match which with ArmA => sa_folder_a scn | ArmB => sa_folder_b scn end.

Definition load_path (which : Arm) (scn : Scene) : string :=
  path_join (arm_folder which scn) (da_common_filename scn).

(* --------------------------------------------------------------------- *)
(** ** Names, lines and tokens *)

(** The [i]-th candidate of [_unique_name]. *)
Definition candidate (base : string) (i : N) : string := base +:+ "." +:+ format_03d i.

Fixpoint all_chars (P : ascii -> bool) (s : string) : bool :=
  match s with
  | EmptyString => true
  | String c s' => P c && all_chars P s'
  end.

(** A string that starts, resp. ends, with a character that is not a
    space. *)
Definition first_ok (s : string) : bool :=
  match s with
  | String c _ => negb (is_space c)
  | EmptyString => false
  end.

Fixpoint last_ok (s : string) : bool :=
  match s with
  | EmptyString => false
  | String c s' =>
      match s' with
      | EmptyString => negb (is_space c)
      | _ => last_ok s'
      end
  end.

Definition is_break (c : ascii) : bool := Ascii.eqb c LF || Ascii.eqb c CR.

(** A line that reading and stripping give back as it was written. *)
Definition clean_line (s : string) : bool :=
  first_ok s && last_ok s && all_chars (fun c => negb (is_break c)) s.

(** A token: not empty, without commas and spaces. *)
Definition is_token (s : string) : bool :=
  match s with
  | EmptyString => false
  | _ => all_chars (fun c => negb (is_sep c)) s
  end.

(** Tokens separated by single blanks. *)
Fixpoint join_sp (ts : list string) : string :=
  match ts with
  | [] => EmptyString
  | [t] => t
  | t :: ts' => t +:+ " " +:+ join_sp ts'
  end.

(* --------------------------------------------------------------------- *)
(** ** Scene files *)

(** The digits of [.6f] in terms of the scaled, rounded magnitude. *)
Definition scaled_6 (x : Q) : N :=
  Z.to_N (round_half_even (Qabs x * Q_of_N 1000000)).

(** The name the exporter writes for an object, and the objects whose
    name can be written on a line: something is left of it once blanks are
    stripped, and it has no line break. *)
Definition exported_name (o : SceneObject) : string :=
  replace_spaces (strip (o_name o)).

Definition name_ok (o : SceneObject) : bool :=
  match exported_name o with
  | EmptyString => false
  | n => all_chars (fun c => negb (is_break c)) n
  end.

(** A number read back within 1e-6. *)
Definition close (x v : Q) : Prop :=
  - (1 # 1000000) <= v - x /\ v - x <= 1 # 1000000.

(** What the round trip needs of [float].  [double] is the set of the
    numbers that a float can hold.  On a decimal numeral that lies within
    5e-7 of such a number, [float] returns a value that is at least as near
    to the numeral's exact value, which [py_float] computes, as that number
    is.  Python's [float] returns the double nearest to the numeral; with
    all rationals for the set, [py_float] itself is the case without
    rounding. *)
Definition reads_nearest (double : Q -> Prop) (float_of : string -> option Q) : Prop :=
  forall s q x, py_float s = Some q -> double x ->
    - (1 # 2000000) <= q - x -> q - x <= 1 # 2000000 ->
    exists v, float_of s = Some v /\ Qabs (v - q) <= Qabs (x - q).

Definition list3 (p : Q * Q * Q) : list Q := let '(x, y, z) := p in [x; y; z].
Definition list4 (p : Q * Q * Q * Q) : list Q := let '(x, y, z, w) := p in [x; y; z; w].

(** The ten numbers of an object that the exporter writes. *)
Definition object_values (o : SceneObject) : list Q :=
  list3 (o_t o) ++ list4 (o_q o) ++ list3 (o_dims o).

(** The entry that the importer reads for an exported object. *)
Definition entry_matches (o : SceneObject) (e : Entry) : Prop :=
  e_name e = exported_name o /\ e_shape e = "box" /\
  Forall2 close (list3 (o_t o)) (e_pos e) /\
  Forall2 close (list4 (o_q o)) (e_quat_xyzw e) /\
  Forall2 close (list3 (o_dims o)) (e_size e).

(* --------------------------------------------------------------------- *)
(** ** Inputs of the examples *)

(** Two rows whose times differ by 5e-13, the later one first in the file. *)
Definition near_duplicate_file : string :=
  "0.0000000000005 1 1 1 1 1 1 1 0 0 0 0 0 0 0
0 2 2 2 2 2 2 2 0 0 0 0 0 0 0
".

(** A file whose only row has 14 fields, and one with a token that is not a
    number in its second row. *)
Definition short_row_file : string :=
  "# t q1..q7 v1..v7
0 1 2 3 4 5 6 7 0 0 0 0 0 0
".

Definition bad_token_file : string :=
  "0 1 2 3 4 5 6 7 0 0 0 0 0 0 0
1 1 2 3 4 5 6 x 0 0 0 0 0 0 0
".

Definition good_file : string :=
  "5 1 2 3 4 5 6 7 0 0 0 0 0 0 0
6 2 3 4 5 6 7 8 0 0 0 0 0 0 0
".

(** A scene with the default property values of [register], except for the
    folders, and a state in which both arms are loaded. *)
Definition default_scene : Scene :=
  mkScene "fer_link" "Bone" 0 7 ".001" ".002" "/a" "/b" "traj.txt"
          AUTO SECONDS false false 0 0 "tcp.txt" (5 # 1000) 5 true "trajectoryBlue".

Definition loaded_state : State :=
  mkState (Some (mkTraj [0; 1] [replicate 7 0; replicate 7 1]))
          (Some (mkTraj [2 # 1; 3 # 1] [replicate 7 0; replicate 7 1]))
          None None default_scene ∅ ∅.

(** One row of a row-major transform with the translation (10, 20, 30). *)
Definition tcp_file : string :=
  "0 1 0 0 10 0 1 0 20 0 0 1 30 0 0 0 1
".

Definition tcp_state : State :=
  mkState None None None None
    (mkScene "fer_link" "Bone" 0 7 ".001" ".002" "/a" "/b" "traj.txt"
             AUTO SECONDS false false 0 0 "tcp.txt" (5 # 1000) 1 false "trajectoryBlue")
    ∅ ∅.

(** An object whose name is blank, and one whose name has a line break. *)
Definition blank_name_object : SceneObject :=
  mkSceneObject " " true (0, 0, 0) (0, 0, 0, 1) (1, 1, 1).

Definition two_line_name_object : SceneObject :=
  mkSceneObject ("a" +:+ String LF "b") true (0, 0, 0) (0, 0, 0, 1) (1, 1, 1).

Definition plain_object : SceneObject :=
  mkSceneObject "Table top" true (1 # 3, 2 # 1, - (1 # 7)) (0, 0, 0, 1) (1, 2 # 1, 3 # 1).

(* ===================================================================== *)
(** * Further operators of the add-on *)

(** [SA_OT_clear_a.execute] and [SA_OT_clear_b.execute]. *)
Definition clear_execute (which : Arm) (st : State) : State * Outcome :=
  let st := set_TRAJ which None st in
  let st := set_ARMREFS which None st in
  let st := set_sa_time 0 st in
  (st, mkOutcome FINISHED [(INFO, "Cleared Arm " +:+ arm_letter which)]).

Definition SA_OT_clear_a_execute : State -> State * Outcome := clear_execute ArmA.
Definition SA_OT_clear_b_execute : State -> State * Outcome := clear_execute ArmB.

(** [_on_scrub_update(self, context)]: the exception of
    [apply_pose_from_scrub], if any, is printed and dropped. *)
Definition _on_scrub_update (st : State) : State := fst (apply_pose_from_scrub st).

(** [_clear_tcp_by_prefix(prefix)]: the collections whose name starts with
    the prefix are deleted with their contents; their number is returned. *)
Definition _clear_tcp_by_prefix (prefix : string) (st : State) : nat * State :=
  let to_delete :=
    List.filter (fun name => startswith prefix name)
                (map fst (map_to_list (collections st))) in
  (length to_delete,
   set_collections (fold_left (fun colls name => delete name colls) to_delete
                              (collections st)) st).

(** [SA_OT_tcp_clear_a.execute] and [SA_OT_tcp_clear_b.execute]. *)
Definition tcp_clear_execute (which : Arm) (st : State) : State * Outcome :=
  let '(n, st) := _clear_tcp_by_prefix ("TCP " +:+ arm_letter which +:+ " (") st in
  (st, mkOutcome FINISHED
         [(INFO, "TCP " +:+ arm_letter which +:+ ": cleared "
                 +:+ str_N (N.of_nat n) +:+ " collection(s)")]).

Definition SA_OT_tcp_clear_a_execute : State -> State * Outcome := tcp_clear_execute ArmA.
Definition SA_OT_tcp_clear_b_execute : State -> State * Outcome := tcp_clear_execute ArmB.

(* --------------------------------------------------------------------- *)
(** ** Further notions used in the statements *)

(** The row that the reading loop of [parse_single_arm] appends for a data
    line: the first number as the time, the next seven as the pose. *)
Definition row_of (float_of : string -> option Q) (delim_mode : Delim)
    (time_unit : TimeUnit) (degrees : bool) (line : string) : Q * Pose :=
  let vals := line_values float_of delim_mode line in
  (nth 0 vals 0 * (match time_unit with MILLISECONDS => 1 # 1000 | SECONDS => 1 end),
   let qpos := take 7 (drop 1 vals) in
   if degrees then map radians qpos else qpos).

(** Times of which each exceeds the one before by at least 1e-12. *)
Fixpoint gapped (l : list Q) : bool :=
  match l with
  | x :: l' => match l' with
               | y :: _ => Qleb (x + eps12) y && gapped l'
               | [] => true
               end
  | [] => true
  end.

(** The bone angle ([rotation_euler[1]]) behind a reference. *)
Definition bone_angle (objs : gmap string BObject) (ref : string * string) : option Q :=
  match objs !! fst ref with
  | Some (Armature bones) => bones !! snd ref
  | _ => None
  end.

(** The names of the pose bones of an object ([None] when it is no
    armature). *)
Definition bone_names (o : BObject) : option (gset string) :=
  match o with
  | Armature bones => Some (dom bones)
  | NotArmature => None
  end.

(** An entry whose three vectors have the lengths the importer unpacks. *)
Definition entry_shaped (e : Entry) : Prop :=
  length (e_pos e) = 3%nat /\ length (e_quat_xyzw e) = 4%nat /\ length (e_size e) = 3%nat.

(** A loaded trajectory as the sampler needs it: at least one sample, times
    that increase, one pose per time. *)
Definition traj_ok (T : Trajectory) : Prop :=
  traj_t T <> [] /\ increasing (traj_t T) = true /\
  length (traj_q T) = length (traj_t T).

(** A reference that names a pose bone of an armature of the scene. *)
Definition ref_ok (objs : gmap string BObject) (r : option (string * string)) : Prop :=
  forall ref, r = Some ref -> is_Some (bone_angle objs ref).

(** The states the operators keep to: every loaded trajectory is as the
    sampler needs it, and every cached reference names a bone of the
    scene. *)
Definition state_ok (st : State) : Prop :=
  (forall which T, TRAJ which st = Some T -> traj_ok T) /\
  (forall which k refs, ARMREFS which st = Some (k, refs) ->
     Forall (ref_ok (objects st)) refs).

(** Two object tables with the same objects, each of the same kind and
    with the same pose bones. *)
Definition same_bones (objs objs' : gmap string BObject) : Prop :=
  forall name, bone_names <$> objs' !! name = bone_names <$> objs !! name.

(** The name of the object of joint [j] (counted from 0) of an arm. *)
Definition joint_object (which : Arm) (scn : Scene) (j : nat) : string :=
  sa_base_name scn +:+ str_N (N.of_nat (sa_start_index scn + j + 1))
  +:+ (match which with ArmA => sa_suffix_a scn | ArmB => sa_suffix_b scn end).

(** The key under which [ensure_arm_refs] caches the references of an arm,
    and the references it computes on a miss. *)
Definition arm_suffix (which : Arm) (scn : Scene) : string :=
  match which with ArmA => sa_suffix_a scn | ArmB => sa_suffix_b scn end.

Definition arm_key (which : Arm) (scn : Scene) : RefKey :=
  (sa_base_name scn, sa_start_index scn, sa_joints scn, arm_suffix which scn,
   sa_bone_name scn).

Definition fresh_refs (which : Arm) (st : State) : Refs :=
  map (fun j => get_joint_bone (objects st) (sa_base_name (scene st)) (j + 1)
                  (arm_suffix which (scene st)) (sa_bone_name (scene st)))
      (seq (sa_start_index (scene st)) (sa_joints (scene st))).

(** A scene with two joints of arm A, both armatures with the bone, a
    trajectory of two samples for that arm, and the slider in the middle. *)
Definition two_joint_state : State :=
  mkState (Some (mkTraj [0; 2 # 1] [[0; 0]; [1; 3 # 1]])) None None None
    (mkScene "fer_link" "Bone" 0 2 ".001" ".002" "/a" "/b" "traj.txt"
             AUTO SECONDS false false (1 # 2) 0 "tcp.txt" (5 # 1000) 5 true
             "trajectoryBlue")
    {[ "fer_link1.001" := Armature {[ "Bone" := 0 ]};
       "fer_link2.001" := Armature {[ "Bone" := 0 ]} ]}
    ∅.

(** The order of a sort by a string key ([sorted(l, key=...)]), and the
    order in which its result stands. *)
Definition key_lt {A} (key : A -> string) (a b : A) : bool :=
  String.ltb (key a) (key b).

Definition key_le {A} (key : A -> string) (a b : A) : Prop :=
  String.leb (key a) (key b) = true.

(* ===================================================================== *)
(** * The parser and the sampler in binary64 arithmetic *)

(** Python's [float] is the IEEE 754 double.  The definitions above compute
    with exact rationals; here the parser and the sampler are written once
    more over the doubles of the kernel ([PrimFloat]: round to nearest even,
    signed zeros, infinities, nan), operation by operation as in the
    source.  Comparisons with nan are false, as in Python. *)
Module B64.

Local Open Scope float_scope.

Abbreviation Pose := (list float).

(** [{'t': [...], 'q': [[7], ...]}] *)
Record Trajectory := mkTraj { traj_t : list float; traj_q : list Pose }.

Definition eps12 : float := 0x1.19799812dea11p-40.   (* 1e-12 *)
Definition milli : float := 0x1.0624dd2f1a9fcp-10.   (* 0.001 *)

(** [x / y] on floats; [None] is [ZeroDivisionError]. *)
Definition py_div (x y : float) : option float :=
  if y =? 0 then None else Some (x / y).

(** [bisect.bisect_left(a, x)], as above. *)
Fixpoint bisect_loop (fuel : nat) (a : list float) (x : float) (lo hi : nat) : option nat :=
  if (lo <? hi)%nat then
    match fuel with
    | O => None
    | S fuel' =>
        let mid := ((lo + hi) / 2)%nat in
        match a !! mid with
        | Some am => if am <? x then bisect_loop fuel' a x (S mid) hi
                     else bisect_loop fuel' a x lo mid
        | None => None
        end
    end
  else Some lo.

Definition bisect_left (a : list float) (x : float) : option nat :=
  bisect_loop (length a) a x 0 (length a).

(** [sample_q(traj, t)]; [None] is an exception ([IndexError],
    [ZeroDivisionError]). *)
Definition sample_q (traj : Trajectory) (t : float) : option Pose :=
  let ts := traj_t traj in
  let qs := traj_q traj in
  ts0 ← py_index ts 0;
  if t <=? ts0 then py_index qs 0 else
  tsl ← py_index ts (-1);
  if tsl <=? t then py_index qs (-1) else
  i ← bisect_left ts t;
  let i := Z.of_nat i in
  t0 ← py_index ts (i - 1);
  t1 ← py_index ts i;
  q0 ← py_index qs (i - 1);
  q1 ← py_index qs i;
  if t1 <=? t0 + eps12 then Some q1 else
  r ← py_div (t - t0) (t1 - t0);
  Some (map (fun ab => (1 - r) * fst ab + r * snd ab) (zip q0 q1)).

(** [math.radians(v)], which multiplies by the constant [pi / 180]. *)
Definition math_pi : float := 0x1.921fb54442d18p+1.
Definition radians (v : float) : float := v * (math_pi / 180).

(** The sort-and-dedup tail of [parse_single_arm]. *)
Definition dedup_step (acc : list float * list Pose) (p : float * Pose)
  : list float * list Pose :=
  let '(times, joints) := acc in
  let '(t, q) := p in
  match last times with
  | Some tl =>
      if abs (t - tl) <? eps12
      then (set_last times t, set_last joints q)
      else (times ++ [t], joints ++ [q])
  | None => (times ++ [t], joints ++ [q])
  end.

(** [sorted(zip(times, joints), key=lambda x: x[0])] is a stable sort by
    [<] on the times.  When no time is nan, [<] orders the keys totally and
    every stable sort returns the list computed here.  With a nan among the
    keys the result of Python's sort depends on the comparisons its
    algorithm happens to make; that case is left to the hypotheses of the
    theorems on the order of the result. *)
Definition sort_dedup (times : list float) (joints : list Pose) : Trajectory :=
  let pairs := sorted (fun a b => fst a <? fst b) (zip times joints) in
  let '(times, joints) := fold_left dedup_step pairs ([], []) in
  mkTraj times joints.

Section Parsers.

(** Python's [float] on one token: the value, or [None] for [ValueError]. *)
Variable float_of : string -> option float.

(** [[float(x) for x in parts]] *)
Definition floats (parts : list string) : option (list float) := mapM float_of parts.

(** The reading loop of [parse_single_arm], from the remaining lines and
    the loop's variables. *)
Fixpoint read_rows (delim_mode : Delim) (time_unit : TimeUnit)
    (has_header degrees : bool) (lines : list string)
    (header_skipped : bool) (times : list float) (joints : list Pose)
  : result (list float * list Pose) :=
  match lines with
  | [] => Ok (times, joints)
  | line :: rest =>
      let s := strip line in
      if skipped s then
        read_rows delim_mode time_unit has_header degrees rest header_skipped times joints
      else
        let parts := split_fields delim_mode s in
        if has_header && negb header_skipped then
          read_rows delim_mode time_unit has_header degrees rest true times joints
        else
          match floats parts with
          | None => Raise ("Non-numeric data in line: " +:+ line)
          | Some vals =>
              if (length vals <? 15)%nat then
                Raise ("Expected 15 numbers (t + 7 pos + 7 vel). Got "
                       +:+ str_N (N.of_nat (length vals)))
              else
                let t := nth 0 vals 0 *
                         (match time_unit with
                          | MILLISECONDS => milli
                          | SECONDS => 1
                          end) in
                let qpos := take 7 (drop 1 vals) in
                let qpos := if degrees then map radians qpos else qpos in
                read_rows delim_mode time_unit has_header degrees rest
                          header_skipped (times ++ [t]) (joints ++ [qpos])
          end
  end.

(** [parse_single_arm(filepath, delim_mode, time_unit, has_header, degrees)] *)
Definition parse_single_arm (fs : FileSystem) (filepath : string)
    (delim_mode : Delim) (time_unit : TimeUnit) (has_header degrees : bool)
  : result Trajectory :=
  match fs !! filepath with
  | None => Raise ("File not found: " +:+ filepath)
  | Some contents =>
      match read_rows delim_mode time_unit has_header degrees
                      (file_lines contents) false [] [] with
      | Raise msg => Raise msg
      | Ok (times, joints) =>
          match times with
          | [] => Raise "No valid data rows found."
          | _ => Ok (sort_dedup times joints)
          end
      end
  end.

End Parsers.

(** ** Reading a token *)

(** The double nearest to [n / d], ties to even, with the sign [neg];
    it overflows to an infinity and underflows to a zero. *)
Definition round_ratio (neg : bool) (n d : positive) : float :=
  SF2Prim (let '(mz, ez, lz) := SFdiv_core_binary prec emax (Z.pos n) 0 (Z.pos d) 0 in
           binary_round_aux prec emax neg mz ez lz).

(** [float(s)]: the decimal literals that [py_float] above reads, rounded
    to the nearest double, and the spellings of the infinities and of
    not-a-number.  Digit-group underscores are outside this model. *)
Definition py_float (s : string) : option float :=
  let '(neg, body) := split_sign (strip s) in
  let w := lower body in
  if String.eqb w "inf" || String.eqb w "infinity"
  then Some (if neg : bool then neg_infinity else infinity)
  else if String.eqb w "nan" then Some nan
  else
    match py_float s with
    | Some q =>
        Some (match Qnum q with
              | Z.pos n => round_ratio false n (Qden q)
              | Z.neg n => round_ratio true n (Qden q)
              | Z0 => if neg : bool then neg_zero else zero
              end)
    | None => None
    end.

(** ** Notions used in the statements *)

(** Strictly increasing times. *)
Fixpoint increasing (l : list float) : bool :=
  match l with
  | x :: l' => match l' with
               | y :: _ => (x <? y) && increasing l'
               | [] => true
               end
  | [] => true
  end.

(** The test of the collapse: [abs(t - prev) < 1e-12]. *)
Definition near (t prev : float) : bool := abs (t - prev) <? eps12.

(** Numerical equality of poses, Python's [==] on lists of floats. *)
Definition pose_eq (p p' : Pose) : Prop := Forall2 (fun x y => (x =? y) = true) p p'.

(** One pose per time, and all poses of one length. *)
Definition well_formed (n : nat) (T : Trajectory) : Prop :=
  length (traj_q T) = length (traj_t T) /\ Forall (fun q => length q = n) (traj_q T).

Definition blend (r : float) (q0 q1 : Pose) : Pose :=
  map (fun ab => (1 - r) * fst ab + r * snd ab) (zip q0 q1).

(** The collapse of a time-sorted list of rows: a row followed by a near
    one gives way to it; [prev] is the row that currently stands. *)
Fixpoint collapse_from (prev : float * Pose) (l : list (float * Pose))
  : list (float * Pose) :=
  match l with
  | [] => [prev]
  | p :: l' =>
      if near (fst p) (fst prev) then collapse_from p l'
      else prev :: collapse_from p l'
  end.

Definition collapse (l : list (float * Pose)) : list (float * Pose) :=
  match l with
  | [] => []
  | p :: l' => collapse_from p l'
  end.

(** The order in which [parse_single_arm] sorts its rows. *)
Definition time_lt (a b : float * Pose) : bool := fst a <? fst b.

(** The rows of a file whose time equals [t], in file order. *)
Definition rows_at (t : float) (rows : list (float * Pose)) : list (float * Pose) :=
  List.filter (fun p => fst p =? t) rows.

(** The numbers of a data line ([[]] when a token is not a number), and
    the row the source makes of them. *)
Definition line_values (float_of : string -> option float) (delim_mode : Delim)
    (line : string) : list float :=
  default [] (floats float_of (split_fields delim_mode (strip line))).

Definition row_of (float_of : string -> option float) (delim_mode : Delim)
    (time_unit : TimeUnit) (degrees : bool) (line : string) : float * Pose :=
  let vals := line_values float_of delim_mode line in
  (nth 0 vals 0 * (match time_unit with MILLISECONDS => milli | SECONDS => 1 end),
   let qpos := take 7 (drop 1 vals) in
   if degrees then map radians qpos else qpos).

(** The reading loop on the data lines alone. *)
Fixpoint read_data (float_of : string -> option float) (delim_mode : Delim)
    (time_unit : TimeUnit) (degrees : bool) (dl : list string)
    (times : list float) (joints : list Pose) : result (list float * list Pose) :=
  match dl with
  | [] => Ok (times, joints)
  | line :: rest =>
      match floats float_of (split_fields delim_mode (strip line)) with
      | None => Raise ("Non-numeric data in line: " +:+ line)
      | Some vals =>
          if (length vals <? 15)%nat then
            Raise ("Expected 15 numbers (t + 7 pos + 7 vel). Got "
                   +:+ str_N (N.of_nat (length vals)))
          else
            let t := nth 0 vals 0 *
                     (match time_unit with MILLISECONDS => milli | SECONDS => 1 end) in
            let qpos := take 7 (drop 1 vals) in
            let qpos := if degrees then map radians qpos else qpos in
            read_data float_of delim_mode time_unit degrees rest
                      (times ++ [t]) (joints ++ [qpos])
      end
  end.

(** A file with two rows whose times are beyond the range of the doubles. *)
Definition overflow_file : string :=
  "1e400 1 1 1 1 1 1 1 0 0 0 0 0 0 0
1e400 2 2 2 2 2 2 2 0 0 0 0 0 0 0
".

End B64.

(* --------------------------------------------------------------------- *)
(** ** The order and the classes of the doubles *)

(** The place of a number in the order of the doubles: sign class, then
    exponent, then mantissa. *)
Definition SFkey (x : spec_float) : Z * Z * Z :=
  match x with
  | S754_nan => (0, 0, 0)
  | S754_zero _ => (0, 0, 0)
  | S754_infinity s => (if s then -2 else 2, 0, 0)
  | S754_finite s m e => if s then (-1, - e, - Z.pos m) else (1, e, Z.pos m)
  end%Z.

Definition SFis_nan (x : spec_float) : bool :=
  match x with S754_nan => true | _ => false end.

Definition lex_ltb (a b : Z * Z * Z) : bool :=
  let '(a1, a2, a3) := a in
  let '(b1, b2, b3) := b in
  ((a1 <? b1) || ((a1 =? b1) && ((a2 <? b2) || ((a2 =? b2) && (a3 <? b3)))))%Z.

Definition lex_eqb (a b : Z * Z * Z) : bool :=
  let '(a1, a2, a3) := a in
  let '(b1, b2, b3) := b in
  ((a1 =? b1) && (a2 =? b2) && (a3 =? b3))%Z.

Definition fkey (x : float) : Z * Z * Z := SFkey (Prim2SF x).

(** Finite numbers (zeros included), and zeros, on the specification side. *)
Definition SFis_finite (x : spec_float) : bool :=
  match x with S754_zero _ | S754_finite _ _ _ => true | _ => false end.

Definition SFis_zero (x : spec_float) : bool :=
  match x with S754_zero _ => true | _ => false end.

(** Rows with a finite time; rows in the order of their times. *)
Abbreviation finite_time := (fun e : float * B64.Pose => is_finite (fst e) = true).
Abbreviation time_sorted_b64 :=
  (StronglySorted (fun a b : float * B64.Pose => (fst a <=? fst b)%float = true)).

(* ===================================================================== *)
(** * Numbers and sequences: basic facts *)

Lemma Qleb_le x y : Qleb x y = true <-> x <= y.
Proof. apply Qle_bool_iff. Qed.

Lemma Qleb_gt x y : Qleb x y = false <-> y < x.
Proof.
  unfold Qleb. split; intros H.
  - apply Qnot_le_lt. intros Hle. apply Qle_bool_iff in Hle. congruence.
  - destruct (Qle_bool x y) eqn:E; [|done].
    apply Qle_bool_iff in E. exfalso. revert H. by apply Qle_not_lt.
Qed.

Lemma Qltb_lt x y : Qltb x y = true <-> x < y.
Proof.
  unfold Qltb. rewrite negb_true_iff. apply (Qleb_gt y x).
Qed.

Lemma Qltb_ge x y : Qltb x y = false <-> y <= x.
Proof.
  unfold Qltb. rewrite negb_false_iff. apply Qle_bool_iff.
Qed.

Lemma py_index_0 {A} (l : list A) : py_index l 0 = head l.
Proof.
  unfold py_index. destruct l as [|x l]; simpl; [done|].
  destruct (0 <? Z.pos (Pos.of_succ_nat (length l)))%Z eqn:E; [done|].
  apply Z.ltb_ge in E. lia.
Qed.

Lemma py_index_last {A} (l : list A) : py_index l (-1) = last l.
Proof.
  unfold py_index. simpl (0 <=? -1)%Z. cbv iota.
  destruct l as [|x l] using rev_ind; [done|].
  rewrite last_snoc, length_app. simpl.
  destruct (- Z.of_nat (length l + 1) <=? -1)%Z eqn:E.
  - replace (Z.to_nat (Z.of_nat (length l + 1) + -1)) with (length l) by lia.
    by rewrite lookup_app_r, Nat.sub_diag.
  - apply Z.leb_gt in E. lia.
Qed.

Lemma py_index_nat {A} (l : list A) (i : nat) : py_index l (Z.of_nat i) = l !! i.
Proof.
  unfold py_index.
  destruct (0 <=? Z.of_nat i)%Z eqn:E; [|apply Z.leb_gt in E; lia].
  rewrite Nat2Z.id.
  destruct (Z.of_nat i <? Z.of_nat (length l))%Z eqn:E'; [done|].
  apply Z.ltb_ge in E'. symmetry. apply lookup_ge_None. lia.
Qed.

Lemma py_index_pred {A} (l : list A) (i : nat) :
  py_index l (Z.of_nat (S i) - 1) = l !! i.
Proof.
  replace (Z.of_nat (S i) - 1)%Z with (Z.of_nat i) by lia. apply py_index_nat.
Qed.

Lemma head_lookup_0 {A} (l : list A) : head l = l !! 0%nat.
Proof. by destruct l. Qed.

Lemma last_lookup_pred {A} (l : list A) : last l = l !! pred (length l).
Proof. apply last_lookup. Qed.

Lemma increasing_cons x l :
  increasing (x :: l) = true ->
  increasing l = true /\ forall y, head l = Some y -> x < y.
Proof.
  simpl. destruct l as [|y l]; [done|].
  intros [H1 H2]%andb_true_iff. split; [done|].
  intros ? [= <-]. by apply Qltb_lt.
Qed.

Lemma increasing_lookup l :
  increasing l = true ->
  forall i j x y, (i < j)%nat -> l !! i = Some x -> l !! j = Some y -> x < y.
Proof.
  induction l as [|a l IH]; intros Hl i j x y Hij Hi Hj; [done|].
  apply increasing_cons in Hl as [Hl Hhd].
  destruct j as [|j]; [lia|]. simpl in Hj.
  assert (Ha : forall k z, l !! k = Some z -> a < z).
  { intros k. induction k as [|k IHk]; intros z Hz.
    - apply Hhd. by rewrite head_lookup_0.
    - destruct (l !! k) as [w|] eqn:Hw.
      + eapply Qlt_trans; [by apply IHk|]. eapply (IH Hl k (S k)); [lia|done..].
      + apply lookup_ge_None in Hw. apply lookup_lt_Some in Hz. lia. }
  destruct i as [|i]; simpl in Hi.
  - injection Hi as <-. by eapply Ha.
  - eapply (IH Hl i j); [lia|done..].
Qed.

Lemma nondecreasing_lookup l :
  nondecreasing l = true ->
  forall i j x y, (i <= j)%nat -> l !! i = Some x -> l !! j = Some y -> x <= y.
Proof.
  induction l as [|a l IH]; intros Hl i j x y Hij Hi Hj; [done|].
  assert (Hl' : nondecreasing l = true /\ forall z, head l = Some z -> a <= z).
  { simpl in Hl. destruct l as [|z l]; [done|].
    apply andb_true_iff in Hl as [H1 H2]. split; [done|].
    intros ? [= <-]. by apply Qleb_le. }
  destruct Hl' as [Hl' Hhd].
  assert (Ha : forall k z, l !! k = Some z -> a <= z).
  { intros k. induction k as [|k IHk]; intros z Hz.
    - apply Hhd. by rewrite head_lookup_0.
    - destruct (l !! k) as [w|] eqn:Hw.
      + eapply Qle_trans; [by apply IHk|]. eapply (IH Hl' k (S k)); [lia|done..].
      + apply lookup_ge_None in Hw. apply lookup_lt_Some in Hz. lia. }
  destruct i as [|i], j as [|j]; simpl in *; try lia.
  - assert (x = y) as -> by congruence. apply Qle_refl.
  - injection Hi as <-. by eapply Ha.
  - eapply (IH Hl' i j); [lia|done..].
Qed.

Lemma increasing_nondecreasing l : increasing l = true -> nondecreasing l = true.
Proof.
  induction l as [|a l IH]; [done|]. simpl.
  destruct l as [|b l]; [done|].
  intros [H1 H2]%andb_true_iff. apply andb_true_iff. split; [|by apply IH].
  apply Qleb_le, Qlt_le_weak. by apply Qltb_lt.
Qed.

(* ===================================================================== *)
(** * Binary search *)

Section Bisect.

Variable a : list Q.
Variable x : Q.
Hypothesis a_sorted : nondecreasing a = true.

Lemma bisect_loop_S fuel lo hi :
  bisect_loop (S fuel) a x lo hi =
  if (lo <? hi)%nat then
    match a !! ((lo + hi) / 2)%nat with
    | Some am => if Qltb am x then bisect_loop fuel a x (S ((lo + hi) / 2)) hi
                 else bisect_loop fuel a x lo ((lo + hi) / 2)
    | None => None
    end
  else Some lo.
Proof. reflexivity. Qed.

(** The loop ends, within the iterations granted by any fuel that covers
    the interval, on the position that separates the values below [x] from
    the others. *)
Lemma bisect_loop_spec fuel : forall lo hi,
  (lo <= hi <= length a)%nat -> (hi - lo <= fuel)%nat ->
  (forall j y, (j < lo)%nat -> a !! j = Some y -> y < x) ->
  (forall j y, (hi <= j)%nat -> a !! j = Some y -> x <= y) ->
  exists i, bisect_loop fuel a x lo hi = Some i /\ (lo <= i <= hi)%nat /\
    (forall j y, (j < i)%nat -> a !! j = Some y -> y < x) /\
    (forall j y, (i <= j)%nat -> a !! j = Some y -> x <= y).
Proof.
  induction fuel as [|fuel IH]; intros lo hi Hb Hf Hlo Hhi.
  - exists lo. simpl. assert (lo = hi) as -> by lia.
    rewrite Nat.ltb_irrefl. split; [done|]. split; [lia|]. split; done.
  - rewrite bisect_loop_S. destruct (lo <? hi)%nat eqn:E.
    2:{ apply Nat.ltb_ge in E. assert (lo = hi) as -> by lia. exists hi.
        split; [done|]. split; [lia|]. split; done. }
    apply Nat.ltb_lt in E.
    set (mid := ((lo + hi) / 2)%nat).
    assert (Hmid : (lo <= mid < hi)%nat).
    { unfold mid. split.
      - apply Nat.div_le_lower_bound; lia.
      - apply Nat.Div0.div_lt_upper_bound; lia. }
    destruct (a !! mid) as [am|] eqn:Ham.
    2:{ apply lookup_ge_None in Ham. lia. }
    destruct (Qltb am x) eqn:Ecmp.
    + apply Qltb_lt in Ecmp.
      destruct (IH (S mid) hi) as (i & Hi & Hr & H1 & H2); [lia|lia| |done|].
      * intros j y Hj Hy.
        eapply Qle_lt_trans; [|exact Ecmp].
        eapply (nondecreasing_lookup a a_sorted j mid); [lia|done..].
      * exists i. split; [done|]. split; [lia|]. split; done.
    + apply Qltb_ge in Ecmp.
      destruct (IH lo mid) as (i & Hi & Hr & H1 & H2); [lia|lia|done| |].
      * intros j y Hj Hy.
        eapply Qle_trans; [exact Ecmp|].
        eapply (nondecreasing_lookup a a_sorted mid j); [lia|done..].
      * exists i. split; [done|]. split; [lia|]. split; done.
Qed.

Lemma bisect_left_spec :
  exists i, bisect_left a x = Some i /\ (i <= length a)%nat /\
    (forall j y, (j < i)%nat -> a !! j = Some y -> y < x) /\
    (forall j y, (i <= j)%nat -> a !! j = Some y -> x <= y).
Proof.
  destruct (bisect_loop_spec (length a) 0 (length a)) as (i & Hi & Hr & H1 & H2).
  - lia.
  - lia.
  - intros; lia.
  - intros j y Hj Hy. apply lookup_lt_Some in Hy. lia.
  - exists i. split; [done|]. split; [lia|]. split; done.
Qed.

(** Between two neighbours the search finds the upper one. *)
Lemma bisect_left_between i t0 t1 :
  a !! i = Some t0 -> a !! S i = Some t1 -> t0 < x -> x <= t1 ->
  bisect_left a x = Some (S i).
Proof.
  intros H0 H1 Hlt Hle.
  destruct bisect_left_spec as (k & Hk & _ & Hbelow & Habove).
  rewrite Hk. f_equal.
  destruct (decide (k <= i)%nat) as [Hki|Hki].
  { pose proof (Habove i t0 Hki H0) as Hc. exfalso. revert Hlt. by apply Qle_not_lt. }
  destruct (decide (S i < k)%nat) as [Hik|Hik]; [|lia].
  pose proof (Hbelow (S i) t1 Hik H1) as Hc. exfalso. revert Hc. by apply Qle_not_lt.
Qed.

End Bisect.

(* ===================================================================== *)
(** * The sampler *)

Lemma sample_q_left T q t0 :
  head (traj_t T) = Some t0 -> q <= t0 -> sample_q T q = head (traj_q T).
Proof.
  intros H0 Hq. unfold sample_q. rewrite !py_index_0, H0. simpl.
  apply Qleb_le in Hq. by rewrite Hq.
Qed.

Lemma sample_q_right T q t0 tl :
  head (traj_t T) = Some t0 -> last (traj_t T) = Some tl ->
  t0 < q -> tl <= q -> sample_q T q = last (traj_q T).
Proof.
  intros H0 Hl Hlt Hq. unfold sample_q.
  rewrite !py_index_0, !py_index_last, H0, Hl. simpl.
  apply Qleb_gt in Hlt. rewrite Hlt.
  apply Qleb_le in Hq. by rewrite Hq.
Qed.

Lemma sample_q_interior T q i t0 t1 tl q0 q1 :
  nondecreasing (traj_t T) = true ->
  traj_t T !! i = Some t0 -> traj_t T !! S i = Some t1 ->
  last (traj_t T) = Some tl ->
  traj_q T !! i = Some q0 -> traj_q T !! S i = Some q1 ->
  t0 < q -> q <= t1 -> q < tl ->
  sample_q T q =
  Some (if Qleb t1 (t0 + eps12) then q1 else blend ((q - t0) / (t1 - t0)) q0 q1).
Proof.
  intros Hs H0 H1 Hl Hq0 Hq1 Hlt Hle Hltl.
  destruct (traj_t T !! 0%nat) as [h|] eqn:Hh.
  2:{ apply lookup_ge_None in Hh. apply lookup_lt_Some in H0. lia. }
  assert (Hhq : h < q).
  { eapply Qle_lt_trans; [|exact Hlt].
    eapply (nondecreasing_lookup _ Hs 0 i); [lia|done..]. }
  rewrite <- head_lookup_0 in Hh.
  unfold sample_q.
  rewrite !py_index_0, !py_index_last, Hh, Hl. simpl.
  apply Qleb_gt in Hhq. rewrite Hhq.
  apply Qleb_gt in Hltl. rewrite Hltl.
  rewrite (bisect_left_between _ _ Hs i t0 t1 H0 H1 Hlt Hle). simpl.
  rewrite !py_index_pred, !py_index_nat, H0, H1, Hq0, Hq1. simpl.
  by destruct (Qleb t1 (t0 + eps12)).
Qed.

Lemma zip_lookup {A B} (a : list A) (b : list B) k x y :
  a !! k = Some x -> b !! k = Some y -> zip a b !! k = Some (x, y).
Proof.
  revert b k. induction a as [|a0 a IH]; intros [|b0 b] [|k] Ha Hb; try done.
  - simpl in *. congruence.
  - simpl in *. by apply IH.
Qed.

Lemma lookup_map {A B} (f : A -> B) (l : list A) k x :
  l !! k = Some x -> map f l !! k = Some (f x).
Proof.
  revert k. induction l as [|a l IH]; intros [|k] H; try done.
  - simpl in *. congruence.
  - simpl in *. by apply IH.
Qed.

Lemma blend_lookup r q0 q1 k x y :
  q0 !! k = Some x -> q1 !! k = Some y ->
  blend r q0 q1 !! k = Some ((1 - r) * x + r * y).
Proof.
  intros H0 H1. unfold blend.
  erewrite lookup_map; [|by apply zip_lookup]. done.
Qed.

Lemma blend_between r x y :
  0 <= r -> r <= 1 ->
  Qmin x y <= (1 - r) * x + r * y /\ (1 - r) * x + r * y <= Qmax x y.
Proof.
  intros Hr0 Hr1.
  destruct (Qlt_le_dec x y) as [Hxy|Hxy].
  - rewrite (Q.min_l x y), (Q.max_r x y) by (by apply Qlt_le_weak). split; nra.
  - rewrite (Q.min_r x y), (Q.max_l x y) by done. split; nra.
Qed.

Lemma ratio_bounds t0 t1 q :
  t0 < q -> q < t1 -> 0 <= (q - t0) / (t1 - t0) /\ (q - t0) / (t1 - t0) <= 1.
Proof.
  intros H0 H1.
  assert (Hd : 0 < t1 - t0) by lra.
  split.
  - apply Qle_shift_div_l; [done|]. lra.
  - apply Qle_shift_div_r; [done|]. lra.
Qed.

Lemma blend_at_one q0 q1 r :
  r == 1 -> length q0 = length q1 -> pose_eq (blend r q0 q1) q1.
Proof.
  intros Hr. revert q1. induction q0 as [|a q0 IH]; intros [|b q1] Hlen; try done.
  - constructor.
  - unfold blend. simpl. constructor.
    + rewrite Hr. ring.
    + apply IH. simpl in Hlen. lia.
Qed.

(** C2 (as amended).  Let T have at least one sample.  A query at or before
    the first time returns the first pose unchanged.  A query at or after
    the last time returns the last pose unchanged provided it lies after the
    first time, and also, without that proviso, when the times increase
    strictly and there is one pose per time.  (The left clamp is tested
    first: with equal first and last times it is the first pose that is
    returned.) *)
Theorem sample_q_clamp (T : Trajectory) (q t0 tl : Q) :
  head (traj_t T) = Some t0 -> last (traj_t T) = Some tl ->
  (q <= t0 -> sample_q T q = head (traj_q T)) /\
  (tl <= q -> t0 < q -> sample_q T q = last (traj_q T)) /\
  (tl <= q -> increasing (traj_t T) = true ->
   length (traj_q T) = length (traj_t T) ->
   sample_q T q = last (traj_q T)).
Proof.
  intros H0 Hl. split; [|split].
  - by apply sample_q_left.
  - intros. by eapply sample_q_right.
  - intros Hq Hinc Hlen.
    destruct (Qlt_le_dec t0 q) as [Hlt|Hle]; [by eapply sample_q_right|].
    rewrite (sample_q_left T q t0 H0 Hle).
    (* first and last time coincide: there is one sample only *)
    destruct (decide (length (traj_t T) <= 1)%nat) as [Hn|Hn].
    + destruct (traj_q T) as [|p [|p' qs]]; simpl in *; [done|done|lia].
    + exfalso.
      rewrite head_lookup_0 in H0. rewrite last_lookup_pred in Hl.
      assert (Hc : t0 < tl).
      { eapply (increasing_lookup _ Hinc 0 (pred (length (traj_t T)))); [lia|done..]. }
      lra.
Qed.

Lemma sample_q_clamp_witness :
  let T := mkTraj [0; 1; 2] [[10]; [20]; [30]] in
  sample_q T (-1) = Some [10] /\ sample_q T 2 = Some [30] /\ sample_q T 5 = Some [30].
Proof.
  intros T.
  destruct (sample_q_clamp T (-1) 0 2 eq_refl eq_refl) as (H1 & _ & _).
  destruct (sample_q_clamp T 2 0 2 eq_refl eq_refl) as (_ & _ & H2).
  destruct (sample_q_clamp T 5 0 2 eq_refl eq_refl) as (_ & H3 & _).
  split; [|split].
  - apply H1. by vm_compute.
  - apply H2; [by vm_compute|reflexivity|reflexivity].
  - apply H3; by vm_compute.
Defined.

(** C2, counterexample.  The times [1, 1] are sorted and not empty; the
    query 1 is at or after the last time, yet the pose returned is the
    first one, not the last one. *)
Lemma sample_q_clamp_sorted_counterexample :
  let T := mkTraj [1; 1] [[0]; [7]] in
  nondecreasing (traj_t T) = true /\
  last (traj_t T) = Some 1 /\ 1 <= 1 /\
  last (traj_q T) = Some [7] /\
  sample_q T 1 = Some [0] /\
  sample_q T 1 <> last (traj_q T).
Proof.
  simpl. repeat split; try reflexivity; try discriminate.
Qed.

(* ===================================================================== *)
(** * The scrub time *)

Lemma py_min_pair a b : py_min a [b] == Qmin a b.
Proof.
  simpl. destruct (Qltb b a) eqn:E.
  - apply Qltb_lt in E. rewrite Q.min_r; [reflexivity|]. by apply Qlt_le_weak.
  - apply Qltb_ge in E. by rewrite Q.min_l.
Qed.

Lemma py_max_pair a b : py_max a [b] == Qmax a b.
Proof.
  simpl. destruct (Qltb a b) eqn:E.
  - apply Qltb_lt in E. rewrite Q.max_r; [reflexivity|]. by apply Qlt_le_weak.
  - apply Qltb_ge in E. by rewrite Q.max_l.
Qed.

Lemma duration_max d : (if Qltb d eps9 then eps9 else d) == Qmax d eps9.
Proof.
  destruct (Qltb d eps9) eqn:E.
  - apply Qltb_lt in E. rewrite Q.max_r; [reflexivity|]. by apply Qlt_le_weak.
  - apply Qltb_ge in E. by rewrite Q.max_l.
Qed.

(** The range and the scrub time in terms of the ends of the loaded
    trajectories. *)
Lemma scrub_time_of_range TA TB f tmin tmax :
  _global_time_range TA TB = Some (tmin, tmax) ->
  exists t, scrub_time TA TB f = Some t /\
            t == tmin + f * Qmax (tmax - tmin) eps9.
Proof.
  intros Hr. unfold scrub_time. rewrite Hr. simpl.
  eexists. split; [done|]. by rewrite duration_max.
Qed.

(** C4 (as amended).  The absolute scrub time is
    [t_min + fraction * max(t_max - t_min, 1e-9)], where [t_min, t_max] is the
    fallback [0, 1] when nothing is loaded, the first and last time of the
    one loaded trajectory, or the smaller of the two first times and the
    larger of the two last times; it equals
    [t_min + fraction * (t_max - t_min)] whenever the range is at least 1e-9
    long.  Two trajectories over [0,1] and [2,3] give the range [0,3] and,
    at fraction 0.5, the time 1.5, where the first is clamped to its last
    pose and the second to its first pose. *)
Theorem scrub_time_union_range (f : Q) :
  (exists t, _global_time_range None None = Some (0, 1) /\
             scrub_time None None f = Some t /\ t == 0 + f * (1 - 0)) /\
  (forall (A : Trajectory) (a0 a1 : Q),
     head (traj_t A) = Some a0 -> last (traj_t A) = Some a1 ->
     _global_time_range (Some A) None = Some (a0, a1) /\
     _global_time_range None (Some A) = Some (a0, a1) /\
     exists t, scrub_time (Some A) None f = Some t /\
               scrub_time None (Some A) f = Some t /\
               t == a0 + f * Qmax (a1 - a0) eps9 /\
               (eps9 <= a1 - a0 -> t == a0 + f * (a1 - a0))) /\
  (forall (A B : Trajectory) (a0 a1 b0 b1 : Q),
     head (traj_t A) = Some a0 -> last (traj_t A) = Some a1 ->
     head (traj_t B) = Some b0 -> last (traj_t B) = Some b1 ->
     exists tmin tmax t,
       _global_time_range (Some A) (Some B) = Some (tmin, tmax) /\
       tmin == Qmin a0 b0 /\ tmax == Qmax a1 b1 /\
       scrub_time (Some A) (Some B) f = Some t /\
       t == tmin + f * Qmax (tmax - tmin) eps9 /\
       (eps9 <= tmax - tmin -> t == tmin + f * (tmax - tmin))) /\
  (forall (A B : Trajectory),
     head (traj_t A) = Some 0 -> last (traj_t A) = Some 1 ->
     head (traj_t B) = Some (2 # 1) -> last (traj_t B) = Some (3 # 1) ->
     _global_time_range (Some A) (Some B) = Some (0, 3 # 1) /\
     exists t, scrub_time (Some A) (Some B) (1 # 2) = Some t /\ t == 15 # 10 /\
               sample_q A t = last (traj_q A) /\
               sample_q B t = head (traj_q B)).
Proof.
  split; [|split; [|split]].
  - eexists. split; [done|]. split; [done|]. reflexivity.
  - intros A a0 a1 H0 H1.
    assert (Ha : _global_time_range (Some A) None = Some (a0, a1)).
    { unfold _global_time_range, append_ends.
      by rewrite py_index_0, py_index_last, H0, H1. }
    assert (Hb : _global_time_range None (Some A) = Some (a0, a1)).
    { unfold _global_time_range, append_ends.
      by rewrite py_index_0, py_index_last, H0, H1. }
    split; [done|]. split; [done|].
    unfold scrub_time. rewrite Ha, Hb. simpl.
    eexists. split; [done|]. split; [done|].
    rewrite duration_max. split; [reflexivity|].
    intros Hd. by rewrite Q.max_l.
  - intros A B a0 a1 b0 b1 HA0 HA1 HB0 HB1.
    assert (Hr : _global_time_range (Some A) (Some B)
                 = Some (py_min a0 [b0], py_max a1 [b1])).
    { unfold _global_time_range, append_ends.
      by rewrite !py_index_0, !py_index_last, HA0, HA1, HB0, HB1. }
    destruct (scrub_time_of_range _ _ f _ _ Hr) as (t & Ht & Heq).
    exists (py_min a0 [b0]), (py_max a1 [b1]), t.
    split; [done|]. split; [apply py_min_pair|]. split; [apply py_max_pair|].
    split; [done|]. split; [done|].
    intros Hd. rewrite Heq. by rewrite Q.max_l.
  - intros A B HA0 HA1 HB0 HB1.
    assert (Hr : _global_time_range (Some A) (Some B) = Some (0, 3 # 1)).
    { unfold _global_time_range, append_ends.
      by rewrite !py_index_0, !py_index_last, HA0, HA1, HB0, HB1. }
    split; [done|].
    unfold scrub_time. rewrite Hr. simpl.
    eexists. split; [done|]. split; [reflexivity|]. split.
    + eapply sample_q_right; [done|done|reflexivity|]. by vm_compute.
    + eapply sample_q_left; [done|]. by vm_compute.
Qed.

Lemma scrub_time_union_range_witness :
  let A := mkTraj [0; 1] [[10]; [11]] in
  let B := mkTraj [2 # 1; 3 # 1] [[20]; [21]] in
  _global_time_range (Some A) (Some B) = Some (0, 3 # 1) /\
  exists t, scrub_time (Some A) (Some B) (1 # 2) = Some t /\ t == 15 # 10 /\
            sample_q A t = Some [11] /\ sample_q B t = Some [20].
Proof.
  intros A B.
  destruct (scrub_time_union_range (1 # 2)) as (_ & _ & _ & H).
  apply (H A B); reflexivity.
Defined.

(** C4, counterexample.  With one trajectory of a single sample at time 5
    the range is [5, 5]; at fraction 1 the scrub time is 5 + 1e-9, not
    5 + 1 * (5 - 5). *)
Lemma scrub_time_short_range_counterexample :
  let A := mkTraj [5 # 1] [replicate 7 0] in
  _global_time_range (Some A) None = Some (5 # 1, 5 # 1) /\
  scrub_time (Some A) None 1 = Some ((5 # 1) + 1 * eps9) /\
  ~ (5 # 1) + 1 * eps9 == (5 # 1) + 1 * ((5 # 1) - (5 # 1)).
Proof.
  simpl. split; [reflexivity|]. split; [reflexivity|]. by vm_compute.
Qed.

(* ===================================================================== *)
(** * Sorting and collapsing the rows *)

Lemma set_last_snoc {A} (l : list A) (x y : A) : set_last (l ++ [x]) y = l ++ [y].
Proof.
  unfold set_last. rewrite removelast_last. by destruct l.
Qed.

Lemma zip_fst_snd {A B} (l : list (A * B)) : zip (map fst l) (map snd l) = l.
Proof. induction l as [|[a b] l IH]; [done|]. simpl. by rewrite IH. Qed.

Lemma fst_zip {A B} (a : list A) (b : list B) :
  length a = length b -> map fst (zip a b) = a.
Proof.
  revert b. induction a as [|x a IH]; intros [|y b] H; try done.
  simpl. rewrite IH; [done|]. simpl in H. lia.
Qed.

Lemma dedup_step_snoc ts qs t q t' q' :
  dedup_step (ts ++ [t], qs ++ [q]) (t', q') =
  if Qltb (Qabs (t' - t)) eps12 then (ts ++ [t'], qs ++ [q'])
  else ((ts ++ [t]) ++ [t'], (qs ++ [q]) ++ [q']).
Proof. unfold dedup_step. by rewrite last_snoc, !set_last_snoc. Qed.

(** The loop of the source computes the collapse. *)
Lemma fold_dedup_step l : forall ts qs t q,
  fold_left dedup_step l (ts ++ [t], qs ++ [q]) =
  (ts ++ map fst (collapse_from (t, q) l), qs ++ map snd (collapse_from (t, q) l)).
Proof.
  induction l as [|[t' q'] l IH]; intros ts qs t q; [done|].
  cbn [fold_left collapse_from fst snd]. rewrite dedup_step_snoc.
  destruct (Qltb (Qabs (t' - t)) eps12).
  - apply IH.
  - rewrite IH. cbn [map fst snd]. by rewrite <- !app_assoc.
Qed.

Lemma sort_dedup_collapse times joints :
  let c := collapse (sorted time_lt (zip times joints)) in
  sort_dedup times joints = mkTraj (map fst c) (map snd c).
Proof.
  unfold sort_dedup. fold time_lt.
  destruct (sorted time_lt (zip times joints)) as [|[t q] l]; [done|].
  cbn [fold_left collapse]. change (dedup_step ([], []) (t, q)) with ([] ++ [t], [] ++ [q] : list Pose).
  by rewrite (fold_dedup_step l [] [] t q).
Qed.

(** The sort: sorted, stable, and a rearrangement of its input. *)
Lemma insert_sorted_elem (x y : Q * Pose) l :
  y ∈ insert_sorted time_lt x l <-> y = x \/ y ∈ l.
Proof.
  induction l as [|z l IH]; simpl.
  - rewrite elem_of_cons. set_solver.
  - destruct (time_lt z x); rewrite !elem_of_cons; [rewrite IH|]; tauto.
Qed.

Lemma sorted_elem (y : Q * Pose) l : y ∈ sorted time_lt l <-> y ∈ l.
Proof.
  induction l as [|x l IH]; [done|]. simpl.
  rewrite insert_sorted_elem, elem_of_cons, IH. tauto.
Qed.

Lemma insert_sorted_sorted x l :
  time_sorted l -> time_sorted (insert_sorted time_lt x l).
Proof.
  induction 1 as [|z l Hl IH Hz]; simpl.
  - repeat constructor.
  - destruct (time_lt z x) eqn:E; unfold time_lt in E.
    + apply Qltb_lt in E. constructor; [done|].
      apply Forall_forall. intros y [->|Hy]%insert_sorted_elem.
      * by apply Qlt_le_weak.
      * rewrite Forall_forall in Hz. by apply Hz.
    + apply Qltb_ge in E. constructor; [by constructor|].
      constructor; [done|].
      eapply Forall_impl; [exact Hz|]. intros y Hy. simpl in Hy.
      by eapply Qle_trans.
Qed.

Lemma sorted_sorted l : time_sorted (sorted time_lt l).
Proof.
  induction l as [|x l IH]; [constructor|]. by apply insert_sorted_sorted.
Qed.

Lemma insert_sorted_rows_at t x l :
  rows_at t (insert_sorted time_lt x l) = rows_at t (x :: l).
Proof.
  induction l as [|z l IH]; [done|].
  simpl. destruct (time_lt z x) eqn:E; [|done]. unfold time_lt in E.
  apply Qltb_lt in E. unfold rows_at in *. simpl in *. rewrite IH.
  destruct (Qeq_bool (fst x) t) eqn:Ex, (Qeq_bool (fst z) t) eqn:Ez; try done.
  apply Qeq_bool_iff in Ex, Ez. rewrite Ex, Ez in E.
  exfalso. by apply (Qlt_irrefl t).
Qed.

Lemma sorted_rows_at t l : rows_at t (sorted time_lt l) = rows_at t l.
Proof.
  induction l as [|x l IH]; [done|]. simpl.
  rewrite insert_sorted_rows_at. unfold rows_at in *. simpl. by rewrite IH.
Qed.

(** The collapse of time-sorted rows. *)
Lemma collapse_from_elem prev l e :
  e ∈ collapse_from prev l -> e ∈ prev :: l.
Proof.
  revert prev. induction l as [|p l IH]; intros prev; simpl.
  - done.
  - destruct (Qltb _ _).
    + intros He. apply IH in He. by right.
    + intros [->|He]%elem_of_cons; [by left|]. apply IH in He. by right.
Qed.

Lemma time_sorted_head prev l e :
  time_sorted (prev :: l) -> e ∈ prev :: l -> fst prev <= fst e.
Proof.
  intros Hs [->|He]%elem_of_cons; [apply Qle_refl|].
  apply StronglySorted_inv in Hs as [_ Hall].
  rewrite Forall_forall in Hall. by apply Hall.
Qed.

Lemma no_collapse_gap (prev p : Q * Pose) :
  fst prev <= fst p -> Qltb (Qabs (fst p - fst prev)) eps12 = false ->
  fst prev + eps12 <= fst p.
Proof.
  intros Hle Hc. apply Qltb_ge in Hc.
  rewrite Qabs_pos in Hc by lra. lra.
Qed.

Lemma increasing_cons_intro x l :
  increasing l = true -> (forall y, head l = Some y -> x < y) ->
  increasing (x :: l) = true.
Proof.
  intros Hl Hx. simpl. destruct l as [|y l]; [done|].
  apply andb_true_iff. split; [|done]. apply Qltb_lt. by apply Hx.
Qed.

Lemma eps12_pos : 0 < eps12.
Proof. reflexivity. Qed.

Lemma collapse_from_increasing l : forall prev,
  time_sorted (prev :: l) ->
  increasing (map fst (collapse_from prev l)) = true.
Proof.
  induction l as [|p l IH]; intros prev Hs; [done|].
  pose proof (StronglySorted_inv Hs) as [Hs' Hall].
  cbn [collapse_from].
  destruct (Qltb (Qabs (fst p - fst prev)) eps12) eqn:E; [by apply IH|].
  cbn [map]. apply increasing_cons_intro; [by apply IH|].
  intros y Hy.
  assert (Hgap : fst prev + eps12 <= fst p).
  { apply no_collapse_gap; [|done]. inversion Hall; done. }
  assert (Hpy : fst p <= y).
  { destruct (collapse_from p l) as [|e c] eqn:Ec; [done|].
    simpl in Hy. injection Hy as <-.
    eapply (time_sorted_head p l e Hs'), collapse_from_elem.
    rewrite Ec. by left. }
  pose proof eps12_pos. lra.
Qed.

Lemma rows_at_cons t p l :
  rows_at t (p :: l) = if Qeq_bool (fst p) t then p :: rows_at t l else rows_at t l.
Proof. reflexivity. Qed.

Lemma rows_at_none t l :
  (forall e, e ∈ l -> ~ fst e == t) -> rows_at t l = [].
Proof.
  induction l as [|p l IH]; intros H; [done|].
  unfold rows_at in *. simpl.
  destruct (Qeq_bool (fst p) t) eqn:E.
  - apply Qeq_bool_iff in E. exfalso. apply (H p); [by left|done].
  - apply IH. intros e He. apply H. by right.
Qed.

Lemma rows_at_cons_last t p l e :
  last (rows_at t l) = Some e -> last (rows_at t (p :: l)) = Some e.
Proof.
  unfold rows_at. simpl. destruct (Qeq_bool (fst p) t); [|done].
  destruct (List.filter _ l) as [|x xs]; [done|]. by rewrite last_cons_cons.
Qed.

(** A row that survives the collapse is the last row of its time. *)
Lemma collapse_from_last l : forall prev e,
  time_sorted (prev :: l) -> e ∈ collapse_from prev l ->
  last (rows_at (fst e) (prev :: l)) = Some e.
Proof.
  induction l as [|p l IH]; intros prev e Hs He.
  - apply list_elem_of_singleton in He as ->.
    unfold rows_at. simpl. by rewrite Qeq_bool_refl.
  - pose proof (StronglySorted_inv Hs) as [Hs' Hall].
    cbn [collapse_from] in He.
    destruct (Qltb (Qabs (fst p - fst prev)) eps12) eqn:E.
    + apply rows_at_cons_last. by apply IH.
    + apply elem_of_cons in He as [->|He].
      2:{ apply rows_at_cons_last. by apply IH. }
      assert (Hgap : fst prev + eps12 <= fst p).
      { apply no_collapse_gap; [|done]. inversion Hall; done. }
      rewrite rows_at_cons, Qeq_bool_refl.
      rewrite rows_at_none; [done|].
      intros e He Heq.
      pose proof (time_sorted_head p l e Hs' He). pose proof eps12_pos. lra.
Qed.

(** The last row of a time survives the collapse when no row lies within
    1e-12 above that time. *)
Lemma collapse_from_keeps l : forall prev e,
  time_sorted (prev :: l) ->
  last (rows_at (fst e) (prev :: l)) = Some e ->
  (forall r, r ∈ prev :: l -> ~ (fst e < fst r /\ fst r < fst e + eps12)) ->
  e ∈ collapse_from prev l.
Proof.
  induction l as [|p l IH]; intros prev e Hs Hlast Hgap.
  - rewrite rows_at_cons in Hlast. cbn [collapse_from].
    destruct (Qeq_bool (fst prev) (fst e)); [|done].
    injection Hlast as <-. by left.
  - pose proof (StronglySorted_inv Hs) as [Hs' Hall].
    assert (Hin : e ∈ collapse_from p l \/ (e = prev /\ rows_at (fst e) (p :: l) = [])).
    { rewrite rows_at_cons in Hlast.
      destruct (rows_at (fst e) (p :: l)) as [|x xs] eqn:Erows.
      - right. destruct (Qeq_bool (fst prev) (fst e)); [|done].
        injection Hlast as <-. done.
      - left. apply IH; [done| |].
        + rewrite Erows. destruct (Qeq_bool (fst prev) (fst e)); [|done].
          by rewrite last_cons_cons in Hlast.
        + intros r Hr. apply Hgap. by right. }
    cbn [collapse_from].
    destruct Hin as [Hin|[-> Hnone]].
    { destruct (Qltb _ _); [done|by right]. }
    assert (Hp : ~ fst p == fst prev).
    { intros Heq. assert (Hpin : p ∈ rows_at (fst prev) (p :: l)).
      { rewrite rows_at_cons. apply Qeq_bool_iff in Heq. rewrite Heq. by left. }
      rewrite Hnone in Hpin. by apply elem_of_nil in Hpin. }
    assert (Hle : fst prev <= fst p) by (by inversion Hall).
    assert (Hge : fst prev + eps12 <= fst p).
    { apply Qnot_lt_le. intros Hlt. apply (Hgap p); [right; by left|].
      split; [|done]. apply Qle_lteq in Hle as [Hlt'|Heq]; [done|].
      exfalso. apply Hp. by symmetry. }
    destruct (Qltb (Qabs (fst p - fst prev)) eps12) eqn:E; [|by left].
    apply Qltb_lt in E. rewrite Qabs_pos in E by lra. lra.
Qed.

(** The reading loop keeps one pose per time. *)
Lemma read_rows_lengths float_of dm tu hh dg lines : forall hs times joints r,
  read_rows float_of dm tu hh dg lines hs times joints = Ok r ->
  length times = length joints -> length (fst r) = length (snd r).
Proof.
  induction lines as [|line lines IH]; intros hs times joints r.
  - simpl. by intros [= <-].
  - cbn [read_rows]. destruct (skipped _); [apply IH|].
    destruct (hh && negb hs); [apply IH|].
    destruct (floats _ _) as [vals|]; [|done].
    destruct (length vals <? 15)%nat; [done|].
    intros H Hlen. eapply IH; [exact H|]. rewrite !length_app. simpl. lia.
Qed.

Lemma lookup_fst_snd {A B} (c : list (A * B)) k x y :
  map fst c !! k = Some x -> map snd c !! k = Some y -> c !! k = Some (x, y).
Proof.
  revert k. induction c as [|[a b] c IH]; intros [|k]; simpl; try done.
  - by intros [= <-] [= <-].
  - apply IH.
Qed.

(* ===================================================================== *)
(** * Failures of the parser *)

Section ParserFailures.

Variable float_of : string -> option Q.
Variable delim_mode : Delim.
Variable time_unit : TimeUnit.
Variable has_header degrees : bool.

Lemma read_rows_read_data lines : forall hs times joints,
  read_rows float_of delim_mode time_unit has_header degrees lines hs times joints =
  read_data float_of delim_mode time_unit degrees (if has_header && negb hs then drop 1 (content_lines lines)
             else content_lines lines) times joints.
Proof.
  induction lines as [|line lines IH]; intros hs times joints.
  - by destruct (has_header && negb hs).
  - cbn [read_rows content_lines List.filter].
    destruct (skipped (strip line)); cbn [negb]; [apply IH|].
    destruct (has_header && negb hs) eqn:E.
    + rewrite IH. cbn [drop]. by rewrite andb_false_r.
    + cbn [read_data]. destruct (floats _ _) as [vals|]; [|done].
      destruct (length vals <? 15)%nat; [done|]. rewrite IH. by rewrite E.
Qed.

Lemma mapM_None_existsb (parts : list string) :
  mapM float_of parts = None <->
  existsb (fun tok => match float_of tok with None => true | Some _ => false end) parts = true.
Proof.
  induction parts as [|tok parts IH]; [done|].
  cbn [existsb]. rewrite orb_true_iff, <- IH. simpl.
  destruct (float_of tok); simpl.
  - destruct (mapM float_of parts); simpl.
    + split; [done|]. by intros [|].
    + split; [by right|done].
  - split; [by left|done].
Qed.

Lemma floats_None line :
  floats float_of (split_fields delim_mode (strip line)) = None <->
  non_numeric float_of delim_mode line = true.
Proof. apply mapM_None_existsb. Qed.

Lemma floats_Some_length line vals :
  floats float_of (split_fields delim_mode (strip line)) = Some vals ->
  length vals = field_count delim_mode line.
Proof. intros H. symmetry. by apply length_mapM in H. Qed.

(** What the loop does with one data line. *)
Lemma read_data_cons line rest times joints :
  (non_numeric float_of delim_mode line = true ->
   read_data float_of delim_mode time_unit degrees (line :: rest) times joints = Raise ("Non-numeric data in line: " +:+ line)) /\
  (non_numeric float_of delim_mode line = false ->
   (field_count delim_mode line < 15)%nat ->
   read_data float_of delim_mode time_unit degrees (line :: rest) times joints =
   Raise ("Expected 15 numbers (t + 7 pos + 7 vel). Got "
          +:+ str_N (N.of_nat (field_count delim_mode line)))) /\
  (bad_line float_of delim_mode line = false ->
   exists t q, read_data float_of delim_mode time_unit degrees (line :: rest) times joints =
               read_data float_of delim_mode time_unit degrees rest (times ++ [t]) (joints ++ [q])).
Proof.
  unfold bad_line. cbn [read_data].
  destruct (floats _ _) as [vals|] eqn:Ef.
  - assert (Hn : non_numeric float_of delim_mode line = false).
    { destruct (non_numeric _ _ _) eqn:E; [|done].
      apply floats_None in E. congruence. }
    rewrite Hn, (floats_Some_length _ _ Ef). cbn [orb].
    split; [done|]. split.
    + intros _ Hc. apply Nat.ltb_lt in Hc. by rewrite Hc.
    + intros ->. eauto.
  - apply floats_None in Ef. rewrite Ef. cbn [orb]. done.
Qed.

Lemma read_data_good dl : forall times joints,
  existsb (bad_line float_of delim_mode) dl = false ->
  exists times' joints',
    read_data float_of delim_mode time_unit degrees dl times joints = Ok (times', joints') /\
    length times' = (length times + length dl)%nat.
Proof.
  induction dl as [|line dl IH]; intros times joints Hg.
  - exists times, joints. split; [done|]. simpl. lia.
  - cbn [existsb] in Hg. apply orb_false_iff in Hg as [Hline Hg].
    destruct (read_data_cons line dl times joints) as (_ & _ & Hok).
    destruct (Hok Hline) as (t & q & ->).
    edestruct IH as (times' & joints' & -> & Hlen); [done|].
    eexists _, _. split; [done|]. rewrite Hlen, length_app. simpl. lia.
Qed.

Lemma read_data_first_bad pre line post : forall times joints,
  existsb (bad_line float_of delim_mode) pre = false ->
  (non_numeric float_of delim_mode line = true ->
   read_data float_of delim_mode time_unit degrees (pre ++ line :: post) times joints =
   Raise ("Non-numeric data in line: " +:+ line)) /\
  (non_numeric float_of delim_mode line = false ->
   (field_count delim_mode line < 15)%nat ->
   read_data float_of delim_mode time_unit degrees (pre ++ line :: post) times joints =
   Raise ("Expected 15 numbers (t + 7 pos + 7 vel). Got "
          +:+ str_N (N.of_nat (field_count delim_mode line)))).
Proof.
  induction pre as [|l pre IH]; intros times joints Hg.
  - destruct (read_data_cons line post times joints) as (H1 & H2 & _). by split.
  - cbn [existsb] in Hg. apply orb_false_iff in Hg as [Hl Hg].
    destruct (read_data_cons l (pre ++ line :: post) times joints) as (_ & _ & Hok).
    destruct (Hok Hl) as (t & q & Heq).
    cbn [app]. rewrite Heq. by apply IH.
Qed.

Lemma read_data_raise dl : forall times joints msg,
  read_data float_of delim_mode time_unit degrees dl times joints = Raise msg ->
  existsb (bad_line float_of delim_mode) dl = true.
Proof.
  intros times joints msg H.
  destruct (existsb (bad_line float_of delim_mode) dl) eqn:E; [done|].
  destruct (read_data_good dl times joints E) as (? & ? & Hr & _). congruence.
Qed.

End ParserFailures.

(** C6.  Let the file exist.  The parse fails, and then returns no
    trajectory at all, exactly when a data line has a token that is not a
    number, or a data line has fewer than 15 fields, or there is no data line.
    The first offending data line decides the message: it names the line
    when the line has a token that is not a number, and it reports the
    number of fields otherwise; without data lines the message is that no
    valid rows were found. *)
Theorem parse_single_arm_failures (float_of : string -> option Q)
    (fs : FileSystem) (filepath contents : string) (delim_mode : Delim)
    (time_unit : TimeUnit) (has_header degrees : bool) :
  fs !! filepath = Some contents ->
  let dl := data_lines has_header (file_lines contents) in
  let parse := parse_single_arm float_of fs filepath delim_mode time_unit
                                has_header degrees in
  (is_ok parse = false <->
   existsb (bad_line float_of delim_mode) dl = true \/ dl = []) /\
  (forall pre line post,
     dl = pre ++ line :: post ->
     existsb (bad_line float_of delim_mode) pre = false ->
     (non_numeric float_of delim_mode line = true ->
      parse = Raise ("Non-numeric data in line: " +:+ line)) /\
     (non_numeric float_of delim_mode line = false ->
      (field_count delim_mode line < 15)%nat ->
      parse = Raise ("Expected 15 numbers (t + 7 pos + 7 vel). Got "
                     +:+ str_N (N.of_nat (field_count delim_mode line))))) /\
  (dl = [] -> parse = Raise "No valid data rows found.").
Proof.
  intros Hfs dl parse.
  assert (Hparse : parse =
    match read_data float_of delim_mode time_unit degrees dl [] [] with
    | Raise msg => Raise msg
    | Ok (times, joints) =>
        match times with
        | [] => Raise "No valid data rows found."
        | _ => Ok (sort_dedup times joints)
        end
    end).
  { unfold parse, parse_single_arm. rewrite Hfs, read_rows_read_data.
    unfold dl, data_lines. by rewrite andb_true_r. }
  split; [|split].
  - rewrite Hparse. split.
    + destruct (read_data _ _ _ _ dl [] []) as [[times joints]|msg] eqn:Hr.
      * destruct (existsb (bad_line float_of delim_mode) dl) eqn:E; [by left|].
        destruct (read_data_good float_of delim_mode time_unit degrees dl [] [] E)
          as (times' & joints' & Hr' & Hlen).
        rewrite Hr in Hr'. injection Hr' as <- <-.
        destruct times as [|t times]; [|done].
        intros _. right. simpl in Hlen. by destruct dl.
      * intros _. left. by eapply read_data_raise.
    + intros [Hbad| ->]; [|done].
      destruct (read_data _ _ _ _ dl [] []) as [[times joints]|msg] eqn:Hr; [|done].
      destruct (existsb (bad_line float_of delim_mode) dl) eqn:E; [|done].
      exfalso. clear Hparse Hbad.
      assert (Hc : forall times joints r,
                 read_data float_of delim_mode time_unit degrees dl times joints = Ok r ->
                 existsb (bad_line float_of delim_mode) dl = false).
      { clear. induction dl as [|line dl IH]; intros times joints r; [done|].
        cbn [existsb]. intros H.
        destruct (bad_line float_of delim_mode line) eqn:Eb.
        - exfalso. unfold bad_line in Eb.
          destruct (read_data_cons float_of delim_mode time_unit degrees
                      line dl times joints) as (H1 & H2 & _).
          destruct (non_numeric float_of delim_mode line) eqn:En.
          + rewrite (H1 eq_refl) in H. done.
          + cbn [orb] in Eb. apply Nat.ltb_lt in Eb. rewrite (H2 eq_refl Eb) in H. done.
        - destruct (read_data_cons float_of delim_mode time_unit degrees
                      line dl times joints) as (_ & _ & H3).
          destruct (H3 Eb) as (t & q & Heq). rewrite Heq in H. by eapply IH. }
      rewrite (Hc _ _ _ Hr) in E. done.
  - intros pre line post Hdl Hpre. rewrite Hparse, Hdl.
    destruct (read_data_first_bad float_of delim_mode time_unit degrees
                pre line post [] [] Hpre) as [H1 H2].
    split.
    + intros Hn. by rewrite (H1 Hn).
    + intros Hn Hc. by rewrite (H2 Hn Hc).
  - intros Hdl. rewrite Hparse, Hdl. done.
Qed.

Lemma parse_single_arm_failures_witness :
  parse_single_arm py_float {["traj.txt" := short_row_file]} "traj.txt"
                   AUTO SECONDS false false
  = Raise "Expected 15 numbers (t + 7 pos + 7 vel). Got 14" /\
  parse_single_arm py_float {["traj.txt" := bad_token_file]} "traj.txt"
                   AUTO SECONDS false false
  = Raise ("Non-numeric data in line: " +:+ "1 1 2 3 4 5 6 x 0 0 0 0 0 0 0" +:+ String LF EmptyString) /\
  parse_single_arm py_float {["traj.txt" := "# nothing"]} "traj.txt"
                   AUTO SECONDS true false
  = Raise "No valid data rows found.".
Proof.
  split; [|split].
  - destruct (parse_single_arm_failures py_float {["traj.txt" := short_row_file]}
                "traj.txt" short_row_file AUTO SECONDS false false
                (lookup_singleton_eq _ _))
      as (_ & H & _).
    destruct (H [] ("0 1 2 3 4 5 6 7 0 0 0 0 0 0" +:+ String LF EmptyString) []
                eq_refl eq_refl) as [_ H2].
    apply H2; [reflexivity|]. vm_compute. lia.
  - destruct (parse_single_arm_failures py_float {["traj.txt" := bad_token_file]}
                "traj.txt" bad_token_file AUTO SECONDS false false
                (lookup_singleton_eq _ _))
      as (_ & H & _).
    destruct (H ["0 1 2 3 4 5 6 7 0 0 0 0 0 0 0" +:+ String LF EmptyString]
                ("1 1 2 3 4 5 6 x 0 0 0 0 0 0 0" +:+ String LF EmptyString) []
                eq_refl eq_refl) as [H1 _].
    apply H1. reflexivity.
  - destruct (parse_single_arm_failures py_float {["traj.txt" := "# nothing"]}
                "traj.txt" "# nothing" AUTO SECONDS true false
                (lookup_singleton_eq _ _))
      as (_ & _ & H).
    apply H. reflexivity.
Defined.

(* ===================================================================== *)
(** * The load operators *)

Lemma load_execute_raise float_of fs which st e :
  parse_single_arm float_of fs (load_path which (scene st))
    (da_delim (scene st)) (sa_time_unit (scene st))
    (sa_has_header (scene st)) (sa_degrees (scene st)) = Raise e ->
  exists out, load_execute float_of fs which st = (st, out, true) /\
              status out = CANCELLED /\
              (da_common_filename (scene st) <> EmptyString ->
               reports out = [(ERROR, arm_letter which +:+ ": " +:+ e)]).
Proof.
  intros Hp. unfold load_execute. fold (arm_folder which (scene st)).
  destruct (da_common_filename (scene st)) as [|c name] eqn:Hn.
  { eexists. split; [done|]. split; [done|]. done. }
  fold (load_path which (scene st)) in *.
  unfold load_path in *. rewrite Hn in *.
  destruct (path_join _ _) as [|c' path'] eqn:Hpath.
  { eexists. split; [done|]. split; [done|]. intros _.
    exfalso. unfold path_join in Hpath.
    destruct (startswith "/" (String c name)); [done|].
    destruct (arm_folder which (scene st)) as [|d folder]; [done|].
    destruct (ends_with_slash _); done. }
  rewrite Hp. eexists. split; [done|]. split; [done|]. done.
Qed.

(** C7.  If the parse of the file a load action reads raises, whatever the
    reason (missing file, token that is not a number, field count, no valid
    rows), the action is cancelled and the whole state is as before; in
    particular both arms keep the trajectories they had. *)
Theorem load_failure_is_atomic (float_of : string -> option Q) (fs : FileSystem)
    (which : Arm) (st : State) (e : string) :
  parse_single_arm float_of fs (load_path which (scene st))
    (da_delim (scene st)) (sa_time_unit (scene st))
    (sa_has_header (scene st)) (sa_degrees (scene st)) = Raise e ->
  exists out,
    match which with
    | ArmA => SA_OT_load_a_execute float_of fs st
    | ArmB => SA_OT_load_b_execute float_of fs st
    end = (st, out, true) /\
    status out = CANCELLED /\
    (da_common_filename (scene st) <> EmptyString ->
     reports out = [(ERROR, arm_letter which +:+ ": " +:+ e)]).
Proof.
  intros Hp. destruct (load_execute_raise float_of fs which st e Hp) as (out & H).
  exists out. by destruct which.
Qed.

Lemma load_failure_is_atomic_witness :
  (exists out, SA_OT_load_a_execute py_float ∅ loaded_state = (loaded_state, out, true) /\
               status out = CANCELLED) /\
  (exists out, SA_OT_load_b_execute py_float {["/b/traj.txt" := short_row_file]} loaded_state
               = (loaded_state, out, true) /\
               status out = CANCELLED).
Proof.
  split.
  - destruct (load_failure_is_atomic py_float ∅ ArmA loaded_state
                "File not found: /a/traj.txt") as (out & H1 & H2 & _).
    + reflexivity.
    + by exists out.
  - destruct (load_failure_is_atomic py_float {["/b/traj.txt" := short_row_file]}
                ArmB loaded_state
                "Expected 15 numbers (t + 7 pos + 7 vel). Got 14") as (out & H1 & H2 & _).
    + by vm_compute.
    + by exists out.
Defined.

(** A load that succeeds replaces the trajectory of its arm and leaves the
    other arm alone. *)
Example load_success_example :
  let '(st, out, returned) :=
    SA_OT_load_a_execute py_float {["/a/traj.txt" := good_file]} loaded_state in
  TRAJ_A st = Some (mkTraj [5 # 1; 6 # 1]
                           [[1; 2 # 1; 3 # 1; 4 # 1; 5 # 1; 6 # 1; 7 # 1];
                            [2 # 1; 3 # 1; 4 # 1; 5 # 1; 6 # 1; 7 # 1; 8 # 1]]) /\
  TRAJ_B st = TRAJ_B loaded_state /\
  status out = FINISHED /\ returned = true.
Proof. by vm_compute. Qed.

(* ===================================================================== *)
(** * The TCP points *)

Lemma slice_from_lookup {A} (step : nat) (l : list A) : forall skip j,
  (1 <= step)%nat -> slice_from step skip l !! j = l !! (skip + j * step)%nat.
Proof.
  induction l as [|x l IH]; intros skip j Hstep; [done|].
  destruct skip as [|k]; cbn [slice_from].
  - destruct j as [|j]; [done|]. cbn [lookup list_lookup]. rewrite IH by done.
    replace (0 + S j * step)%nat with (S (step - 1 + j * step)) by lia. done.
  - rewrite IH by done. done.
Qed.

Section TcpRows.

Variable float_of : string -> option Q.
Variable delim_mode : Delim.
Variable has_header : bool.
Variable y_offset : Q.

Lemma read_tcp_rows_read_data column_major lines : forall hs pts,
  read_tcp_rows float_of delim_mode has_header column_major y_offset lines hs pts =
  read_tcp_data float_of delim_mode y_offset column_major (if has_header && negb hs then drop 1 (content_lines lines)
                 else content_lines lines) pts.
Proof.
  destruct column_major.
  all: induction lines as [|line lines IH]; intros hs pts;
    [by destruct (has_header && negb hs)|].
  all: cbn [read_tcp_rows content_lines List.filter].
  all: destruct (skipped (strip line)); cbn [negb]; [apply IH|].
  all: destruct (has_header && negb hs) eqn:E;
    [rewrite IH; cbn [drop]; by rewrite andb_false_r|].
  all: cbn [read_tcp_data]; destruct (floats _ _) as [vals|]; [|done].
  all: destruct (length vals <? 17)%nat; [done|].
  all: by rewrite IH, E.
Qed.

Lemma read_tcp_data_good column_major dl : forall pts,
  existsb (tcp_bad_line float_of delim_mode) dl = false ->
  read_tcp_data float_of delim_mode y_offset column_major dl pts =
  Ok (pts ++ map (fun line => tcp_point column_major y_offset
                                (line_values float_of delim_mode line)) dl).
Proof.
  induction dl as [|line dl IH]; intros pts Hg.
  - simpl. by rewrite app_nil_r.
  - cbn [existsb] in Hg. apply orb_false_iff in Hg as [Hline Hg].
    unfold tcp_bad_line in Hline. apply orb_false_iff in Hline as [Hn Hc].
    cbn [read_tcp_data map]. unfold line_values at 1.
    destruct (floats _ _) as [vals|] eqn:Ef.
    2:{ apply floats_None in Ef. congruence. }
    rewrite (floats_Some_length _ _ _ _ Ef), Hc.
    rewrite IH by done. cbn [default]. by rewrite <- app_assoc.
Qed.

End TcpRows.

Lemma _parse_tcp_positions_good float_of (fs : FileSystem) filepath contents
    delim_mode has_header column_major y_offset :
  fs !! filepath = Some contents ->
  let dl := data_lines has_header (file_lines contents) in
  dl <> [] -> existsb (tcp_bad_line float_of delim_mode) dl = false ->
  _parse_tcp_positions float_of fs filepath delim_mode has_header column_major y_offset
  = Ok (map (fun line => tcp_point column_major y_offset
                           (line_values float_of delim_mode line)) dl).
Proof.
  intros Hfs dl Hne Hgood. unfold _parse_tcp_positions.
  rewrite Hfs, read_tcp_rows_read_data, andb_true_r.
  fold (data_lines has_header (file_lines contents)). fold dl.
  rewrite (read_tcp_data_good _ _ y_offset column_major dl [] Hgood). cbn [app].
  destruct dl as [|line dl']; [done|]. done.
Qed.

(** C8 (as amended).  Let the TCP file of an arm exist and all its data lines
    have at least 17 numeric fields.  The visualize action of that arm
    finishes and links one sphere per [tcp_step]-th data line to the arm's
    collection.  The sphere of a line lies at the translation of the 16
    fields [m] that follow the time, moved along y by 0.281 for arm A and by
    -0.281 for arm B: [(m[3], m[7] +- 0.281, m[11])] in row-major mode and
    [(m[12], m[13] +- 0.281, m[14])] in column-major mode. *)
Theorem tcp_visualize_points (float_of : string -> option Q) (fs : FileSystem)
    (which : Arm) (st : State) (contents : string) :
  let scn := scene st in
  arm_folder which scn <> EmptyString -> da_tcp_filename scn <> EmptyString ->
  fs !! path_join (arm_folder which scn) (da_tcp_filename scn) = Some contents ->
  let dl := data_lines (sa_has_header scn) (file_lines contents) in
  dl <> [] -> existsb (tcp_bad_line float_of (da_delim scn)) dl = false ->
  (1 <= tcp_step scn)%nat ->
  exists st' out markers,
    match which with
    | ArmA => SA_OT_tcp_visualize_a_execute float_of fs st
    | ArmB => SA_OT_tcp_visualize_b_execute float_of fs st
    end = (st', out) /\
    status out = FINISHED /\
    collections st' !! tcp_collection which (da_tcp_filename scn)
    = Some (default [] (collections st !! tcp_collection which (da_tcp_filename scn))
            ++ markers) /\
    forall j,
      markers !! j =
      (fun line =>
         let m := take 16 (drop 1 (line_values float_of (da_delim scn) line)) in
         let dy := match which with ArmA => 281 # 1000 | ArmB => - (281 # 1000) end in
         mkMarker (if tcp_column_major scn
                   then (nth 12 m 0, nth 13 m 0 + dy, nth 14 m 0)
                   else (nth 3 m 0, nth 7 m 0 + dy, nth 11 m 0))
                  j (tcp_radius scn))
      <$> dl !! (j * tcp_step scn)%nat.
Proof.
  intros scn Hfolder Hfname Hfs dl Hne Hgood Hstep.
  assert (Hexec : exists st' out markers,
    tcp_visualize_execute float_of fs which st = (st', out) /\
    status out = FINISHED /\
    collections st' !! tcp_collection which (da_tcp_filename scn)
    = Some (default [] (collections st !! tcp_collection which (da_tcp_filename scn))
            ++ markers) /\
    forall j, markers !! j =
      (fun line => mkMarker (tcp_point (tcp_column_major scn) (tcp_y_offset which)
                               (line_values float_of (da_delim scn) line))
                            j (tcp_radius scn))
      <$> dl !! (j * tcp_step scn)%nat).
  { unfold tcp_visualize_execute. fold scn. fold (arm_folder which scn).
    destruct (arm_folder which scn) as [|c folder] eqn:Ef; [done|].
    destruct (da_tcp_filename scn) as [|c' fname] eqn:En; [done|].
    rewrite (_parse_tcp_positions_good float_of fs _ contents _ _ _ _ Hfs Hne Hgood).
    fold dl. unfold _scatter_tcp_points.
    eexists _, _, _. split; [reflexivity|]. split; [done|].
    split.
    { cbn [collections set_collections]. unfold tcp_collection.
      by rewrite lookup_insert_eq. }
    intros j. rewrite list_lookup_imap.
    destruct (1 <? tcp_step scn)%nat eqn:E.
    - unfold slice_step. rewrite slice_from_lookup by done.
      cbn [Nat.add]. destruct (dl !! (j * tcp_step scn)%nat) eqn:Hl.
      + by erewrite lookup_map.
      + apply lookup_ge_None in Hl. rewrite (proj2 (lookup_ge_None _ _)); [done|].
        by rewrite length_map.
    - apply Nat.ltb_ge in E. assert (tcp_step scn = 1%nat) as -> by lia.
      rewrite Nat.mul_1_r. destruct (dl !! j) eqn:Hl.
      + by erewrite lookup_map.
      + apply lookup_ge_None in Hl. rewrite (proj2 (lookup_ge_None _ _)); [done|].
        by rewrite length_map. }
  destruct Hexec as (st' & out & markers & H1 & H2 & H3 & H4).
  exists st', out, markers.
  split; [by destruct which|]. split; [done|]. split; [done|].
  intros j. rewrite H4. destruct (dl !! (j * tcp_step scn)%nat); [|done].
  cbn [fmap option_fmap option_map]. unfold tcp_point, tcp_y_offset.
  by destruct which, (tcp_column_major scn).
Qed.

Lemma tcp_visualize_points_witness :
  exists st' out x y z,
    SA_OT_tcp_visualize_a_execute py_float {["/a/tcp.txt" := tcp_file]} tcp_state = (st', out) /\
    status out = FINISHED /\
    collections st' !! "TCP A (tcp.txt)" = Some [mkMarker (x, y, z) 0 (5 # 1000)] /\
    x == 10 # 1 /\ y == 20281 # 1000 /\ z == 30 # 1.
Proof.
  destruct (tcp_visualize_points py_float {["/a/tcp.txt" := tcp_file]} ArmA tcp_state tcp_file)
    as (st' & out & markers & H1 & H2 & H3 & H4).
  - done.
  - done.
  - apply lookup_singleton_eq.
  - done.
  - reflexivity.
  - simpl. lia.
  - exists st', out.
    revert H3. vm_compute in H1. injection H1 as <- <-.
    intros _. eexists _, _, _. split; [reflexivity|]. split; [reflexivity|].
    split; [by vm_compute|]. split; [|split]; by vm_compute.
Defined.

(** C8, counterexample.  The row holds a row-major transform with the
    translation (10, 20, 30); the sphere of arm A is placed at
    (10, 20.281, 30), that of arm B at (10, 19.719, 30). *)
Lemma tcp_point_offset_counterexample :
  exists sa oa sb ob ya yb,
    SA_OT_tcp_visualize_a_execute py_float {["/a/tcp.txt" := tcp_file]} tcp_state = (sa, oa) /\
    SA_OT_tcp_visualize_b_execute py_float {["/b/tcp.txt" := tcp_file]} tcp_state = (sb, ob) /\
    m_location <$> (collections sa !! "TCP A (tcp.txt)" ≫= head) = Some (10 # 1, ya, 30 # 1) /\
    m_location <$> (collections sb !! "TCP B (tcp.txt)" ≫= head) = Some (10 # 1, yb, 30 # 1) /\
    ya == 20281 # 1000 /\ yb == 19719 # 1000 /\
    ~ ya == 20 # 1 /\ ~ yb == 20 # 1.
Proof.
  eexists _, _, _, _, _, _.
  split; [by vm_compute|]. split; [by vm_compute|].
  split; [by vm_compute|]. split; [by vm_compute|].
  split; [by vm_compute|]. split; [by vm_compute|].
  split; by vm_compute.
Qed.

(* ===================================================================== *)
(** * Decimal numerals *)

Lemma digits_acc_of_uint_acc (d : Decimal.uint) : forall acc : positive,
  digits_acc (Npos acc) (NilEmpty.string_of_uint d) = Some (Npos (Pos.of_uint_acc d acc)).
Proof.
  induction d; intros acc; cbn [NilEmpty.string_of_uint Pos.of_uint_acc digits_acc];
    [done|..];
    match goal with
    | |- context [is_digit ?c] => change (is_digit c) with true; cbv iota
    end;
    match goal with
    | |- digits_acc ?a _ = _ =>
        match goal with
        | |- _ = Some (Npos (Pos.of_uint_acc _ ?b)) =>
            replace a with (Npos b) by (cbn; lia)
        end
    end; apply IHd.
Qed.

Lemma digits_acc_of_uint (d : Decimal.uint) :
  digits_acc 0 (NilEmpty.string_of_uint d) = Some (Pos.of_uint d).
Proof.
  induction d; cbn [NilEmpty.string_of_uint Pos.of_uint digits_acc]; [done|..];
    match goal with
    | |- context [is_digit ?c] => change (is_digit c) with true; cbv iota
    end;
    [exact IHd|..];
    match goal with
    | |- digits_acc ?a _ = Some (Npos (Pos.of_uint_acc _ ?b)) =>
        change a with (Npos b)
    end; apply digits_acc_of_uint_acc.
Qed.

(** Reading back a printed number. *)
Lemma digits_acc_str_N (n : N) : digits_acc 0 (str_N n) = Some n.
Proof.
  unfold str_N.
  rewrite <- (DecimalN.Unsigned.of_to n) at 2.
  generalize (N.to_uint n). intros d.
  unfold N.of_uint, NilZero.string_of_uint.
  destruct d; [done|..]; apply digits_acc_of_uint.
Qed.

Lemma digits_acc_zeros (k : nat) (s : string) :
  digits_acc 0 (String.string_of_list_ascii (replicate k "0"%char) +:+ s) = digits_acc 0 s.
Proof. induction k as [|k IH]; [done|]. exact IH. Qed.

Lemma format_03d_value (i : N) : digits_acc 0 (format_03d i) = Some i.
Proof.
  unfold format_03d, zero_pad. by rewrite digits_acc_zeros, digits_acc_str_N.
Qed.

Lemma format_03d_inj (i j : N) : format_03d i = format_03d j -> i = j.
Proof.
  intros H. pose proof (format_03d_value i) as Hi.
  rewrite H, format_03d_value in Hi. congruence.
Qed.

Lemma append_inj_r (p s1 s2 : string) : p +:+ s1 = p +:+ s2 -> s1 = s2.
Proof. induction p as [|c p IH]; [done|]. simpl. intros [= H]. by apply IH. Qed.

(* ===================================================================== *)
(** * Unique names *)

Lemma candidate_inj base i j : candidate base i = candidate base j -> i = j.
Proof.
  unfold candidate. intros H%append_inj_r. apply format_03d_inj.
  by apply (append_inj_r ".").
Qed.

Lemma unique_name_loop_finds base (existing : gset string) rounds : forall i k,
  (k < rounds)%nat -> candidate base (i + N.of_nat k) ∉ existing ->
  exists nm, unique_name_loop rounds base existing i = Some nm /\ (nm ∉ existing).
Proof.
  induction rounds as [|rounds IH]; intros i k Hk Hfree; [lia|].
  cbn [unique_name_loop]. fold (candidate base i).
  destruct (decide (candidate base i ∈ existing)) as [Hin|Hout]; [|by eexists].
  destruct k as [|k].
  { exfalso. apply Hfree. by rewrite N.add_0_r. }
  apply (IH (i + 1)%N k); [lia|].
  by replace (i + 1 + N.of_nat k)%N with (i + N.of_nat (S k))%N by lia.
Qed.

(** Among more candidates than there are names, one is free. *)
Lemma candidate_free base (existing : gset string) i :
  exists k, (k < S (size existing))%nat /\ (candidate base (i + N.of_nat k) ∉ existing).
Proof.
  set (c := fun k : nat => candidate base (i + N.of_nat k)).
  set (l := c <$> seq 0 (S (size existing))).
  destruct (decide (Forall (fun nm => nm ∈ existing) l)) as [Hall|Hex].
  - exfalso.
    assert (Hnd : NoDup l).
    { apply NoDup_fmap_2; [|apply NoDup_seq].
      intros a b Hab. apply candidate_inj in Hab. lia. }
    assert (Hsub : list_to_set l ⊆ existing).
    { intros nm Hnm%elem_of_list_to_set. rewrite Forall_forall in Hall. by apply Hall. }
    apply subseteq_size in Hsub.
    rewrite size_list_to_set in Hsub by done.
    unfold l in Hsub. rewrite length_fmap, length_seq in Hsub. lia.
  - apply not_Forall_Exists in Hex; [|apply _].
    apply Exists_exists in Hex as (nm & Hnm & Hfree).
    apply list_elem_of_fmap in Hnm as (k & -> & Hk).
    apply elem_of_seq in Hk. exists k. split; [lia|done].
Qed.

Lemma _unique_name_spec base (existing : gset string) :
  exists nm, _unique_name base existing = Some nm /\ (nm ∉ existing) /\
             ((base ∉ existing) -> nm = base).
Proof.
  unfold _unique_name.
  destruct (decide (base ∈ existing)) as [Hin|Hout].
  - destruct (candidate_free base existing 1) as (k & Hk & Hfree).
    destruct (unique_name_loop_finds base existing _ 1 k Hk Hfree) as (nm & Hnm & Hout).
    exists nm. split; [done|]. split; [done|]. intros Hb. by destruct (Hb Hin).
  - exists base. done.
Qed.

Section SpawnNames.

Variable new_mesh_name : gset string -> string.

Lemma _spawn_cube_unique_spec base (w : Names) :
  exists nm w', _spawn_cube_unique new_mesh_name base w = Some (nm, w') /\
    (nm ∉ obj_names w) /\ ((base ∉ obj_names w) -> nm = base) /\
    obj_names w' = obj_names w ∪ {[nm]}.
Proof.
  unfold _spawn_cube_unique.
  destruct (_unique_name_spec base (obj_names w)) as (nm & -> & Hnm & Hbase).
  cbn [mbind option_bind].
  destruct (_unique_name_spec (nm +:+ "_Mesh")
              (mesh_names w ∪ {[new_mesh_name (mesh_names w)]})) as (mn & -> & _).
  cbn [mbind option_bind]. eexists _, _. split; [done|]. done.
Qed.

Lemma import_entries_spec entries : forall w created,
  NoDup created -> (forall nm, nm ∈ created -> nm ∈ obj_names w) ->
  exists new w',
    import_entries new_mesh_name entries w created = Some (created ++ new, w') /\
    NoDup (created ++ new) /\
    (forall nm, nm ∈ new -> (nm ∉ obj_names w)) /\
    (forall nm, nm ∈ created ++ new -> nm ∈ obj_names w') /\
    obj_names w ⊆ obj_names w' /\
    length new = length (List.filter (fun e => bool_decide (e_shape e = "box")) entries).
Proof.
  induction entries as [|e entries IH]; intros w created Hnd Hsub.
  - exists [], w. rewrite app_nil_r.
    split; [done|]. split; [done|]. split; [by intros ? ?%elem_of_nil|].
    split; [done|]. split; done.
  - cbn [import_entries List.filter].
    destruct (decide (e_shape e = "box")) as [Hbox|Hbox].
    2:{ rewrite bool_decide_eq_false_2 by done. by apply IH. }
    rewrite bool_decide_eq_true_2 by done.
    destruct (_spawn_cube_unique_spec (e_name e) w) as (nm & w1 & -> & Hnm & _ & Hw1).
    cbn [mbind option_bind fst snd].
    destruct (IH w1 (created ++ [nm])) as (new & w' & -> & Hnd' & Hnew & Hall & Hmono & Hlen).
    + apply NoDup_app. split; [done|]. split; [|apply NoDup_singleton].
      intros x Hx ->%list_elem_of_singleton. by apply Hnm, Hsub.
    + intros x [Hx| ->%list_elem_of_singleton]%elem_of_app; rewrite Hw1.
      * apply elem_of_union_l. by apply Hsub.
      * apply elem_of_union_r. by apply elem_of_singleton.
    + exists (nm :: new), w'. rewrite <- app_assoc in *. cbn [app] in *.
      split; [done|]. split; [done|]. split.
      { intros x [->|Hx]%elem_of_cons; [done|].
        intros Hin. apply (Hnew x Hx). rewrite Hw1. by apply elem_of_union_l. }
      split; [done|]. split.
      { intros x Hx. apply Hmono. rewrite Hw1. by apply elem_of_union_l. }
      simpl. by rewrite Hlen.
Qed.

End SpawnNames.

(** C10.  For every base name and every finite set of names,
    [_unique_name] returns a name; the name is not in the set, and it is the
    base name whenever that one is free.  Hence the cube made by
    [_spawn_cube_unique] gets a name that no object had before, and the cubes
    made by one import get names that differ from each other and from every
    name that was there before the import. *)
Theorem unique_names (new_mesh_name : gset string -> string) :
  (forall (base : string) (existing_names : gset string),
     exists nm, _unique_name base existing_names = Some nm /\
       (nm ∉ existing_names) /\ ((base ∉ existing_names) -> nm = base)) /\
  (forall (base : string) (w : Names),
     exists nm w', _spawn_cube_unique new_mesh_name base w = Some (nm, w') /\
       (nm ∉ obj_names w) /\ obj_names w' = obj_names w ∪ {[nm]}) /\
  (forall (entries : list Entry) (w : Names),
     exists created w', import_entries new_mesh_name entries w [] = Some (created, w') /\
       NoDup created /\ (forall nm, nm ∈ created -> (nm ∉ obj_names w)) /\
       length created
       = length (List.filter (fun e => bool_decide (e_shape e = "box")) entries)).
Proof.
  split; [|split].
  - apply _unique_name_spec.
  - intros base w.
    destruct (_spawn_cube_unique_spec new_mesh_name base w) as (nm & w' & H1 & H2 & _ & H3).
    by exists nm, w'.
  - intros entries w.
    destruct (import_entries_spec new_mesh_name entries w [])
      as (new & w' & H1 & H2 & H3 & _ & _ & H4).
    + constructor.
    + intros nm Hnm. by apply elem_of_nil in Hnm.
    + by exists new, w'.
Qed.

Lemma unique_names_witness :
  exists nm, _unique_name "Box" {["Cube"]} = Some nm /\ nm = "Box".
Proof.
  destruct (unique_names (fun _ => "Cube")) as [H _].
  destruct (H "Box" {["Cube"]}) as (nm & Hnm & _ & Hbase).
  exists nm. split; [exact Hnm|]. apply Hbase.
  intros Hin. apply elem_of_singleton in Hin. discriminate Hin.
Defined.

(* ===================================================================== *)
(** * Lines and tokens *)

Lemma append_cons (c : ascii) (s t : string) : String c s +:+ t = String c (s +:+ t).
Proof. reflexivity. Qed.

Lemma append_nil_l (t : string) : EmptyString +:+ t = t.
Proof. reflexivity. Qed.

Lemma append_nil_r (s : string) : s +:+ EmptyString = s.
Proof. induction s as [|c s IH]; [done|]. by rewrite append_cons, IH. Qed.

Lemma append_assoc (a b c : string) : (a +:+ b) +:+ c = a +:+ b +:+ c.
Proof. induction a as [|x a IH]; [done|]. by rewrite !append_cons, IH. Qed.

Lemma all_chars_app P (a b : string) :
  all_chars P (a +:+ b) = all_chars P a && all_chars P b.
Proof.
  induction a as [|c a IH]; [done|].
  rewrite append_cons. cbn [all_chars]. by rewrite IH, andb_assoc.
Qed.

Lemma all_chars_impl (P Q : ascii -> bool) s :
  (forall c, P c = true -> Q c = true) -> all_chars P s = true -> all_chars Q s = true.
Proof.
  intros HPQ. induction s as [|c s IH]; [done|]. simpl.
  intros [H1 H2]%andb_true_iff. apply andb_true_iff. split; [by apply HPQ|by apply IH].
Qed.

Lemma lstrip_first_ok s : first_ok s = true -> lstrip s = s.
Proof. destruct s as [|c s]; [done|]. simpl. by intros ->%negb_true_iff. Qed.

Lemma rstrip_last_ok s : last_ok s = true -> rstrip s = s.
Proof.
  induction s as [|c s IH]; [done|]. cbn [last_ok rstrip].
  destruct s as [|c' s'].
  - simpl. by intros ->%negb_true_iff.
  - intros H. by rewrite (IH H).
Qed.

Lemma strip_clean s : first_ok s = true -> last_ok s = true -> strip s = s.
Proof.
  intros H1 H2. unfold strip. rewrite (rstrip_last_ok _ H2). by apply lstrip_first_ok.
Qed.

Lemma rstrip_snoc_space s c :
  is_space c = true -> rstrip (s +:+ String c EmptyString) = rstrip s.
Proof.
  intros Hc. induction s as [|a s IH].
  - rewrite append_nil_l. simpl. by rewrite Hc.
  - rewrite append_cons. cbn [rstrip]. by rewrite IH.
Qed.

Lemma strip_newline s : strip (s +:+ String LF EmptyString) = strip s.
Proof. unfold strip. by rewrite rstrip_snoc_space. Qed.

Lemma split_lines_line l rest :
  all_chars (fun c => negb (is_break c)) l = true ->
  split_lines (l +:+ String LF rest) = (l +:+ String LF EmptyString) :: split_lines rest.
Proof.
  induction l as [|c l IH]; [done|].
  rewrite append_cons. cbn [all_chars split_lines]. intros [Hc Hl]%andb_true_iff.
  unfold is_break in Hc. apply negb_true_iff, orb_false_iff in Hc as [Hc _].
  by rewrite Hc, (IH Hl).
Qed.

Lemma split_lines_last l :
  all_chars (fun c => negb (is_break c)) l = true -> l <> EmptyString ->
  split_lines l = [l].
Proof.
  induction l as [|c l IH]; [done|].
  cbn [all_chars split_lines]. intros [Hc Hl]%andb_true_iff _.
  unfold is_break in Hc. apply negb_true_iff, orb_false_iff in Hc as [Hc _].
  rewrite Hc. destruct l as [|c' l']; [done|]. by rewrite IH.
Qed.

Lemma universal_newlines_id s :
  all_chars (fun c => negb (Ascii.eqb c CR)) s = true -> universal_newlines s = s.
Proof.
  induction s as [|c s IH]; [done|].
  cbn [all_chars universal_newlines]. intros [Hc Hs]%andb_true_iff.
  apply negb_true_iff in Hc. by rewrite Hc, (IH Hs).
Qed.

Lemma clean_line_parts s :
  clean_line s = true ->
  first_ok s = true /\ last_ok s = true /\
  all_chars (fun c => negb (is_break c)) s = true /\ s <> EmptyString.
Proof.
  unfold clean_line. intros [[H1 H2]%andb_true_iff H3]%andb_true_iff.
  split; [done|]. split; [done|]. split; [done|]. by destruct s.
Qed.

Lemma join_lines_no_cr lines :
  Forall (fun l => clean_line l = true) lines ->
  all_chars (fun c => negb (Ascii.eqb c CR)) (join_lines lines) = true.
Proof.
  assert (Hb : forall l, clean_line l = true ->
                all_chars (fun c => negb (Ascii.eqb c CR)) l = true).
  { intros l (_ & _ & Hl & _)%clean_line_parts. revert Hl. apply all_chars_impl.
    intros c. unfold is_break. by destruct (Ascii.eqb c LF), (Ascii.eqb c CR). }
  induction 1 as [|l lines Hl Hlines IH]; [done|].
  cbn [join_lines]. destruct lines as [|l' lines']; [by apply Hb|].
  rewrite all_chars_app, (Hb _ Hl). cbn [all_chars andb]. exact IH.
Qed.

(** Lines that are clean come back from the file as they were written. *)
Lemma nonempty_lines_join lines :
  Forall (fun l => clean_line l = true) lines ->
  nonempty_lines (file_lines (join_lines lines)) = lines.
Proof.
  intros Hall. unfold file_lines.
  rewrite (universal_newlines_id _ (join_lines_no_cr _ Hall)).
  unfold nonempty_lines.
  induction Hall as [|l lines Hl Hlines IH]; [done|].
  destruct (clean_line_parts _ Hl) as (Hf & Hla & Hnb & Hne).
  cbn [join_lines]. destruct lines as [|l' lines'].
  - rewrite (split_lines_last _ Hnb Hne). cbn [map].
    rewrite (strip_clean _ Hf Hla). by rewrite filter_cons_True, filter_nil.
  - rewrite (split_lines_line _ _ Hnb). cbn [map].
    rewrite strip_newline, (strip_clean _ Hf Hla).
    rewrite filter_cons_True by done. by rewrite IH.
Qed.

Lemma re_split_nonempty s : re_split s <> [].
Proof.
  induction s as [|c s IH]; [done|]. cbn [re_split].
  destruct (is_sep c).
  - destruct s as [|c' s']; [done|]. by destruct (is_sep c').
  - by destruct (re_split s).
Qed.

Lemma re_split_token_app t s :
  all_chars (fun c => negb (is_sep c)) t = true ->
  re_split (t +:+ s) =
  match re_split s with
  | w :: ws => (t +:+ w) :: ws
  | [] => [t]
  end.
Proof.
  induction t as [|c t IH].
  - intros _. rewrite append_nil_l.
    pose proof (re_split_nonempty s). by destruct (re_split s).
  - cbn [all_chars]. intros [Hc Ht]%andb_true_iff. apply negb_true_iff in Hc.
    rewrite append_cons. cbn [re_split]. rewrite Hc, (IH Ht).
    pose proof (re_split_nonempty s). by destruct (re_split s).
Qed.

Lemma is_token_parts t :
  is_token t = true ->
  exists c r, t = String c r /\ is_sep c = false /\
              all_chars (fun c => negb (is_sep c)) t = true.
Proof.
  destruct t as [|c r]; [done|]. intros H. exists c, r.
  split; [done|]. split; [|done].
  cbn [is_token all_chars] in H. apply andb_true_iff in H as [H _].
  by apply negb_true_iff.
Qed.

Lemma join_sp_cons t t' ts :
  join_sp (t :: t' :: ts) = t +:+ String " "%char (join_sp (t' :: ts)).
Proof. reflexivity. Qed.

Lemma join_sp_first t ts :
  is_token t = true -> exists c r, join_sp (t :: ts) = String c r /\ is_sep c = false.
Proof.
  intros (c & r & -> & Hc & _)%is_token_parts.
  destruct ts as [|t' ts'].
  - by exists c, r.
  - rewrite join_sp_cons, append_cons. by eexists _, _.
Qed.

Lemma re_split_sep_cons c0 c r :
  is_sep c0 = true -> is_sep c = false ->
  re_split (String c0 (String c r)) = EmptyString :: re_split (String c r).
Proof.
  intros H0 Hc.
  change (re_split (String c0 (String c r))) with
    (if is_sep c0 then
       (if is_sep c then re_split (String c r) else EmptyString :: re_split (String c r))
     else match re_split (String c r) with
          | w :: ws => String c0 w :: ws
          | [] => [String c0 EmptyString]
          end).
  by rewrite H0, Hc.
Qed.

(** Splitting a line of tokens gives the tokens back. *)
Lemma re_split_join_sp ts :
  Forall (fun t => is_token t = true) ts -> ts <> [] -> re_split (join_sp ts) = ts.
Proof.
  induction 1 as [|t ts Ht Hts IH]; [done|]. intros _.
  destruct (is_token_parts _ Ht) as (c0 & r0 & Heq & _ & Hall).
  destruct ts as [|t' ts'].
  - cbn [join_sp]. rewrite <- (append_nil_r t) at 1.
    rewrite (re_split_token_app _ _ Hall). cbn [re_split]. by rewrite append_nil_r.
  - rewrite join_sp_cons, (re_split_token_app _ _ Hall).
    apply Forall_cons in Hts as Hts'. destruct Hts' as [Ht' _].
    destruct (join_sp_first t' ts' Ht') as (c & r & Hj & Hc).
    rewrite Hj, (re_split_sep_cons " "%char c r eq_refl Hc), <- Hj, IH by done.
    by rewrite append_nil_r.
Qed.

Lemma not_sep_not_space c : is_sep c = false -> is_space c = false.
Proof. unfold is_sep. by intros [_ ?]%orb_false_iff. Qed.

Lemma not_space_not_break c : is_space c = false -> is_break c = false.
Proof.
  unfold is_break. intros H.
  destruct (Ascii.eqb c LF) eqn:E1.
  { apply Ascii.eqb_eq in E1. subst c. done. }
  destruct (Ascii.eqb c CR) eqn:E2; [|done].
  apply Ascii.eqb_eq in E2. subst c. done.
Qed.

Lemma last_ok_cons c0 c r : last_ok (String c0 (String c r)) = last_ok (String c r).
Proof. reflexivity. Qed.

Lemma last_ok_app s t : t <> EmptyString -> last_ok (s +:+ t) = last_ok t.
Proof.
  intros Ht. induction s as [|c s IH]; [done|].
  rewrite append_cons. cbn [last_ok].
  destruct (s +:+ t) as [|c' r] eqn:E; [|done].
  destruct s; [rewrite append_nil_l in E|rewrite append_cons in E]; done.
Qed.

Lemma last_ok_token t : is_token t = true -> last_ok t = true.
Proof.
  intros (c & r & -> & Hc & Hall)%is_token_parts.
  revert c Hc Hall. induction r as [|c' r IH]; intros c Hc Hall.
  - simpl. by rewrite (not_sep_not_space _ Hc).
  - cbn [last_ok]. cbn [all_chars] in Hall.
    apply andb_true_iff in Hall as [_ Hall].
    apply IH; [|done]. cbn [all_chars] in Hall.
    apply andb_true_iff in Hall as [Hc' _]. by apply negb_true_iff.
Qed.

Lemma join_sp_nonempty t ts : is_token t = true -> join_sp (t :: ts) <> EmptyString.
Proof. intros Ht. destruct (join_sp_first t ts Ht) as (c & r & -> & _). done. Qed.

Lemma clean_line_join_sp ts :
  Forall (fun t => is_token t = true) ts -> ts <> [] -> clean_line (join_sp ts) = true.
Proof.
  intros Hall Hne. unfold clean_line.
  apply andb_true_iff. split; [apply andb_true_iff; split|].
  - destruct ts as [|t ts]; [done|]. apply Forall_cons in Hall as [Ht _].
    destruct (join_sp_first t ts Ht) as (c & r & -> & Hc). simpl.
    by rewrite (not_sep_not_space _ Hc).
  - destruct ts as [|t ts]; [done|]. clear Hne. revert t Hall.
    induction ts as [|t' ts' IH]; intros t Hall.
    { apply last_ok_token. by apply Forall_cons in Hall as [? _]. }
    apply Forall_cons in Hall as [Ht Hts].
    apply Forall_cons in Hts as Hts'. destruct Hts' as [Ht' _].
    rewrite join_sp_cons, last_ok_app by done.
    destruct (join_sp_first t' ts' Ht') as (c & r & Hj & _).
    rewrite Hj, last_ok_cons, <- Hj. by apply IH.
  - clear Hne. induction Hall as [|t ts Ht Hts IH]; [done|].
    assert (Hb : all_chars (fun c => negb (is_break c)) t = true).
    { destruct (is_token_parts _ Ht) as (_ & _ & _ & _ & H). revert H.
      apply all_chars_impl. intros c Hc%negb_true_iff.
      by rewrite (not_space_not_break _ (not_sep_not_space _ Hc)). }
    destruct ts as [|t' ts']; [done|].
    rewrite join_sp_cons, !all_chars_app, Hb. cbn [all_chars andb]. exact IH.
Qed.

Lemma strip_token t : is_token t = true -> strip t = t.
Proof.
  intros Ht. apply strip_clean; [|by apply last_ok_token].
  destruct (is_token_parts _ Ht) as (c & r & -> & Hc & _). simpl.
  by rewrite (not_sep_not_space _ Hc).
Qed.

(* ===================================================================== *)
(** * Printed numbers *)

Lemma is_digit_not_sep c : is_digit c = true -> is_sep c = false.
Proof.
  unfold is_digit, is_sep, is_space. intros H.
  destruct (Ascii.eqb c ","%char) eqn:E.
  { apply Ascii.eqb_eq in E. subst c. done. }
  cbn [orb]. apply andb_true_iff in H as [H1 H2].
  apply N.leb_le in H1, H2.
  destruct (N.leb_spec (N_of_ascii c) 13), (N.leb_spec 28 (N_of_ascii c)),
    (N.leb_spec (N_of_ascii c) 32), (N.eqb_spec (N_of_ascii c) 133),
    (N.eqb_spec (N_of_ascii c) 160); rewrite ?andb_false_r; simpl; try done; lia.
Qed.

Lemma digit_char (d : N) :
  (d < 10)%N ->
  is_digit (ascii_of_N (48 + d)) = true /\
  (N_of_ascii (ascii_of_N (48 + d)) - 48 = d)%N.
Proof.
  intros Hd. unfold is_digit. rewrite N_ascii_embedding by lia.
  split; [|lia]. apply andb_true_iff. split; apply N.leb_le; lia.
Qed.

Lemma all_digits_uint (d : Decimal.uint) :
  all_chars is_digit (NilEmpty.string_of_uint d) = true.
Proof. induction d; simpl; done. Qed.

Lemma str_N_digits (n : N) :
  all_chars is_digit (str_N n) = true /\ str_N n <> EmptyString.
Proof.
  unfold str_N, NilZero.string_of_uint.
  destruct (N.to_uint n) eqn:E; (split; [try apply all_digits_uint|]); done.
Qed.

Lemma fixed_digits_digits (w : nat) : forall m,
  all_chars is_digit (fixed_digits w m) = true.
Proof.
  induction w as [|w IH]; intros m; [done|].
  cbn [fixed_digits]. rewrite all_chars_app, IH. cbn [all_chars andb].
  rewrite andb_true_r. apply digit_char. by apply N.mod_lt.
Qed.

Lemma string_length_app (s t : string) :
  String.length (s +:+ t) = (String.length s + String.length t)%nat.
Proof.
  induction s as [|c s IH]; [done|]. rewrite append_cons. simpl. by rewrite IH.
Qed.

Lemma fixed_digits_length (w : nat) : forall m, String.length (fixed_digits w m) = w.
Proof.
  induction w as [|w IH]; intros m; [done|].
  cbn [fixed_digits]. rewrite string_length_app, IH. simpl. lia.
Qed.

Lemma digits_acc_snoc s c : forall acc v,
  digits_acc acc s = Some v -> is_digit c = true ->
  digits_acc acc (s +:+ String c EmptyString) = Some (10 * v + (N_of_ascii c - 48))%N.
Proof.
  induction s as [|a s IH]; intros acc v Hs Hc.
  - rewrite append_nil_l. simpl in *. rewrite Hc. congruence.
  - rewrite append_cons. cbn [digits_acc] in *.
    destruct (is_digit a); [|done]. by apply IH.
Qed.

Lemma fixed_digits_value (w : nat) : forall m,
  digits_acc 0 (fixed_digits w m) = Some (m mod 10 ^ N.of_nat w)%N.
Proof.
  induction w as [|w IH]; intros m.
  - simpl. by rewrite N.mod_1_r.
  - cbn [fixed_digits].
    destruct (digit_char (m mod 10)) as [Hd Hv]; [by apply N.mod_lt|].
    rewrite (digits_acc_snoc _ _ _ _ (IH (m / 10)%N) Hd), Hv. f_equal.
    replace (N.of_nat (S w)) with (N.succ (N.of_nat w)) by lia.
    rewrite N.pow_succ_r', N.Div0.mod_mul_r. lia.
Qed.

Lemma span_digits_app d rest :
  all_chars is_digit d = true ->
  match rest with
  | EmptyString => true
  | String c _ => negb (is_digit c)
  end = true ->
  span_digits (d +:+ rest) = (d, rest).
Proof.
  intros Hd Hrest. induction d as [|c d IH].
  - rewrite append_nil_l. destruct rest as [|c r]; [done|].
    simpl. apply negb_true_iff in Hrest. by rewrite Hrest.
  - cbn [all_chars] in Hd. apply andb_true_iff in Hd as [Hc Hd].
    rewrite append_cons. cbn [span_digits]. by rewrite Hc, (IH Hd).
Qed.

(** [float] on a printed decimal: sign, digits, point, digits. *)
Lemma py_float_decimal (neg : bool) (ip fp : string) (i f : N) :
  all_chars is_digit ip = true -> ip <> EmptyString ->
  all_chars is_digit fp = true ->
  digits_acc 0 ip = Some i -> digits_acc 0 fp = Some f ->
  is_token ((if neg then "-" else EmptyString) +:+ ip +:+ "." +:+ fp) = true /\
  py_float ((if neg then "-" else EmptyString) +:+ ip +:+ "." +:+ fp) =
  Some (let v := (Q_of_N i + Q_of_N f / Q_of_N (10 ^ N.of_nat (String.length fp))) * 1 in
        if neg then - v else v).
Proof.
  intros Hip Hne Hfp Hi Hf.
  assert (Hbody : is_token (ip +:+ "." +:+ fp) = true).
  { destruct ip as [|c ip']; [done|]. rewrite append_cons. cbn [is_token].
    rewrite <- append_cons, !all_chars_app.
    rewrite (all_chars_impl _ _ _ (fun c H => proj2 (negb_true_iff _)
                                                (is_digit_not_sep c H)) Hip).
    rewrite (all_chars_impl _ _ _ (fun c H => proj2 (negb_true_iff _)
                                                (is_digit_not_sep c H)) Hfp).
    done. }
  assert (Htok : is_token ((if neg then "-" else EmptyString) +:+ ip +:+ "." +:+ fp) = true).
  { destruct neg; [|by rewrite append_nil_l].
    change ("-" +:+ ip +:+ "." +:+ fp) with (String "-"%char (ip +:+ "." +:+ fp)).
    cbn [is_token all_chars]. destruct (ip +:+ "." +:+ fp); done. }
  split; [done|].
  unfold py_float. rewrite (strip_token _ Htok).
  assert (Hsign : split_sign ((if neg then "-" else EmptyString) +:+ ip +:+ "." +:+ fp)
                  = (neg, ip +:+ "." +:+ fp)).
  { destruct neg; [done|]. rewrite append_nil_l.
    destruct ip as [|c ip']; [done|]. rewrite append_cons. unfold split_sign.
    cbn [all_chars] in Hip. apply andb_true_iff in Hip as [Hc _].
    destruct (Ascii.eqb c "-"%char) eqn:E1.
    { apply Ascii.eqb_eq in E1. subst c. done. }
    destruct (Ascii.eqb c "+"%char) eqn:E2; [|done].
    apply Ascii.eqb_eq in E2. subst c. done. }
  rewrite Hsign.
  change ("." +:+ fp) with (String "."%char fp).
  rewrite (span_digits_app ip (String "."%char fp) Hip eq_refl).
  change (Ascii.eqb "."%char "."%char) with true. cbv iota.
  rewrite <- (append_nil_r fp) at 1.
  rewrite (span_digits_app fp EmptyString Hfp eq_refl).
  destruct ip as [|c ip']; [done|].
  rewrite Hi, Hf. done.
Qed.

Lemma round_half_even_bounds (y : Q) :
  0 <= y ->
  (0 <= round_half_even y)%Z /\
  - (1 # 2) <= inject_Z (round_half_even y) - y /\
  inject_Z (round_half_even y) - y <= 1 # 2.
Proof.
  intros Hy. unfold round_half_even.
  pose proof (Qfloor_le y) as Hlo. pose proof (Qlt_floor y) as Hhi.
  rewrite inject_Z_plus in Hhi.
  assert (Hf : (0 <= Qfloor y)%Z).
  { change 0%Z with (Qfloor 0). by apply Qfloor_resp_le. }
  set (f := Qfloor y) in *.
  change (inject_Z 1) with 1 in Hhi.
  destruct (Qltb (y - inject_Z f) (1 # 2)) eqn:E1.
  { apply Qltb_lt in E1. split; [done|]. split; lra. }
  apply Qltb_ge in E1.
  assert (Hup : (0 <= f + 1)%Z /\ - (1 # 2) <= inject_Z (f + 1) - y /\
                inject_Z (f + 1) - y <= 1 # 2).
  { split; [lia|]. rewrite inject_Z_plus. change (inject_Z 1) with 1. split; lra. }
  destruct (Qltb (1 # 2) (y - inject_Z f)) eqn:E2; [done|].
  apply Qltb_ge in E2.
  destruct (Z.even f); [|done].
  split; [done|]. split; lra.
Qed.

Lemma format_6f_eq (x : Q) :
  format_6f x =
  (if Qltb x 0 then "-" else EmptyString) +:+ str_N (scaled_6 x / 1000000) +:+ "." +:+
  fixed_digits 6 (scaled_6 x mod 1000000).
Proof. reflexivity. Qed.

Lemma Q_of_N_div_mod (n : N) :
  Q_of_N n == (1000000 # 1) * Q_of_N (n / 1000000) + Q_of_N (n mod 1000000).
Proof.
  unfold Q_of_N.
  rewrite (N.Div0.div_mod n 1000000) at 1.
  rewrite N2Z.inj_add, N2Z.inj_mul, inject_Z_plus, inject_Z_mult. reflexivity.
Qed.

(** What is written with [.6f] is a token, and reading it gives a number
    within half a unit of the sixth decimal of the one written. *)
Lemma format_6f_value (x : Q) :
  is_token (format_6f x) = true /\
  exists v, py_float (format_6f x) = Some v /\
            - (1 # 2000000) <= v - x /\ v - x <= 1 # 2000000.
Proof.
  rewrite format_6f_eq.
  destruct (str_N_digits (scaled_6 x / 1000000)) as [Hip Hne].
  pose proof (fixed_digits_digits 6 (scaled_6 x mod 1000000)) as Hfp.
  pose proof (digits_acc_str_N (scaled_6 x / 1000000)) as Hi.
  pose proof (fixed_digits_value 6 (scaled_6 x mod 1000000)) as Hf.
  change (10 ^ N.of_nat 6)%N with 1000000%N in Hf.
  rewrite N.Div0.mod_mod in Hf.
  destruct (py_float_decimal (Qltb x 0) _ _ _ _ Hip Hne Hfp Hi Hf) as [Htok Hv].
  split; [done|]. eexists. split; [exact Hv|].
  rewrite fixed_digits_length.
  change (Q_of_N (10 ^ N.of_nat 6)) with (1000000 # 1).
  assert (Habs : 0 <= Qabs x * Q_of_N 1000000).
  { apply Qmult_le_0_compat; [apply Qabs_nonneg|done]. }
  destruct (round_half_even_bounds _ Habs) as (Hr0 & Hr1 & Hr2).
  pose proof (Q_of_N_div_mod (scaled_6 x)) as Hdm.
  assert (Hn : Q_of_N (scaled_6 x) == inject_Z (round_half_even (Qabs x * Q_of_N 1000000))).
  { unfold Q_of_N, scaled_6. by rewrite Z2N.id. }
  rewrite Hn in Hdm. clear Hn.
  set (A := Q_of_N (scaled_6 x / 1000000)) in *.
  set (B := Q_of_N (scaled_6 x mod 1000000)) in *.
  set (R := inject_Z (round_half_even (Qabs x * Q_of_N 1000000))) in *.
  change (Q_of_N 1000000) with (1000000 # 1) in *.
  unfold Qdiv. change (/ (1000000 # 1)) with (1 # 1000000).
  destruct (Qltb x 0) eqn:Ex; cbv zeta.
  - apply Qltb_lt in Ex.
    assert (Hx : Qabs x == - x) by (apply Qabs_neg; lra).
    rewrite Hx in Hr1, Hr2. split; lra.
  - apply Qltb_ge in Ex.
    assert (Hx : Qabs x == x) by (by apply Qabs_pos).
    rewrite Hx in Hr1, Hr2. split; lra.
Qed.

(* ===================================================================== *)
(** * Scene files: from the exporter to the importer *)

Section ReadBack.

Variable double : Q -> Prop.
Variable float_of : string -> option Q.
Hypothesis float_of_nearest : reads_nearest double float_of.

Lemma format_6f_values (xs : list Q) :
  Forall double xs ->
  exists vs, Forall2 (fun t v => float_of t = Some v) (map format_6f xs) vs /\
             Forall2 close xs vs.
Proof.
  induction 1 as [|x xs Hx _ (vs & H1 & H2)].
  - exists []. split; constructor.
  - destruct (format_6f_value x) as (_ & q & Hq & Hc).
    destruct (float_of_nearest _ _ x Hq Hx) as (v & Hv & Hvq); [lra..|].
    exists (v :: vs). split; constructor; try done.
    unfold close.
    assert (Hxq : Qabs (x - q) <= 1 # 2000000) by (apply Qabs_Qle_condition; lra).
    assert (Hvq' : Qabs (v - q) <= 1 # 2000000) by (eapply Qle_trans; eassumption).
    apply Qabs_Qle_condition in Hvq'. lra.
Qed.

(** A line of numbers written with [.6f] is read back by [parse_floats]. *)
Lemma parse_floats_line (xs : list Q) (n : nat) :
  xs <> [] -> length xs = n -> Forall double xs ->
  clean_line (join_sp (map format_6f xs)) = true /\
  exists vs, parse_floats float_of (join_sp (map format_6f xs)) n = Ok vs /\
             Forall2 close xs vs.
Proof.
  intros Hne Hlen Hdbl.
  assert (Htok : Forall (fun t => is_token t = true) (map format_6f xs)).
  { clear. induction xs as [|x xs IH]; constructor; [|done].
    apply format_6f_value. }
  assert (Hne' : map format_6f xs <> []) by (by destruct xs).
  pose proof (clean_line_join_sp _ Htok Hne') as Hclean.
  split; [done|].
  destruct (clean_line_parts _ Hclean) as (Hf & Hl & _ & _).
  destruct (format_6f_values xs Hdbl) as (vs & Hvs & Hclose).
  exists vs. split; [|done].
  unfold parse_floats.
  rewrite (strip_clean _ Hf Hl), (re_split_join_sp _ Htok Hne').
  rewrite (mapM_Some_2 _ _ _ Hvs).
  apply Forall2_length in Hclose. rewrite decide_True by lia. done.
Qed.

Lemma substring_all (s : string) : String.substring 0 (String.length s) s = s.
Proof. induction s as [|c s IH]; [done|]. simpl. by rewrite IH. Qed.

(** What stripping leaves. *)
Lemma rstrip_last s : rstrip s = EmptyString \/ last_ok (rstrip s) = true.
Proof.
  induction s as [|c s IH]; [by left|]. cbn [rstrip].
  destruct (rstrip s) as [|c' r] eqn:E.
  - destruct (is_space c) eqn:Ec; [by left|]. right. simpl. by rewrite Ec.
  - right. destruct IH as [|IH]; [done|]. by rewrite last_ok_cons.
Qed.

Lemma lstrip_last t :
  last_ok t = true -> first_ok (lstrip t) = true /\ last_ok (lstrip t) = true.
Proof.
  induction t as [|c t IH]; [done|]. intros H. cbn [lstrip].
  destruct (is_space c) eqn:Ec.
  - destruct t as [|c' t']; [simpl in H; by rewrite Ec in H|].
    rewrite last_ok_cons in H. by apply IH.
  - split; [|done]. simpl. by rewrite Ec.
Qed.

Lemma strip_first_last s :
  strip s = EmptyString \/ (first_ok (strip s) = true /\ last_ok (strip s) = true).
Proof.
  unfold strip. destruct (rstrip_last s) as [->|H]; [by left|].
  right. by apply lstrip_last.
Qed.

Lemma replace_spaces_first s : first_ok s = true -> first_ok (replace_spaces s) = true.
Proof.
  destruct s as [|c s]; [done|]. simpl.
  destruct (Ascii.eqb c " "%char) eqn:E; [|done].
  apply Ascii.eqb_eq in E. subst c. done.
Qed.

Lemma replace_spaces_last s : last_ok s = true -> last_ok (replace_spaces s) = true.
Proof.
  induction s as [|c s IH]; [done|]. cbn [replace_spaces].
  destruct s as [|c' s'].
  - simpl. destruct (Ascii.eqb c " "%char) eqn:E; [|done].
    apply Ascii.eqb_eq in E. subst c. done.
  - rewrite last_ok_cons. intros H. specialize (IH H).
    cbn [replace_spaces] in *. by rewrite last_ok_cons.
Qed.

Lemma name_ok_line (o : SceneObject) :
  name_ok o = true ->
  strip (exported_name o) = exported_name o /\
  exported_name o <> EmptyString /\
  clean_line ("* " +:+ exported_name o) = true.
Proof.
  unfold name_ok. intros H.
  assert (Hne : exported_name o <> EmptyString) by (by destruct (exported_name o)).
  assert (Hnb : all_chars (fun c => negb (is_break c)) (exported_name o) = true).
  { by destruct (exported_name o). }
  assert (Hfl : first_ok (exported_name o) = true /\ last_ok (exported_name o) = true).
  { unfold exported_name in *. destruct (strip_first_last (o_name o)) as [E|[H1 H2]].
    - rewrite E in Hne. done.
    - split; [by apply replace_spaces_first|by apply replace_spaces_last]. }
  destruct Hfl as [Hf Hl].
  split; [by apply strip_clean|]. split; [done|].
  unfold clean_line.
  change ("* " +:+ exported_name o) with (String "*"%char (String " "%char (exported_name o))).
  destruct (exported_name o) as [|c r] eqn:E; [done|].
  rewrite !last_ok_cons, Hl. cbn [first_ok all_chars] in *. by rewrite Hnb.
Qed.

Lemma scene_entries_block l0 l1 l2 l3 l4 l5 l6 l7 l8 l9 rest entries
    pos quat size :
  startswith "* " l0 = true ->
  parse_floats float_of l1 3 = Ok pos ->
  parse_floats float_of l2 4 = Ok quat ->
  parse_floats float_of l5 3 = Ok size ->
  scene_entries float_of
    (l0 :: l1 :: l2 :: l3 :: l4 :: l5 :: l6 :: l7 :: l8 :: l9 :: rest) entries =
  scene_entries float_of rest
    (entries ++ [mkEntry
                   match strip (String.substring 2 (String.length l0 - 2) l0) with
                   | EmptyString => "cube"
                   | nm => nm
                   end pos quat (lower (strip l4)) size]).
Proof.
  intros H0 H1 H2 H5. cbn [scene_entries]. rewrite H0. cbn [negb].
  by rewrite H1, H2, H5.
Qed.

(** The block of an object is read back as one entry that matches it. *)
Lemma export_block_entry (o : SceneObject) :
  name_ok o = true -> Forall double (object_values o) ->
  Forall (fun l => clean_line l = true) (export_block o) /\
  exists e, entry_matches o e /\
    forall rest entries,
      scene_entries float_of (export_block o ++ rest) entries =
      scene_entries float_of rest (entries ++ [e]).
Proof.
  intros Hok Hdbl. destruct (name_ok_line o Hok) as (Hstrip & Hne & Hclean).
  unfold entry_matches. revert Hstrip Hne Hclean Hdbl.
  unfold exported_name, export_block, object_values.
  destruct o as [name mesh [[tx ty] tz] [[[qx qy] qz] qw] [[dx dy] dz]].
  cbn [o_name o_t o_q o_dims list3 list4]. unfold SANITIZE_NAMES.
  set (nm := replace_spaces (strip name)). intros Hstrip Hne Hclean Hdbl.
  apply Forall_app in Hdbl as [Hdt Hdbl]. apply Forall_app in Hdbl as [Hdq Hdd].
  destruct (parse_floats_line [tx; ty; tz] 3) as (Hc1 & pos & Hpos & Hpc); [done..|].
  destruct (parse_floats_line [qx; qy; qz; qw] 4) as (Hc2 & quat & Hquat & Hqc); [done..|].
  destruct (parse_floats_line [dx; dy; dz] 3) as (Hc5 & size & Hsize & Hsc); [done..|].
  change (join_sp (map format_6f [tx; ty; tz]))
    with (format_6f tx +:+ " " +:+ format_6f ty +:+ " " +:+ format_6f tz) in *.
  change (join_sp (map format_6f [qx; qy; qz; qw]))
    with (format_6f qx +:+ " " +:+ format_6f qy +:+ " " +:+ format_6f qz +:+ " "
          +:+ format_6f qw) in *.
  change (join_sp (map format_6f [dx; dy; dz]))
    with (format_6f dx +:+ " " +:+ format_6f dy +:+ " " +:+ format_6f dz) in *.
  split.
  { repeat (constructor; [done|]). constructor. }
  exists (mkEntry nm pos quat "box" size).
  split; [done|].
  intros rest entries. cbn [app].
  rewrite (scene_entries_block _ _ _ _ _ _ _ _ _ _ rest entries pos quat size);
    [|reflexivity|exact Hpos|exact Hquat|exact Hsize].
  change ("* " +:+ nm) with (String "*"%char (String " "%char nm)).
  cbn [String.length String.substring Nat.sub].
  rewrite Nat.sub_0_r, substring_all, Hstrip.
  destruct nm as [|c r]; [done|]. done.
Qed.

Lemma scene_entries_blocks (objs : list SceneObject) : forall entries,
  Forall (fun o => name_ok o = true) objs ->
  Forall (fun o => Forall double (object_values o)) objs ->
  Forall (fun l => clean_line l = true) (concat (map export_block objs)) /\
  exists es, Forall2 entry_matches objs es /\
    scene_entries float_of (concat (map export_block objs) ++ ["."]) entries
    = Ok (entries ++ es).
Proof.
  induction objs as [|o objs IH]; intros entries Hok Hdbl.
  - split; [constructor|]. exists []. split; [constructor|].
    simpl. by rewrite app_nil_r.
  - apply Forall_cons in Hok as [Ho Hok]. apply Forall_cons in Hdbl as [Hd Hdbl].
    destruct (export_block_entry o Ho Hd) as (Hclean & e & He & Hstep).
    destruct (IH (entries ++ [e]) Hok Hdbl) as (Hcleans & es & Hes & Hrun).
    cbn [map concat]. split; [by apply Forall_app|].
    exists (e :: es). split; [by constructor|].
    rewrite <- app_assoc, Hstep, Hrun. by rewrite <- app_assoc.
Qed.

End ReadBack.

Lemma py_float_reads_nearest : reads_nearest (fun _ => True) py_float.
Proof.
  intros s q x Hq _ _ _. exists q. split; [done|].
  eapply Qle_trans; [|apply Qabs_nonneg]. apply Qabs_Qle_condition. lra.
Qed.

Lemma insert_sorted_perm {A} (lt : A -> A -> bool) x l :
  insert_sorted lt x l ≡ₚ x :: l.
Proof.
  induction l as [|y l IH]; [done|]. simpl.
  destruct (lt y x); [|done]. rewrite IH. apply Permutation_swap.
Qed.

Lemma sorted_perm {A} (lt : A -> A -> bool) l : sorted lt l ≡ₚ l.
Proof.
  induction l as [|x l IH]; [done|]. simpl. by rewrite insert_sorted_perm, IH.
Qed.




(* ===================================================================== *)
(** * Further properties of the trajectory parser *)

(** The parser in terms of the data lines of the file. *)
Lemma parse_single_arm_data float_of (fs : FileSystem) filepath contents
    delim_mode time_unit has_header degrees :
  fs !! filepath = Some contents ->
  parse_single_arm float_of fs filepath delim_mode time_unit has_header degrees =
  match read_data float_of delim_mode time_unit degrees
                  (data_lines has_header (file_lines contents)) [] [] with
  | Raise msg => Raise msg
  | Ok (times, joints) =>
      match times with
      | [] => Raise "No valid data rows found."
      | _ => Ok (sort_dedup times joints)
      end
  end.
Proof.
  intros Hfs. unfold parse_single_arm. rewrite Hfs, read_rows_read_data.
  unfold data_lines. by rewrite andb_true_r.
Qed.

(** A reading loop that ends well has appended the row of every data line,
    and every data line had its fifteen numbers. *)
Lemma read_data_rows float_of delim_mode time_unit degrees dl : forall times joints r,
  read_data float_of delim_mode time_unit degrees dl times joints = Ok r ->
  r = (times ++ map fst (map (row_of float_of delim_mode time_unit degrees) dl),
       joints ++ map snd (map (row_of float_of delim_mode time_unit degrees) dl)) /\
  Forall (fun line => (15 <= length (line_values float_of delim_mode line))%nat) dl.
Proof.
  induction dl as [|line dl IH]; intros times joints r.
  - cbn [read_data map]. intros [= <-]. by rewrite !app_nil_r.
  - cbn [read_data].
    destruct (floats float_of (split_fields delim_mode (strip line))) as [vals|] eqn:Ef;
      [|done].
    destruct (length vals <? 15)%nat eqn:El; [done|].
    apply Nat.ltb_ge in El. intros Hr. apply IH in Hr as [-> Hall].
    assert (Hv : line_values float_of delim_mode line = vals).
    { unfold line_values. by rewrite Ef. }
    split.
    + cbn [map]. generalize (map (row_of float_of delim_mode time_unit degrees) dl).
      intros rows. unfold row_of. rewrite Hv. cbn [fst snd].
      by rewrite <- !app_assoc.
    + constructor; [by rewrite Hv|done].
Qed.

(** The pose of a row with fifteen numbers has seven components. *)
Lemma row_of_length float_of delim_mode time_unit degrees line :
  (15 <= length (line_values float_of delim_mode line))%nat ->
  length (snd (row_of float_of delim_mode time_unit degrees line)) = 7%nat.
Proof.
  intros Hl. unfold row_of. cbn [snd].
  destruct degrees; rewrite ?length_map, length_take, length_drop; lia.
Qed.

(** A successful parse is the sorted and collapsed list of the rows of the
    data lines. *)
Lemma parse_single_arm_collapse float_of (fs : FileSystem) filepath contents
    delim_mode time_unit has_header degrees T :
  fs !! filepath = Some contents ->
  parse_single_arm float_of fs filepath delim_mode time_unit has_header degrees = Ok T ->
  let dl := data_lines has_header (file_lines contents) in
  let c := collapse (sorted time_lt (map (row_of float_of delim_mode time_unit degrees) dl)) in
  dl <> [] /\ T = mkTraj (map fst c) (map snd c) /\
  Forall (fun line => (15 <= length (line_values float_of delim_mode line))%nat) dl.
Proof.
  intros Hfs Hp dl c. rewrite (parse_single_arm_data _ _ _ _ _ _ _ _ Hfs) in Hp.
  fold dl in Hp.
  destruct (read_data _ _ _ _ dl [] []) as [[times joints]|] eqn:Hr; [|done].
  apply read_data_rows in Hr as [[= -> ->] Hall].
  split; [by intros Hdl; rewrite Hdl in Hp|].
  split; [|done].
  destruct (map fst (map _ dl)) eqn:E; [done|]. rewrite <- E in Hp.
  injection Hp as <-. rewrite sort_dedup_collapse. by rewrite zip_fst_snd.
Qed.

Lemma gapped_cons_intro x l :
  gapped l = true -> (forall y, head l = Some y -> x + eps12 <= y) ->
  gapped (x :: l) = true.
Proof.
  intros Hl Hx. simpl. destruct l as [|y l]; [done|].
  apply andb_true_iff. split; [|done]. apply Qleb_le. by apply Hx.
Qed.

Lemma collapse_from_gapped l : forall prev,
  time_sorted (prev :: l) ->
  gapped (map fst (collapse_from prev l)) = true.
Proof.
  induction l as [|p l IH]; intros prev Hs; [done|].
  pose proof (StronglySorted_inv Hs) as [Hs' Hall].
  cbn [collapse_from].
  destruct (Qltb (Qabs (fst p - fst prev)) eps12) eqn:E; [by apply IH|].
  cbn [map]. apply gapped_cons_intro; [by apply IH|].
  intros y Hy.
  assert (Hgap : fst prev + eps12 <= fst p).
  { apply no_collapse_gap; [|done]. inversion Hall; done. }
  assert (Hpy : fst p <= y).
  { destruct (collapse_from p l) as [|e c] eqn:Ec; [done|].
    simpl in Hy. injection Hy as <-.
    eapply (time_sorted_head p l e Hs'), collapse_from_elem.
    rewrite Ec. by left. }
  lra.
Qed.

Lemma collapse_from_length l : forall prev,
  (1 <= length (collapse_from prev l) <= S (length l))%nat.
Proof.
  induction l as [|p l IH]; intros prev; cbn [collapse_from length]; [lia|].
  destruct (Qltb _ _); cbn [length]; specialize (IH p); lia.
Qed.

Lemma collapse_length l : (length (collapse l) <= length l)%nat.
Proof.
  destruct l as [|p l]; [done|]. cbn [collapse length].
  pose proof (collapse_from_length l p). lia.
Qed.

Lemma collapse_nonempty l : l <> [] -> collapse l <> [].
Proof.
  destruct l as [|p l]; [done|]. intros _ Hc. cbn [collapse] in Hc.
  pose proof (collapse_from_length l p) as Hl. rewrite Hc in Hl. simpl in Hl. lia.
Qed.

Lemma collapse_elem l e : e ∈ collapse l -> e ∈ l.
Proof.
  destruct l as [|p l]; [done|]. apply collapse_from_elem.
Qed.

Lemma collapse_gapped l : time_sorted l -> gapped (map fst (collapse l)) = true.
Proof.
  destruct l as [|p l]; [done|]. apply collapse_from_gapped.
Qed.

Lemma sorted_length {A} (lt : A -> A -> bool) l : length (sorted lt l) = length l.
Proof. apply Permutation_length, sorted_perm. Qed.

(** The row that stands at the end of the collapse is the last row. *)
Lemma collapse_from_last_row l : forall prev,
  last (collapse_from prev l) = last (prev :: l).
Proof.
  induction l as [|p l IH]; intros prev; [done|].
  cbn [collapse_from]. rewrite last_cons_cons.
  destruct (Qltb _ _); [apply IH|].
  rewrite <- IH. destruct (collapse_from p l) eqn:E; [|by rewrite last_cons_cons].
  pose proof (collapse_from_length l p) as Hl. rewrite E in Hl. simpl in Hl. lia.
Qed.

Lemma time_sorted_last l e r :
  time_sorted l -> last l = Some e -> r ∈ l -> fst r <= fst e.
Proof.
  induction l as [|p l IH]; intros Hs Hl Hr; [done|].
  destruct l as [|p' l].
  - injection Hl as <-. apply list_elem_of_singleton in Hr as ->. apply Qle_refl.
  - rewrite last_cons_cons in Hl.
    pose proof (StronglySorted_inv Hs) as [Hs' Hall].
    apply elem_of_cons in Hr as [->|Hr]; [|by apply IH].
    rewrite Forall_forall in Hall. apply Hall, list_elem_of_lookup.
    rewrite last_lookup in Hl. eauto.
Qed.

(** X3.  The result of the parser, a trajectory or an error, depends on the
    file only through its data lines: blank lines, comment lines and the
    text of a header line have no influence, and a file with a header line
    parses like the same file without it. *)
Theorem parse_single_arm_data_lines_only (float_of : string -> option Q)
    (fs fs' : FileSystem) (filepath filepath' contents contents' : string)
    (delim_mode : Delim) (time_unit : TimeUnit) (has_header has_header' degrees : bool) :
  fs !! filepath = Some contents -> fs' !! filepath' = Some contents' ->
  data_lines has_header (file_lines contents) =
  data_lines has_header' (file_lines contents') ->
  parse_single_arm float_of fs filepath delim_mode time_unit has_header degrees =
  parse_single_arm float_of fs' filepath' delim_mode time_unit has_header' degrees.
Proof.
  intros Hfs Hfs' Hdl.
  rewrite (parse_single_arm_data _ _ _ _ _ _ _ _ Hfs).
  rewrite (parse_single_arm_data _ _ _ _ _ _ _ _ Hfs').
  by rewrite Hdl.
Qed.

Lemma parse_single_arm_data_lines_only_witness :
  parse_single_arm py_float
    {["a.txt" := "# recorded on the robot
t q1 q2 q3 q4 q5 q6 q7 v1 v2 v3 v4 v5 v6 v7

" +:+ good_file]} "a.txt" AUTO SECONDS true false =
  parse_single_arm py_float {["b.txt" := good_file]} "b.txt" AUTO SECONDS false false.
Proof.
  eapply parse_single_arm_data_lines_only.
  - apply lookup_singleton_eq.
  - apply lookup_singleton_eq.
  - by vm_compute.
Defined.

Lemma sorted_id l : nondecreasing (map fst l) = true -> sorted time_lt l = l.
Proof.
  induction l as [|x l IH]; [done|]. intros Hn. cbn [sorted].
  destruct l as [|y l]; [done|].
  cbn [map nondecreasing] in Hn. apply andb_true_iff in Hn as [Hxy Hn].
  rewrite IH by done. cbn [insert_sorted]. unfold time_lt at 1.
  apply Qleb_le in Hxy. apply Qltb_ge in Hxy. by rewrite Hxy.
Qed.

Lemma gapped_nondecreasing l : gapped l = true -> nondecreasing l = true.
Proof.
  induction l as [|x l IH]; [done|]. destruct l as [|y l]; [done|].
  cbn [gapped nondecreasing]. intros [Hxy Hg]%andb_true_iff.
  apply andb_true_iff. split; [|by apply IH].
  apply Qleb_le in Hxy. apply Qleb_le. pose proof eps12_pos. lra.
Qed.

Lemma collapse_from_id l : forall prev,
  gapped (map fst (prev :: l)) = true -> collapse_from prev l = prev :: l.
Proof.
  induction l as [|p l IH]; intros prev Hg; [done|].
  cbn [map gapped] in Hg. apply andb_true_iff in Hg as [Hxy Hg].
  cbn [collapse_from]. apply Qleb_le in Hxy.
  assert (E : Qltb (Qabs (fst p - fst prev)) eps12 = false).
  { pose proof eps12_pos. apply Qltb_ge. rewrite Qabs_pos; lra. }
  rewrite E. f_equal. by apply IH.
Qed.

(** X4.  The pass of the parser that sorts the rows and collapses
    near-duplicates changes nothing when it is run again on its own
    result. *)
Theorem sort_dedup_idempotent (times : list Q) (joints : list Pose) :
  let T := sort_dedup times joints in
  sort_dedup (traj_t T) (traj_q T) = T.
Proof.
  cbn zeta. rewrite (sort_dedup_collapse times joints). cbn [traj_t traj_q].
  set (c := collapse (sorted time_lt (zip times joints))).
  assert (Hg : gapped (map fst c) = true) by apply collapse_gapped, sorted_sorted.
  rewrite sort_dedup_collapse, zip_fst_snd.
  rewrite sorted_id by by apply gapped_nondecreasing.
  destruct c as [|p l]; [done|]. cbn [collapse]. by rewrite collapse_from_id.
Qed.

(* ===================================================================== *)
(** * Further properties of the sampler *)

Lemma zip_length {A B} (a : list A) (b : list B) :
  length (zip a b) = Nat.min (length a) (length b).
Proof.
  revert b. induction a as [|x a IH]; intros [|y b]; simpl; auto.
Qed.

Lemma blend_length r q0 q1 : length (blend r q0 q1) = Nat.min (length q0) (length q1).
Proof. unfold blend. by rewrite length_map, zip_length. Qed.

(** On a trajectory with at least one sample, times that never decrease and
    one pose per time, the sampler returns, for every query time, a pose of
    the trajectory or a blend of two of them. *)
Lemma sample_q_cases T q :
  traj_t T <> [] -> nondecreasing (traj_t T) = true ->
  length (traj_q T) = length (traj_t T) ->
  exists p, sample_q T q = Some p /\
    (p ∈ traj_q T \/
     exists r q0 q1, q0 ∈ traj_q T /\ q1 ∈ traj_q T /\ p = blend r q0 q1).
Proof.
  intros Hne Hs Hlen.
  assert (Hq : forall k, (k < length (traj_t T))%nat ->
                 exists p, traj_q T !! k = Some p /\ p ∈ traj_q T).
  { intros k Hk. rewrite <- Hlen in Hk. apply lookup_lt_is_Some_2 in Hk as [p Hp].
    exists p. split; [done|]. by eapply list_elem_of_lookup_2. }
  destruct (traj_t T !! 0%nat) as [t0|] eqn:H0.
  2:{ apply lookup_ge_None in H0. destruct (traj_t T); [done|simpl in H0; lia]. }
  pose proof (lookup_lt_Some _ _ _ H0) as Hpos.
  destruct (traj_t T !! pred (length (traj_t T))) as [tl|] eqn:Hl.
  2:{ apply lookup_ge_None in Hl. lia. }
  destruct (Qlt_le_dec t0 q) as [Hlt|Hle].
  2:{ destruct (Hq 0%nat Hpos) as (p & Hp & Hn). exists p. split; [|by left].
      rewrite (sample_q_left T q t0); [by rewrite head_lookup_0|by rewrite head_lookup_0|done]. }
  destruct (Qlt_le_dec q tl) as [Hltl|Hlel].
  2:{ destruct (Hq (pred (length (traj_t T)))) as (p & Hp & Hn); [lia|].
      exists p. split; [|by left].
      rewrite (sample_q_right T q t0 tl);
        [by rewrite last_lookup_pred, Hlen|by rewrite head_lookup_0
        |by rewrite last_lookup_pred|done|done]. }
  destruct (bisect_left_spec (traj_t T) q Hs) as (i & _ & Hi & Hbelow & Habove).
  assert (Hi1 : (1 <= i)%nat).
  { destruct i as [|i]; [|lia]. exfalso.
    pose proof (Habove 0%nat t0 (Nat.le_refl _) H0). lra. }
  assert (Hi2 : (i < length (traj_t T))%nat).
  { destruct (decide (i < length (traj_t T))%nat) as [|Hge]; [done|]. exfalso.
    assert (Hp : (pred (length (traj_t T)) < i)%nat) by lia.
    pose proof (Hbelow _ tl Hp Hl). lra. }
  destruct i as [|i]; [lia|].
  destruct (lookup_lt_is_Some_2 (traj_t T) i) as [a Ha]; [lia|].
  destruct (lookup_lt_is_Some_2 (traj_t T) (S i)) as [b Hb]; [lia|].
  destruct (Hq i) as (q0 & Hq0 & Hn0); [lia|].
  destruct (Hq (S i)) as (q1 & Hq1 & Hn1); [lia|].
  pose proof (Hbelow i a (Nat.lt_succ_diag_r _) Ha) as Haq.
  pose proof (Habove (S i) b (Nat.le_refl _) Hb) as Hqb.
  eexists. split.
  - apply (sample_q_interior T q i a b tl q0 q1); try done.
    by rewrite last_lookup_pred.
  - destruct (Qleb b (a + eps12)); [by left|]. right.
    eexists _, q0, q1. split; [done|]. split; [done|reflexivity].
Qed.

Lemma sample_q_some n T q :
  traj_t T <> [] -> nondecreasing (traj_t T) = true -> well_formed n T ->
  exists p, sample_q T q = Some p /\ length p = n.
Proof.
  intros Hne Hs [Hlen Hall]. rewrite Forall_forall in Hall.
  destruct (sample_q_cases T q Hne Hs Hlen) as (p & Hp & Hc).
  exists p. split; [done|].
  destruct Hc as [Hin|(r & q0 & q1 & H0 & H1 & ->)]; [by apply Hall|].
  rewrite blend_length, (Hall _ H0), (Hall _ H1). lia.
Qed.

(** X5.  The parser and the sampler fit together: on a trajectory returned
    by the parser the sampler raises no error at any query time, and the
    pose it returns has seven joint values. *)
Theorem sample_q_parsed_total (float_of : string -> option Q)
    (fs : FileSystem) (filepath : string) (delim_mode : Delim)
    (time_unit : TimeUnit) (has_header degrees : bool) (T : Trajectory) (t : Q) :
  parse_single_arm float_of fs filepath delim_mode time_unit has_header degrees = Ok T ->
  exists p, sample_q T t = Some p /\ length p = 7%nat.
Proof.
  intros Hp.
  destruct (fs !! filepath) as [contents|] eqn:Hfs.
  2:{ unfold parse_single_arm in Hp. by rewrite Hfs in Hp. }
  destruct (parse_single_arm_collapse _ _ _ _ _ _ _ _ _ Hfs Hp) as (Hne & -> & Hall).
  set (rows := map (row_of float_of delim_mode time_unit degrees)
                   (data_lines has_header (file_lines contents))).
  assert (Hc : collapse (sorted time_lt rows) <> []).
  { apply collapse_nonempty. intros Hs.
    apply (f_equal length) in Hs. rewrite sorted_length in Hs.
    unfold rows in Hs. rewrite length_map in Hs.
    by destruct (data_lines has_header (file_lines contents)). }
  apply sample_q_some; cbn [traj_t traj_q].
  - by destruct (collapse (sorted time_lt rows)).
  - apply gapped_nondecreasing, collapse_gapped, sorted_sorted.
  - split; cbn [traj_t traj_q]; [by rewrite !length_map|].
    apply Forall_forall. intros p [e [-> He]]%list_elem_of_fmap.
    apply collapse_elem in He. apply (proj1 (sorted_elem _ _)) in He.
    apply list_elem_of_fmap in He as [line [-> Hline]].
    apply row_of_length. rewrite Forall_forall in Hall. by apply Hall.
Qed.

Lemma sample_q_parsed_total_witness :
  exists T,
    parse_single_arm py_float {["traj.txt" := good_file]} "traj.txt"
                     AUTO SECONDS false false = Ok T /\
    exists p, sample_q T (11 # 2) = Some p /\ length p = 7%nat.
Proof.
  eexists. split; [by vm_compute|].
  eapply (sample_q_parsed_total py_float {["traj.txt" := good_file]} "traj.txt"
            AUTO SECONDS false false).
  by vm_compute.
Defined.

(* ===================================================================== *)
(** * The degrees flag of the parser *)

Lemma insert_sorted_map {A} (lt : A -> A -> bool) (g : A -> A) x l :
  (forall a b, lt (g a) (g b) = lt a b) ->
  insert_sorted lt (g x) (map g l) = map g (insert_sorted lt x l).
Proof.
  intros Hg. induction l as [|y l IH]; [done|].
  cbn [map insert_sorted]. rewrite Hg. destruct (lt y x); [|done].
  cbn [map]. by rewrite IH.
Qed.

Lemma sorted_map {A} (lt : A -> A -> bool) (g : A -> A) l :
  (forall a b, lt (g a) (g b) = lt a b) ->
  sorted lt (map g l) = map g (sorted lt l).
Proof.
  intros Hg. induction l as [|x l IH]; [done|].
  cbn [map sorted]. by rewrite IH, insert_sorted_map.
Qed.

Lemma collapse_from_map (g : Q * Pose -> Q * Pose) l : forall prev,
  (forall a, fst (g a) = fst a) ->
  collapse_from (g prev) (map g l) = map g (collapse_from prev l).
Proof.
  induction l as [|p l IH]; intros prev Hg; [done|].
  cbn [map collapse_from]. rewrite !Hg.
  destruct (Qltb _ _); cbn [map]; by rewrite IH.
Qed.

Lemma zip_map_r {A B C} (f : B -> C) (a : list A) (b : list B) :
  zip a (map f b) = map (fun p => (fst p, f (snd p))) (zip a b).
Proof.
  revert b. induction a as [|x a IH]; intros [|y b]; cbn [zip map]; [done..|].
  by rewrite IH.
Qed.

Lemma sort_dedup_map (f : Pose -> Pose) times joints :
  sort_dedup times (map f joints) =
  mkTraj (traj_t (sort_dedup times joints)) (map f (traj_q (sort_dedup times joints))).
Proof.
  rewrite !sort_dedup_collapse. cbn [traj_t traj_q].
  rewrite zip_map_r.
  rewrite (sorted_map time_lt (fun p => (fst p, f (snd p)))) by done.
  destruct (sorted time_lt (zip times joints)) as [|p l]; [done|].
  cbn [map collapse].
  rewrite (collapse_from_map (fun p => (fst p, f (snd p)))) by done.
  by rewrite !map_map.
Qed.

Lemma read_data_degrees float_of delim_mode time_unit dl : forall times joints,
  read_data float_of delim_mode time_unit true dl times (map (map radians) joints) =
  match read_data float_of delim_mode time_unit false dl times joints with
  | Ok (ts, js) => Ok (ts, map (map radians) js)
  | Raise msg => Raise msg
  end.
Proof.
  induction dl as [|line dl IH]; intros times joints; [done|].
  cbn [read_data].
  destruct (floats float_of (split_fields delim_mode (strip line))) as [vals|]; [|done].
  destruct (length vals <? 15)%nat; [done|].
  rewrite <- IH. by rewrite map_app.
Qed.

(** X6.  The degrees flag only converts the joint values: with the flag the
    parser fails exactly when it fails without it, with the same message,
    and otherwise returns the same times and the same poses with every
    joint value converted to radians. *)
Theorem parse_single_arm_degrees (float_of : string -> option Q)
    (fs : FileSystem) (filepath : string) (delim_mode : Delim)
    (time_unit : TimeUnit) (has_header : bool) :
  parse_single_arm float_of fs filepath delim_mode time_unit has_header true =
  match parse_single_arm float_of fs filepath delim_mode time_unit has_header false with
  | Ok T => Ok (mkTraj (traj_t T) (map (map radians) (traj_q T)))
  | Raise msg => Raise msg
  end.
Proof.
  destruct (fs !! filepath) as [contents|] eqn:Hfs.
  2:{ unfold parse_single_arm. by rewrite Hfs. }
  rewrite !(parse_single_arm_data _ _ _ _ _ _ _ _ Hfs).
  pose proof (read_data_degrees float_of delim_mode time_unit
                (data_lines has_header (file_lines contents)) [] []) as Hd.
  cbn [map] in Hd. rewrite Hd.
  destruct (read_data _ _ _ false _ [] []) as [[ts js]|]; [|done].
  destruct ts as [|t ts]; [done|]. by rewrite sort_dedup_map.
Qed.

(* ===================================================================== *)
(** * Bones and the binding cache *)

Lemma bone_angle_bone_names objs ref :
  is_Some (bone_angle objs ref) <->
  exists bs, bone_names <$> objs !! ref.1 = Some (Some bs) /\ ref.2 ∈ bs.
Proof.
  unfold bone_angle. destruct (objs !! ref.1) as [[bones|]|]; cbn.
  - rewrite <- elem_of_dom. split.
    + intros H. by exists (dom bones).
    + by intros (bs & [= <-] & H).
  - split; [by intros [? ?]|]. by intros (bs & [=] & _).
  - split; [by intros [? ?]|]. by intros (bs & [=] & _).
Qed.

Lemma same_bones_ref_ok objs objs' r :
  same_bones objs objs' -> ref_ok objs r -> ref_ok objs' r.
Proof.
  intros Hs Hr ref ->. apply bone_angle_bone_names.
  destruct (proj1 (bone_angle_bone_names objs ref) (Hr ref eq_refl)) as (bs & Hb & Hin).
  exists bs. by rewrite Hs.
Qed.

Lemma same_bones_trans o1 o2 o3 :
  same_bones o1 o2 -> same_bones o2 o3 -> same_bones o1 o3.
Proof. intros H1 H2 name. by rewrite H2, H1. Qed.

Lemma set_bone_same_bones r v objs :
  ref_ok objs r -> same_bones objs (set_bone r v objs).
Proof.
  intros Hr name. destruct r as [[o b]|]; [|done]. cbn [set_bone].
  destruct (objs !! o) as [[bones|]|] eqn:Ho; [|done..].
  destruct (decide (name = o)) as [->|Hne]; [|by rewrite lookup_insert_ne].
  rewrite lookup_insert_eq, Ho. cbn. do 2 f_equal.
  destruct (Hr (o, b) eq_refl) as [x Hx]. unfold bone_angle in Hx. cbn in Hx.
  rewrite Ho in Hx. apply dom_insert_lookup_L. by exists x.
Qed.

Lemma set_bone_angle_eq ref v objs :
  is_Some (bone_angle objs ref) -> bone_angle (set_bone (Some ref) v objs) ref = Some v.
Proof.
  destruct ref as [o b]. unfold bone_angle. cbn [set_bone fst snd].
  destruct (objs !! o) as [[bones|]|] eqn:Ho; [|by intros [? ?]..].
  intros _. rewrite lookup_insert_eq. apply lookup_insert_eq.
Qed.

Lemma set_bone_angle_ne r ref v objs :
  r <> Some ref -> bone_angle (set_bone r v objs) ref = bone_angle objs ref.
Proof.
  intros Hne. destruct r as [[o b]|]; [|done]. cbn [set_bone].
  destruct (objs !! o) as [[bones|]|] eqn:Ho; [|done..].
  destruct ref as [o' b']. unfold bone_angle. cbn [fst snd].
  destruct (decide (o' = o)) as [->|Ho']; [|by rewrite lookup_insert_ne].
  rewrite lookup_insert_eq, Ho. apply lookup_insert_ne. congruence.
Qed.

Lemma set_bone_angle_is_Some r ref v objs :
  is_Some (bone_angle objs ref) -> is_Some (bone_angle (set_bone r v objs) ref).
Proof.
  intros Hs. destruct (decide (r = Some ref)) as [->|Hne].
  - rewrite set_bone_angle_eq; [by eexists|done].
  - by rewrite set_bone_angle_ne.
Qed.

Lemma fold_set_bone_same_bones (l : list (option (string * string) * Q)) : forall objs,
  Forall (fun rv => ref_ok objs (fst rv)) l ->
  same_bones objs (fold_left (fun o rv => set_bone (fst rv) (snd rv) o) l objs).
Proof.
  induction l as [|rv l IH]; intros objs Hall; [done|].
  apply Forall_cons in Hall as [Hrv Hall]. cbn [fold_left].
  pose proof (set_bone_same_bones rv.1 rv.2 objs Hrv) as Hs.
  eapply same_bones_trans; [exact Hs|]. apply IH.
  eapply Forall_impl; [exact Hall|]. intros rv'. by apply same_bones_ref_ok.
Qed.

Lemma fold_set_bone_other (l : list (option (string * string) * Q)) : forall objs ref,
  (forall j v', l !! j <> Some (Some ref, v')) ->
  bone_angle (fold_left (fun o rv => set_bone (fst rv) (snd rv) o) l objs) ref
  = bone_angle objs ref.
Proof.
  induction l as [|[r v] l IH]; intros objs ref Hno; [done|].
  cbn [fold_left fst snd]. rewrite IH.
  - apply set_bone_angle_ne. intros ->. by apply (Hno 0%nat v).
  - intros j v'. apply (Hno (S j) v').
Qed.

(** Of several writes to one bone the last one stands. *)
Lemma fold_set_bone_angle (l : list (option (string * string) * Q)) : forall objs j ref v,
  l !! j = Some (Some ref, v) ->
  (forall j' v', (j < j')%nat -> l !! j' <> Some (Some ref, v')) ->
  is_Some (bone_angle objs ref) ->
  bone_angle (fold_left (fun o rv => set_bone (fst rv) (snd rv) o) l objs) ref = Some v.
Proof.
  induction l as [|[r v0] l IH]; intros objs j ref v Hj Hlast Hs; [done|].
  cbn [fold_left fst snd]. destruct j as [|j].
  - injection Hj as -> ->. rewrite fold_set_bone_other.
    + by apply set_bone_angle_eq.
    + intros j v'. apply (Hlast (S j) v'). lia.
  - apply (IH _ j); [done| |by apply set_bone_angle_is_Some].
    intros j' v' Hlt. apply (Hlast (S j') v'). lia.
Qed.

Lemma zip_lookup_inv {A B} (a : list A) (b : list B) k x y :
  zip a b !! k = Some (x, y) -> a !! k = Some x /\ b !! k = Some y.
Proof.
  revert b k. induction a as [|x' a IH]; intros [|y' b] k; try done.
  destruct k as [|k]; simpl; [by intros [= -> ->]|]. apply IH.
Qed.

Lemma get_joint_bone_Some objs base_name index suffix bone_name ref :
  get_joint_bone objs base_name index suffix bone_name = Some ref <->
  ref = (base_name +:+ str_N (N.of_nat index) +:+ suffix, bone_name) /\
  is_Some (bone_angle objs ref).
Proof.
  unfold get_joint_bone, bone_angle. split.
  - destruct (objs !! _) as [[bones|]|] eqn:Ho; [|done..].
    destruct (bones !! bone_name) as [x|] eqn:Hb; [|done].
    intros [= <-]. cbn [fst snd]. rewrite Ho, Hb. by split; [|eexists].
  - intros [-> Hs]. cbn [fst snd] in Hs.
    destruct (objs !! _) as [[bones|]|]; [|by destruct Hs..].
    by destruct Hs as [x ->].
Qed.

Lemma set_ARMREFS_same which st :
  set_ARMREFS which (ARMREFS which st) st = st.
Proof. by destruct st, which. Qed.

(** The two ways through [ensure_arm_refs]: the cached references under
    the current key, or freshly computed ones that are cached. *)
Lemma ensure_arm_refs_cases which st :
  (exists refs, ARMREFS which st = Some (arm_key which (scene st), refs) /\
                ensure_arm_refs which st = (refs, st)) \/
  ((forall refs, ARMREFS which st <> Some (arm_key which (scene st), refs)) /\
   ensure_arm_refs which st =
   (fresh_refs which st,
    set_ARMREFS which (Some (arm_key which (scene st), fresh_refs which st)) st)).
Proof.
  unfold ensure_arm_refs. fold (arm_suffix which (scene st)).
  fold (arm_key which (scene st)). fold (fresh_refs which st).
  destruct (ARMREFS which st) as [[k refs]|] eqn:Hc.
  - destruct (decide (k = arm_key which (scene st))) as [->|Hne].
    + left. by exists refs.
    + right. split; [|done]. intros refs' [= ? ?]. done.
  - right. by split.
Qed.

Lemma fresh_refs_lookup which st j :
  (j < sa_joints (scene st))%nat ->
  fresh_refs which st !! j =
  Some (match bone_angle (objects st)
                 (joint_object which (scene st) j, sa_bone_name (scene st)) with
        | Some _ => Some (joint_object which (scene st) j, sa_bone_name (scene st))
        | None => None
        end).
Proof.
  intros Hj. unfold fresh_refs.
  erewrite lookup_map; [|by apply lookup_seq_lt]. f_equal.
  unfold joint_object. fold (arm_suffix which (scene st)).
  destruct (get_joint_bone _ _ _ _ _) as [ref|] eqn:Hg.
  - apply get_joint_bone_Some in Hg as [-> [x Hx]]. by rewrite Hx.
  - destruct (bone_angle _ _) as [x|] eqn:Hx; [|done].
    assert (Hs : get_joint_bone (objects st) (sa_base_name (scene st))
                   (sa_start_index (scene st) + j + 1)
                   (arm_suffix which (scene st)) (sa_bone_name (scene st))
                 = Some (sa_base_name (scene st)
                         +:+ str_N (N.of_nat (sa_start_index (scene st) + j + 1))
                         +:+ arm_suffix which (scene st), sa_bone_name (scene st))).
    { apply get_joint_bone_Some. split; [done|]. by exists x. }
    by rewrite Hs in Hg.
Qed.

Lemma fresh_refs_ok which st : Forall (ref_ok (objects st)) (fresh_refs which st).
Proof.
  apply Forall_forall. intros r [j [-> _]]%list_elem_of_fmap ref Hg.
  by apply get_joint_bone_Some in Hg as [_ Hs].
Qed.

Lemma append_inj_l (s1 : string) : forall s2 suffix,
  s1 +:+ suffix = s2 +:+ suffix -> s1 = s2.
Proof.
  induction s1 as [|c s1 IH]; intros [|c' s2] suffix H.
  - done.
  - apply (f_equal String.length) in H. rewrite append_nil_l, append_cons in H.
    cbn [String.length] in H. rewrite string_length_app in H. lia.
  - apply (f_equal String.length) in H. rewrite append_nil_l, append_cons in H.
    cbn [String.length] in H. rewrite string_length_app in H. lia.
  - rewrite !append_cons in H. injection H as -> H. f_equal. by eapply IH.
Qed.

Lemma str_N_inj (a b : N) : str_N a = str_N b -> a = b.
Proof.
  intros H. pose proof (digits_acc_str_N a) as Ha.
  rewrite H, digits_acc_str_N in Ha. congruence.
Qed.

(** Different joints of an arm have objects of different names. *)
Lemma joint_object_inj which scn j j' :
  joint_object which scn j = joint_object which scn j' -> j = j'.
Proof.
  unfold joint_object. intros H%append_inj_r%append_inj_l%str_N_inj. lia.
Qed.

Lemma fresh_refs_distinct which st j j' ref :
  fresh_refs which st !! j = Some (Some ref) ->
  fresh_refs which st !! j' = Some (Some ref) -> j = j'.
Proof.
  assert (Hlen : length (fresh_refs which st) = sa_joints (scene st)).
  { unfold fresh_refs. by rewrite length_map, length_seq. }
  intros Hj Hj'.
  pose proof (lookup_lt_Some _ _ _ Hj) as Hlt.
  pose proof (lookup_lt_Some _ _ _ Hj') as Hlt'.
  rewrite Hlen in Hlt, Hlt'.
  rewrite fresh_refs_lookup in Hj, Hj' by done.
  destruct (bone_angle _ (joint_object which (scene st) j, _)); [|done].
  destruct (bone_angle _ (joint_object which (scene st) j', _)); [|done].
  injection Hj as <-. injection Hj' as Hj'. by apply joint_object_inj in Hj'.
Qed.

(** X7.  The binding cache.  After [ensure_arm_refs] the cache of the arm
    holds the returned references under the key of the current settings,
    nothing else of the state has changed, and a second call returns the
    same references and changes nothing.  When the cache did not hold the
    current key, there is one reference for each of the [sa_joints]
    joints: joint number [j] is bound to the bone of the object named base
    name, [sa_start_index + j + 1], suffix when that object is an armature
    with this bone, and is unbound otherwise; no two joints are bound to
    the same bone.  (The rotation mode that [get_joint_bone] sets and the
    animation data that [ensure_arm_refs] creates are not part of the
    state.) *)
Theorem ensure_arm_refs_cache (which : Arm) (st : State) :
  let refs := fst (ensure_arm_refs which st) in
  let st' := snd (ensure_arm_refs which st) in
  st' = set_ARMREFS which (Some (arm_key which (scene st), refs)) st /\
  ensure_arm_refs which st' = (refs, st') /\
  ((forall r, ARMREFS which st <> Some (arm_key which (scene st), r)) ->
   length refs = sa_joints (scene st) /\
   (forall j, (j < sa_joints (scene st))%nat ->
      let ref := (joint_object which (scene st) j, sa_bone_name (scene st)) in
      refs !! j = Some (match bone_angle (objects st) ref with
                        | Some _ => Some ref
                        | None => None
                        end)) /\
   (forall j j' ref, refs !! j = Some (Some ref) -> refs !! j' = Some (Some ref) ->
      j = j')).
Proof.
  intros refs st'.
  assert (Hkey : forall c, scene (set_ARMREFS which c st) = scene st)
    by (intros c; by destruct which).
  assert (Hget : forall c, ARMREFS which (set_ARMREFS which c st) = c)
    by (intros c; by destruct which).
  destruct (ensure_arm_refs_cases which st) as [(r & Hc & He)|[Hmiss He]].
  - unfold refs, st'. rewrite He. cbn [fst snd].
    split; [by rewrite <- Hc, set_ARMREFS_same|]. split; [done|].
    intros Hno. by destruct (Hno r).
  - unfold refs, st'. rewrite He. cbn [fst snd]. split; [done|]. split.
    + destruct (ensure_arm_refs_cases which
                  (set_ARMREFS which (Some (arm_key which (scene st), fresh_refs which st)) st))
        as [(r & Hc' & He')|[Hmiss' _]].
      * rewrite Hget, Hkey in Hc'.
        assert (r = fresh_refs which st) as -> by congruence. exact He'.
      * exfalso. apply (Hmiss' (fresh_refs which st)). rewrite Hget. by rewrite Hkey.
    + intros _. split; [|split].
      * unfold fresh_refs. by rewrite length_map, length_seq.
      * intros j Hj. by apply fresh_refs_lookup.
      * apply fresh_refs_distinct.
Qed.

Lemma ensure_arm_refs_cache_witness :
  length (fst (ensure_arm_refs ArmA two_joint_state)) = 2%nat /\
  fst (ensure_arm_refs ArmA two_joint_state) !! 0%nat
  = Some (Some ("fer_link1.001", "Bone")).
Proof.
  destruct (ensure_arm_refs_cache ArmA two_joint_state) as (_ & _ & H).
  destruct H as (Hlen & Hrefs & _); [done|].
  split; [exact Hlen|]. by rewrite (Hrefs 0%nat) by (vm_compute; lia).
Defined.

Lemma ensure_arm_refs_frame which st :
  let refs := fst (ensure_arm_refs which st) in
  snd (ensure_arm_refs which st)
  = set_ARMREFS which (Some (arm_key which (scene st), refs)) st /\
  (state_ok st -> Forall (ref_ok (objects st)) refs).
Proof.
  destruct (ensure_arm_refs_cases which st) as [(r & Hc & He)|[Hmiss He]];
    rewrite He; cbn [fst snd].
  - split; [by rewrite <- Hc, set_ARMREFS_same|]. intros [_ Hok]. by eapply Hok.
  - split; [done|]. intros _. apply fresh_refs_ok.
Qed.

Lemma apply_refs_same_bones refs q objs :
  Forall (ref_ok objs) refs -> same_bones objs (apply_refs refs q objs).
Proof.
  intros Hall. apply fold_set_bone_same_bones, Forall_forall.
  intros [r v] Hin. apply list_elem_of_lookup in Hin as [j Hj].
  apply zip_lookup_inv in Hj as [Hr _]. apply lookup_take_Some in Hr as [Hr _].
  rewrite Forall_forall in Hall. by eapply Hall, list_elem_of_lookup_2.
Qed.

Lemma state_ok_same_bones st st' :
  state_ok st -> TRAJ_A st' = TRAJ_A st -> TRAJ_B st' = TRAJ_B st ->
  same_bones (objects st) (objects st') ->
  (forall which k refs, ARMREFS which st' = Some (k, refs) ->
     ARMREFS which st = Some (k, refs) \/ Forall (ref_ok (objects st)) refs) ->
  state_ok st'.
Proof.
  intros [Ht Hr] HA HB Hs Hc. split.
  - intros which T HT. apply (Ht which). by destruct which; cbn in *; congruence.
  - intros which k refs Hk.
    assert (Hall : Forall (ref_ok (objects st)) refs).
    { destruct (Hc which k refs Hk) as [Hold|Hnew]; [by eapply Hr|done]. }
    eapply Forall_impl; [exact Hall|]. intros r. by apply same_bones_ref_ok.
Qed.

(** One arm's block of [apply_pose_from_scrub] on a state the operators
    keep to. *)
Lemma apply_arm_spec which t st :
  state_ok st ->
  exists st', apply_arm which t st = Some st' /\
    TRAJ_A st' = TRAJ_A st /\ TRAJ_B st' = TRAJ_B st /\ scene st' = scene st /\
    collections st' = collections st /\
    same_bones (objects st) (objects st') /\ state_ok st' /\
    match TRAJ which st with
    | None => st' = st
    | Some T =>
        exists q, sample_q T t = Some q /\
          let refs := fst (ensure_arm_refs which st) in
          ARMREFS which st' = Some (arm_key which (scene st), refs) /\
          (forall other, other <> which -> ARMREFS other st' = ARMREFS other st) /\
          objects st' = apply_refs refs q (objects st)
    end.
Proof.
  intros Hok. unfold apply_arm.
  destruct (TRAJ which st) as [T|] eqn:HT.
  2:{ exists st. do 5 (split; [done|]). split; [by intros ?|]. by split. }
  destruct (proj1 Hok which T HT) as (Hne & Hinc & Hlen).
  destruct (sample_q_cases T t Hne (increasing_nondecreasing _ Hinc) Hlen) as (q & Hq & _).
  rewrite Hq. cbn [mbind option_bind].
  destruct (ensure_arm_refs_frame which st) as [Hst1 Hrefs].
  specialize (Hrefs Hok).
  destruct (ensure_arm_refs which st) as [refs st1]. cbn [fst snd] in Hst1, Hrefs.
  subst st1. eexists. split; [reflexivity|].
  pose proof (apply_refs_same_bones refs q (objects st) Hrefs) as Hsame.
  assert (Hobj : objects (set_ARMREFS which (Some (arm_key which (scene st), refs)) st)
                 = objects st) by by destruct which.
  rewrite Hobj.
  split; [by destruct which|]. split; [by destruct which|].
  split; [by destruct which|]. split; [by destruct which|].
  split; [by destruct which|]. split.
  - apply (state_ok_same_bones st); [done|by destruct which..| |].
    + by destruct which.
    + intros w k r Hk. destruct which, w; cbn in Hk; first [by left|right; congruence].
  - exists q. split; [done|]. cbn zeta.
    split; [by destruct which|]. split; [|by destruct which].
    intros other Hne'. by destruct which, other.
Qed.

(* ===================================================================== *)
(** * Scrubbing *)

Lemma global_time_range_bounds TA TB :
  (forall T, TA = Some T -> traj_t T <> []) ->
  (forall T, TB = Some T -> traj_t T <> []) ->
  exists tmin tmax, _global_time_range TA TB = Some (tmin, tmax) /\
    forall T, TA = Some T \/ TB = Some T ->
      exists t0 tl, head (traj_t T) = Some t0 /\ last (traj_t T) = Some tl /\
                    tmin <= t0 /\ tl <= tmax.
Proof.
  intros HA HB.
  assert (Hends : forall T, traj_t T <> [] ->
            exists t0 tl, head (traj_t T) = Some t0 /\ last (traj_t T) = Some tl).
  { intros T Hne. destruct (traj_t T) as [|x l]; [done|].
    exists x. destruct (last (x :: l)) as [y|] eqn:Hl; [by exists y|].
    by apply last_None in Hl. }
  unfold _global_time_range, append_ends.
  destruct TA as [A|], TB as [B|].
  - destruct (Hends A (HA A eq_refl)) as (a0 & a1 & Ha0 & Ha1).
    destruct (Hends B (HB B eq_refl)) as (b0 & b1 & Hb0 & Hb1).
    rewrite !py_index_0, !py_index_last, Ha0, Ha1, Hb0, Hb1. cbn.
    eexists _, _. split; [reflexivity|].
    pose proof (py_min_pair a0 b0) as Hmin. pose proof (py_max_pair a1 b1) as Hmax.
    cbn in Hmin, Hmax.
    pose proof (Q.le_min_l a0 b0). pose proof (Q.le_min_r a0 b0).
    pose proof (Q.le_max_l a1 b1). pose proof (Q.le_max_r a1 b1).
    intros T [[= <-]|[= <-]].
    + exists a0, a1. split; [done|]. split; [done|]. rewrite Hmin, Hmax. by split.
    + exists b0, b1. split; [done|]. split; [done|]. rewrite Hmin, Hmax. by split.
  - destruct (Hends A (HA A eq_refl)) as (a0 & a1 & Ha0 & Ha1).
    rewrite !py_index_0, !py_index_last, Ha0, Ha1. cbn.
    eexists _, _. split; [reflexivity|].
    intros T [[= <-]|[=]]. exists a0, a1. split; [done|]. split; [done|].
    split; apply Qle_refl.
  - destruct (Hends B (HB B eq_refl)) as (b0 & b1 & Hb0 & Hb1).
    rewrite !py_index_0, !py_index_last, Hb0, Hb1. cbn.
    eexists _, _. split; [reflexivity|].
    intros T [[=]|[= <-]]. exists b0, b1. split; [done|]. split; [done|].
    split; apply Qle_refl.
  - cbn. eexists _, _. split; [reflexivity|]. by intros T [[=]|[=]].
Qed.

Lemma state_ok_set_sa_time t st : state_ok st -> state_ok (set_sa_time t st).
Proof.
  intros [Ht Hr]. split.
  - intros which T HT. apply (Ht which). by destruct which.
  - intros which k refs Hk. apply (Hr which k). by destruct which.
Qed.

(** [apply_pose_from_scrub] on a state the operators keep to: the time is
    computed, then arm A and arm B are posed, and the call returns. *)
Lemma apply_pose_from_scrub_steps st :
  state_ok st ->
  exists t st1 st2,
    scrub_time (TRAJ_A st) (TRAJ_B st) (sa_scrub (scene st)) = Some t /\
    apply_arm ArmA t (set_sa_time t st) = Some st1 /\
    apply_arm ArmB t st1 = Some st2 /\
    apply_pose_from_scrub st = (st2, true).
Proof.
  intros Hok.
  destruct (global_time_range_bounds (TRAJ_A st) (TRAJ_B st))
    as (tmin & tmax & Hr & _).
  { intros T HT. by destruct (proj1 Hok ArmA T HT). }
  { intros T HT. by destruct (proj1 Hok ArmB T HT). }
  destruct (scrub_time_of_range _ _ (sa_scrub (scene st)) _ _ Hr) as (t & Ht & _).
  pose proof (state_ok_set_sa_time t st Hok) as Hok0.
  destruct (apply_arm_spec ArmA t _ Hok0) as (st1 & H1 & _ & _ & _ & _ & _ & Hok1 & _).
  destruct (apply_arm_spec ArmB t _ Hok1) as (st2 & H2 & _).
  exists t, st1, st2. split; [done|]. split; [done|]. split; [done|].
  unfold apply_pose_from_scrub. by rewrite Ht, H1, H2.
Qed.

Lemma two_joint_state_ok : state_ok two_joint_state.
Proof.
  split.
  - intros [] T; cbn; intros [= <-]; by repeat split.
  - by intros [] k refs.
Qed.

(** X8.  In a state in which every loaded trajectory has at least one
    sample, increasing times and one pose per time, and every cached
    reference names a bone of the scene, [apply_pose_from_scrub] raises no
    error; it leaves such a state behind, with [sa_time] set to the time
    computed from the slider. *)
Theorem apply_pose_from_scrub_returns (st : State) :
  state_ok st ->
  snd (apply_pose_from_scrub st) = true /\
  state_ok (fst (apply_pose_from_scrub st)) /\
  scrub_time (TRAJ_A st) (TRAJ_B st) (sa_scrub (scene st))
  = Some (sa_time (scene (fst (apply_pose_from_scrub st)))).
Proof.
  intros Hok.
  destruct (apply_pose_from_scrub_steps st Hok) as (t & st1 & st2 & Ht & H1 & H2 & Hap).
  rewrite Hap. cbn [fst snd]. split; [done|].
  pose proof (state_ok_set_sa_time t st Hok) as Hok0.
  destruct (apply_arm_spec ArmA t _ Hok0)
    as (st1' & H1' & _ & _ & Hs1 & _ & _ & Hok1 & _).
  rewrite H1 in H1'. injection H1' as <-.
  destruct (apply_arm_spec ArmB t _ Hok1)
    as (st2' & H2' & _ & _ & Hs2 & _ & _ & Hok2 & _).
  rewrite H2 in H2'. injection H2' as <-.
  split; [done|]. by rewrite Ht, Hs2, Hs1.
Qed.

Lemma apply_pose_from_scrub_returns_witness :
  snd (apply_pose_from_scrub two_joint_state) = true /\
  sa_time (scene (fst (apply_pose_from_scrub two_joint_state))) == 1.
Proof.
  destruct (apply_pose_from_scrub_returns two_joint_state two_joint_state_ok)
    as (Hr & _ & Ht).
  split; [exact Hr|]. by vm_compute.
Defined.

(** X9.  Scrubbing changes bone angles and [sa_time] and nothing else: the
    loaded trajectories, the collections and the other scene properties
    stay as they are, and the scene keeps its objects, each of the same
    kind and with the same pose bones.  (Rotation modes and animation data
    are not part of the state.) *)
Theorem apply_pose_from_scrub_frame (st : State) :
  state_ok st ->
  let st' := _on_scrub_update st in
  TRAJ_A st' = TRAJ_A st /\ TRAJ_B st' = TRAJ_B st /\
  collections st' = collections st /\
  scene st' = scene (set_sa_time (sa_time (scene st')) st) /\
  same_bones (objects st) (objects st').
Proof.
  intros Hok. unfold _on_scrub_update.
  destruct (apply_pose_from_scrub_steps st Hok) as (t & st1 & st2 & Ht & H1 & H2 & Hap).
  rewrite Hap. cbn [fst snd].
  pose proof (state_ok_set_sa_time t st Hok) as Hok0.
  destruct (apply_arm_spec ArmA t _ Hok0)
    as (st1' & H1' & HA1 & HB1 & Hs1 & Hc1 & Hb1 & Hok1 & _).
  rewrite H1 in H1'. injection H1' as <-.
  destruct (apply_arm_spec ArmB t _ Hok1)
    as (st2' & H2' & HA2 & HB2 & Hs2 & Hc2 & Hb2 & _).
  rewrite H2 in H2'. injection H2' as <-.
  split; [by rewrite HA2, HA1|]. split; [by rewrite HB2, HB1|].
  split; [by rewrite Hc2, Hc1|]. split; [by rewrite Hs2, Hs1|].
  by apply (same_bones_trans _ (objects st1)).
Qed.

Lemma apply_pose_from_scrub_frame_witness :
  TRAJ_A (_on_scrub_update two_joint_state) = TRAJ_A two_joint_state /\
  same_bones (objects two_joint_state) (objects (_on_scrub_update two_joint_state)).
Proof.
  destruct (apply_pose_from_scrub_frame two_joint_state two_joint_state_ok)
    as (HA & _ & _ & _ & Hs).
  split; [exact HA|exact Hs].
Defined.

Lemma same_bones_sym o1 o2 : same_bones o1 o2 -> same_bones o2 o1.
Proof. intros H name. by rewrite H. Qed.

Lemma get_joint_bone_same_bones objs objs' base_name index suffix bone_name :
  same_bones objs objs' ->
  get_joint_bone objs' base_name index suffix bone_name
  = get_joint_bone objs base_name index suffix bone_name.
Proof.
  intros Hs.
  set (ref := (base_name +:+ str_N (N.of_nat index) +:+ suffix, bone_name)).
  assert (Hiff : is_Some (bone_angle objs' ref) <-> is_Some (bone_angle objs ref)).
  { rewrite !bone_angle_bone_names. by rewrite Hs. }
  destruct (get_joint_bone objs' _ _ _ _) as [r'|] eqn:H';
    destruct (get_joint_bone objs _ _ _ _) as [r|] eqn:H; [| | |done].
  - apply get_joint_bone_Some in H' as [-> _].
    by apply get_joint_bone_Some in H as [-> _].
  - apply get_joint_bone_Some in H' as [-> Hs'].
    assert (Hg : get_joint_bone objs base_name index suffix bone_name = Some ref).
    { apply get_joint_bone_Some. split; [done|]. by apply Hiff. }
    congruence.
  - apply get_joint_bone_Some in H as [-> Hs'].
    assert (Hg : get_joint_bone objs' base_name index suffix bone_name = Some ref).
    { apply get_joint_bone_Some. split; [done|]. by apply Hiff. }
    congruence.
Qed.

(** The references of an arm do not depend on the bone angles or on
    [sa_time]. *)
Lemma ensure_arm_refs_fst_same which st st' :
  ARMREFS which st' = ARMREFS which st ->
  scene st' = scene (set_sa_time (sa_time (scene st')) st) ->
  same_bones (objects st) (objects st') ->
  fst (ensure_arm_refs which st') = fst (ensure_arm_refs which st).
Proof.
  intros Hc Hscn Hs.
  assert (Hkey : arm_key which (scene st') = arm_key which (scene st)).
  { rewrite Hscn. by destruct which. }
  assert (Hfresh : fresh_refs which st' = fresh_refs which st).
  { unfold fresh_refs. rewrite Hscn.
    replace (arm_suffix which (scene (set_sa_time (sa_time (scene st')) st)))
      with (arm_suffix which (scene st)) by by destruct which.
    cbn [scene set_sa_time sa_base_name sa_bone_name sa_start_index sa_joints].
    apply map_ext. intros j. by apply get_joint_bone_same_bones. }
  destruct (ensure_arm_refs_cases which st) as [(r & Hr & He)|[Hmiss He]];
    destruct (ensure_arm_refs_cases which st') as [(r' & Hr' & He')|[Hmiss' He']];
    rewrite He, He'; cbn [fst].
  - rewrite Hc, Hkey in Hr'. congruence.
  - exfalso. apply (Hmiss' r). by rewrite Hc, Hkey.
  - exfalso. apply (Hmiss r'). by rewrite <- Hc, <- Hkey.
  - done.
Qed.

Lemma apply_refs_angle refs q objs j ref v :
  refs !! j = Some (Some ref) -> q !! j = Some v ->
  (forall j', (j < j')%nat -> refs !! j' <> Some (Some ref)) ->
  is_Some (bone_angle objs ref) ->
  bone_angle (apply_refs refs q objs) ref = Some v.
Proof.
  intros Hr Hq Hlast Hs. unfold apply_refs.
  apply (fold_set_bone_angle _ _ j); [|intros j' v' Hlt Hj'|done].
  - apply zip_lookup; [|done]. rewrite lookup_take_lt; [done|].
    by eapply lookup_lt_Some.
  - apply zip_lookup_inv in Hj' as [Hj' _]. apply lookup_take_Some in Hj' as [Hj' _].
    by apply (Hlast j').
Qed.

Lemma apply_refs_other refs q objs ref :
  Some ref ∉ refs -> bone_angle (apply_refs refs q objs) ref = bone_angle objs ref.
Proof.
  intros Hno. unfold apply_refs. apply fold_set_bone_other.
  intros j v' Hj. apply zip_lookup_inv in Hj as [Hj _].
  apply lookup_take_Some in Hj as [Hj _]. by apply list_elem_of_lookup_2 in Hj.
Qed.

Lemma apply_arm_poses which t st st' T :
  state_ok st -> TRAJ which st = Some T -> apply_arm which t st = Some st' ->
  let refs := fst (ensure_arm_refs which st) in
  exists q, sample_q T t = Some q /\
    ARMREFS which st' = Some (arm_key which (scene st), refs) /\
    forall j ref v, refs !! j = Some (Some ref) -> q !! j = Some v ->
      (forall j', (j < j')%nat -> refs !! j' <> Some (Some ref)) ->
      bone_angle (objects st') ref = Some v.
Proof.
  intros Hok HT Hap refs.
  destruct (apply_arm_spec which t st Hok) as (st1 & H1 & _ & _ & _ & _ & _ & _ & Hm).
  rewrite Hap in H1. injection H1 as <-. rewrite HT in Hm.
  destruct Hm as (q & Hq & Hc & _ & Hobj).
  exists q. split; [done|]. split; [done|].
  intros j ref v Hr Hv Hlast. rewrite Hobj.
  apply (apply_refs_angle _ _ _ j); [done..|].
  destruct (ensure_arm_refs_frame which st) as [_ Hrefs].
  specialize (Hrefs Hok). rewrite Forall_forall in Hrefs.
  apply (Hrefs (Some ref)); [|done]. by eapply list_elem_of_lookup_2.
Qed.

Lemma apply_arm_keeps which t st st' ref :
  state_ok st -> apply_arm which t st = Some st' ->
  (TRAJ which st <> None -> Some ref ∉ fst (ensure_arm_refs which st)) ->
  bone_angle (objects st') ref = bone_angle (objects st) ref.
Proof.
  intros Hok Hap Hno.
  destruct (apply_arm_spec which t st Hok) as (st1 & H1 & _ & _ & _ & _ & _ & _ & Hm).
  rewrite Hap in H1. injection H1 as <-.
  destruct (TRAJ which st) as [T|]; [|by subst].
  destruct Hm as (q & Hq & Hc & Hother & Hobj).
  rewrite Hobj. apply apply_refs_other. by apply Hno.
Qed.

Lemma apply_arm_other_cache which t st st' other :
  state_ok st -> apply_arm which t st = Some st' -> other <> which ->
  ARMREFS other st' = ARMREFS other st.
Proof.
  intros Hok Hap Hne.
  destruct (apply_arm_spec which t st Hok) as (st1 & H1 & _ & _ & _ & _ & _ & _ & Hm).
  rewrite Hap in H1. injection H1 as <-.
  destruct (TRAJ which st) as [T|]; [|by subst].
  destruct Hm as (q & Hq & Hc & Hother & Hobj). by apply Hother.
Qed.

(** The bones after [apply_pose_from_scrub], arm by arm. *)
Lemma apply_pose_from_scrub_bones (st : State) (which : Arm) (T : Trajectory) :
  state_ok st -> TRAJ which st = Some T ->
  let st' := fst (apply_pose_from_scrub st) in
  let refs := fst (ensure_arm_refs which st) in
  exists q, sample_q T (sa_time (scene st')) = Some q /\
    ARMREFS which st' = Some (arm_key which (scene st), refs) /\
    forall j ref v, refs !! j = Some (Some ref) -> q !! j = Some v ->
      (forall j', (j < j')%nat -> refs !! j' <> Some (Some ref)) ->
      (which = ArmA -> TRAJ_B st <> None ->
       Some ref ∉ fst (ensure_arm_refs ArmB st)) ->
      bone_angle (objects st') ref = Some v.
Proof.
  intros Hok HT st' refs. unfold st'.
  destruct (apply_pose_from_scrub_steps st Hok) as (t & st1 & st2 & Ht & H1 & H2 & Hap).
  rewrite Hap. cbn [fst].
  pose proof (state_ok_set_sa_time t st Hok) as Hok0.
  destruct (apply_arm_spec ArmA t _ Hok0)
    as (st1' & H1' & HA1 & HB1 & Hs1 & _ & Hb1 & Hok1 & _).
  rewrite H1 in H1'. injection H1' as <-.
  destruct (apply_arm_spec ArmB t _ Hok1)
    as (st2' & H2' & _ & _ & Hs2 & _ & Hb2 & _ & _).
  rewrite H2 in H2'. injection H2' as <-.
  assert (Htime : sa_time (scene st2) = t) by by rewrite Hs2, Hs1.
  rewrite Htime.
  assert (HcB : ARMREFS ArmB st1 = ARMREFS ArmB st).
  { by rewrite (apply_arm_other_cache ArmA t _ st1 ArmB Hok0 H1). }
  assert (HrB : fst (ensure_arm_refs ArmB st1) = fst (ensure_arm_refs ArmB st)).
  { apply ensure_arm_refs_fst_same; [done|by rewrite Hs1|done]. }
  destruct which.
  - (* arm A, posed first *)
    destruct (apply_arm_poses ArmA t _ st1 T Hok0 HT H1) as (q & Hq & Hc & Hang).
    assert (Hrefs : fst (ensure_arm_refs ArmA (set_sa_time t st)) = refs).
    { by apply ensure_arm_refs_fst_same. }
    rewrite Hrefs in Hc, Hang.
    exists q. split; [done|]. split.
    + by rewrite (apply_arm_other_cache ArmB t st1 st2 ArmA Hok1 H2).
    + intros j ref v Hr Hv Hlast Hno.
      rewrite (apply_arm_keeps ArmB t st1 st2 ref Hok1 H2); [by eapply Hang|].
      intros HTB. cbn [TRAJ] in HTB. rewrite HB1 in HTB. rewrite HrB. by apply Hno.
  - (* arm B, posed last *)
    assert (HT1 : TRAJ ArmB st1 = Some T) by (cbn [TRAJ]; by rewrite HB1).
    destruct (apply_arm_poses ArmB t _ st2 T Hok1 HT1 H2) as (q & Hq & Hc & Hang).
    rewrite HrB in Hc, Hang.
    assert (Hkey : arm_key ArmB (scene st1) = arm_key ArmB (scene st)) by by rewrite Hs1.
    rewrite Hkey in Hc.
    exists q. split; [done|]. split; [done|].
    intros j ref v Hr Hv Hlast _. by eapply Hang.
Qed.

(** X10.  What a bone shows after scrubbing.  Let an arm be loaded, and
    let [q] be the pose sampled from its trajectory at the new [sa_time].
    Then the bone bound to joint [j] of the arm has the angle [q[j]],
    provided no later joint of the arm is bound to the same bone and, for
    arm A, no joint of a loaded arm B is bound to it (arm B is posed after
    arm A).  The bindings are those of [ensure_arm_refs], and they are the
    ones cached afterwards. *)
Theorem apply_pose_from_scrub_poses (st : State) (which : Arm) (T : Trajectory) :
  state_ok st -> TRAJ which st = Some T ->
  let st' := fst (apply_pose_from_scrub st) in
  let refs := fst (ensure_arm_refs which st) in
  exists q, sample_q T (sa_time (scene st')) = Some q /\
    ARMREFS which st' = Some (arm_key which (scene st), refs) /\
    forall j ref v, refs !! j = Some (Some ref) -> q !! j = Some v ->
      (forall j', (j < j')%nat -> refs !! j' <> Some (Some ref)) ->
      (which = ArmA -> TRAJ_B st <> None ->
       Some ref ∉ fst (ensure_arm_refs ArmB st)) ->
      bone_angle (objects st') ref = Some v.
Proof. exact (apply_pose_from_scrub_bones st which T). Qed.

Lemma apply_pose_from_scrub_poses_witness :
  exists v, bone_angle (objects (fst (apply_pose_from_scrub two_joint_state)))
                       ("fer_link2.001", "Bone") = Some v /\ v == 3 # 2.
Proof.
  destruct (apply_pose_from_scrub_poses two_joint_state ArmA _ two_joint_state_ok eq_refl)
    as (q & Hq & _ & Hang).
  vm_compute in Hq. injection Hq as <-.
  eexists. split.
  - apply (Hang 1%nat).
    + by vm_compute.
    + reflexivity.
    + intros [|[|j']] Hlt; [lia|lia|]. by vm_compute.
    + intros _ HB. by destruct HB.
  - by vm_compute.
Defined.



(* ===================================================================== *)
(** * Loading and clearing *)

Lemma gapped_increasing l : gapped l = true -> increasing l = true.
Proof.
  induction l as [|x l IH]; [done|]. destruct l as [|y l]; [done|].
  cbn [gapped increasing]. intros [Hxy Hg]%andb_true_iff.
  apply andb_true_iff. split; [|by apply IH].
  apply Qleb_le in Hxy. apply Qltb_lt. pose proof eps12_pos. lra.
Qed.

(** What the parser returns is a trajectory as the sampler needs it. *)
Lemma parse_single_arm_traj_ok float_of (fs : FileSystem) filepath
    delim_mode time_unit has_header degrees T :
  parse_single_arm float_of fs filepath delim_mode time_unit has_header degrees = Ok T ->
  traj_ok T.
Proof.
  intros Hp.
  destruct (fs !! filepath) as [contents|] eqn:Hfs.
  2:{ unfold parse_single_arm in Hp. by rewrite Hfs in Hp. }
  destruct (parse_single_arm_collapse _ _ _ _ _ _ _ _ _ Hfs Hp) as (Hne & -> & _).
  set (rows := map (row_of float_of delim_mode time_unit degrees)
                   (data_lines has_header (file_lines contents))).
  assert (Hc : collapse (sorted time_lt rows) <> []).
  { apply collapse_nonempty. intros Hs.
    apply (f_equal length) in Hs. rewrite sorted_length in Hs.
    unfold rows in Hs. rewrite length_map in Hs.
    by destruct (data_lines has_header (file_lines contents)). }
  unfold traj_ok. cbn [traj_t traj_q]. split; [|split].
  - by destruct (collapse (sorted time_lt rows)).
  - apply gapped_increasing, collapse_gapped, sorted_sorted.
  - by rewrite !length_map.
Qed.

Lemma load_path_nonempty which scn :
  da_common_filename scn <> EmptyString -> load_path which scn <> EmptyString.
Proof.
  intros Hn. unfold load_path, path_join.
  destruct (da_common_filename scn) as [|c name]; [done|].
  destruct (startswith "/" (String c name)); [done|].
  destruct (arm_folder which scn) as [|d folder]; [done|].
  by destruct (ends_with_slash _).
Qed.

(** [apply_pose_from_scrub] keeps the loaded trajectories and the states
    the operators keep to. *)
Lemma apply_pose_from_scrub_keeps st :
  state_ok st ->
  let st' := fst (apply_pose_from_scrub st) in
  snd (apply_pose_from_scrub st) = true /\ state_ok st' /\
  TRAJ_A st' = TRAJ_A st /\ TRAJ_B st' = TRAJ_B st.
Proof.
  intros Hok.
  destruct (apply_pose_from_scrub_steps st Hok) as (t & st1 & st2 & Ht & H1 & H2 & Hap).
  rewrite Hap. cbn [fst snd].
  pose proof (state_ok_set_sa_time t st Hok) as Hok0.
  destruct (apply_arm_spec ArmA t _ Hok0)
    as (st1' & H1' & HA1 & HB1 & _ & _ & _ & Hok1 & _).
  rewrite H1 in H1'. injection H1' as <-.
  destruct (apply_arm_spec ArmB t _ Hok1)
    as (st2' & H2' & HA2 & HB2 & _ & _ & _ & Hok2 & _).
  rewrite H2 in H2'. injection H2' as <-.
  split; [done|]. split; [done|]. split; [by rewrite HA2, HA1|by rewrite HB2, HB1].
Qed.

(** X12.  A successful load.  When the file name is set and the parser
    returns a trajectory whose times are strictly increasing, with one pose
    per time (so no time is infinite twice, and none is nan), the load
    operator installs it for its arm, drops the bindings cached for that
    arm and then poses the scene as a move of the slider does.  It reports
    the number of samples and the duration, finishes without an error,
    leaves the trajectory of the other arm as it is, and caches freshly
    computed bindings for its arm.  Numbers are the rationals of this
    development: the duration is the exact difference of the two times. *)
Theorem load_execute_success (float_of : string -> option Q) (fs : FileSystem)
    (which : Arm) (st : State) (T : Trajectory) :
  state_ok st -> da_common_filename (scene st) <> EmptyString ->
  parse_single_arm float_of fs (load_path which (scene st))
    (da_delim (scene st)) (sa_time_unit (scene st))
    (sa_has_header (scene st)) (sa_degrees (scene st)) = Ok T ->
  traj_ok T ->
  let st1 := set_ARMREFS which None (set_TRAJ which (Some T) st) in
  let st' := _on_scrub_update st1 in
  exists t0 tl,
    head (traj_t T) = Some t0 /\ last (traj_t T) = Some tl /\
    load_execute float_of fs which st =
    (st', mkOutcome FINISHED
            [(INFO, arm_letter which +:+ ": "
                    +:+ str_N (N.of_nat (length (traj_t T)))
                    +:+ " samples (" +:+ format_3f (tl - t0) +:+ "s)")], true) /\
    state_ok st1 /\ state_ok st' /\
    TRAJ which st' = Some T /\
    (forall other, other <> which -> TRAJ other st' = TRAJ other st) /\
    ARMREFS which st' = Some (arm_key which (scene st), fresh_refs which st).
Proof.
  intros Hok Hname Hp HT st1 st'.
  assert (Hok1 : state_ok st1).
  { destruct Hok as [Ht Hr]. split.
    - intros w T' HT'. destruct which, w; cbn in HT';
        first [by injection HT' as <-|by eapply (Ht ArmA)|by eapply (Ht ArmB)].
    - intros w k refs Hk. destruct which, w; cbn in Hk;
        first [done|by eapply (Hr ArmA)|by eapply (Hr ArmB)]. }
  destruct (apply_pose_from_scrub_steps st1 Hok1) as (t & sa & sb & Ht & H1 & H2 & Hap).
  assert (Hst' : st' = sb) by (unfold st', _on_scrub_update; by rewrite Hap).
  destruct HT as (Hne & Hinc & Hlen).
  destruct (head (traj_t T)) as [x|] eqn:Hh; [|by apply head_None in Hh].
  destruct (last (traj_t T)) as [tl|] eqn:Hl; [|by apply last_None in Hl].
  exists x, tl. split; [done|]. split; [done|].
  assert (HT1 : TRAJ which st1 = Some T) by by destruct which.
  split.
  { unfold load_execute. fold (arm_folder which (scene st)).
    pose proof (load_path_nonempty which (scene st) Hname) as Hpath.
    unfold load_path in Hpath, Hp.
    destruct (da_common_filename (scene st)) as [|c name]; [done|].
    destruct (path_join _ _) as [|c' path']; [done|].
    rewrite Hp, py_index_0, py_index_last, Hh, Hl.
    fold st1. rewrite Hap, Hst'. done. }
  split; [done|].
  destruct (apply_pose_from_scrub_keeps st1 Hok1) as (_ & Hok' & HA & HB).
  fold (_on_scrub_update st1) in Hok', HA, HB. fold st' in Hok', HA, HB.
  split; [done|]. split; [|split].
  - destruct which; cbn [TRAJ]; [by rewrite HA|by rewrite HB].
  - intros other Hne'. destruct which, other; cbn [TRAJ]; first [done|by rewrite HA|by rewrite HB].
  - destruct (apply_pose_from_scrub_bones st1 which T Hok1 HT1) as (q & _ & Hc & _).
    fold (_on_scrub_update st1) in Hc. fold st' in Hc. rewrite Hc.
    assert (Hmiss : ensure_arm_refs which st1
                    = (fresh_refs which st1,
                       set_ARMREFS which (Some (arm_key which (scene st1),
                                                fresh_refs which st1)) st1)).
    { destruct (ensure_arm_refs_cases which st1) as [(r & Hr & _)|[_ He]]; [|done].
      by destruct which. }
    rewrite Hmiss. by destruct which.
Qed.

Lemma loaded_state_ok : state_ok loaded_state.
Proof.
  split.
  - intros [] T; cbn; intros [= <-]; by repeat split.
  - by intros [] k refs.
Qed.

Lemma load_execute_success_witness :
  exists st',
    load_execute py_float {["/a/traj.txt" := good_file]} ArmA loaded_state
    = (st', mkOutcome FINISHED [(INFO, "A: 2 samples (1.000s)")], true) /\
    TRAJ_B st' = TRAJ_B loaded_state.
Proof.
  destruct (load_execute_success py_float {["/a/traj.txt" := good_file]} ArmA loaded_state
              (mkTraj [5 # 1; 6 # 1]
                      [[1; 2 # 1; 3 # 1; 4 # 1; 5 # 1; 6 # 1; 7 # 1];
                       [2 # 1; 3 # 1; 4 # 1; 5 # 1; 6 # 1; 7 # 1; 8 # 1]])
              loaded_state_ok)
    as (t0 & tl & H0 & Hl & Hex & _ & _ & _ & Hother & _).
  - done.
  - by vm_compute.
  - by repeat split.
  - injection H0 as <-. injection Hl as <-.
    eexists. split; [exact Hex|]. by apply (Hother ArmB).
Defined.

Lemma apply_pose_from_scrub_set_sa_time x st :
  is_Some (scrub_time (TRAJ_A st) (TRAJ_B st) (sa_scrub (scene st))) ->
  apply_pose_from_scrub (set_sa_time x st) = apply_pose_from_scrub st.
Proof.
  intros [t Ht]. unfold apply_pose_from_scrub.
  cbn [set_sa_time TRAJ_A TRAJ_B scene sa_scrub]. by rewrite Ht.
Qed.

Lemma state_ok_install which T st :
  state_ok st -> traj_ok T ->
  state_ok (set_ARMREFS which None (set_TRAJ which (Some T) st)).
Proof.
  intros [Ht Hr] HT. split.
  - intros w T' HT'. destruct which, w; cbn in HT';
      first [by injection HT' as <-|by eapply (Ht ArmA)|by eapply (Ht ArmB)].
  - intros w k refs Hk. destruct which, w; cbn in Hk;
      first [done|by eapply (Hr ArmA)|by eapply (Hr ArmB)].
Qed.

(** X13.  Clearing an arm before a load that succeeds makes no difference:
    the load installs the trajectory, resets the bindings of the arm and
    sets [sa_time], which is all that clearing had changed. *)
Theorem load_after_clear (float_of : string -> option Q) (fs : FileSystem)
    (which : Arm) (st : State) (T : Trajectory) :
  state_ok st -> da_common_filename (scene st) <> EmptyString ->
  parse_single_arm float_of fs (load_path which (scene st))
    (da_delim (scene st)) (sa_time_unit (scene st))
    (sa_has_header (scene st)) (sa_degrees (scene st)) = Ok T ->
  load_execute float_of fs which (fst (clear_execute which st))
  = load_execute float_of fs which st.
Proof.
  intros Hok Hname Hp.
  pose proof (load_path_nonempty which (scene st) Hname) as Hpath.
  pose proof (state_ok_install which T st Hok
                (parse_single_arm_traj_ok _ _ _ _ _ _ _ _ Hp)) as Hok1.
  destruct (apply_pose_from_scrub_steps _ Hok1) as (t & _ & _ & Ht & _).
  pose proof (apply_pose_from_scrub_set_sa_time 0 _ (ex_intro _ t Ht)) as Hap.
  destruct (parse_single_arm_traj_ok _ _ _ _ _ _ _ _ Hp) as (Hne & _ & _).
  assert (Hh : is_Some (py_index (traj_t T) 0)).
  { rewrite py_index_0. destruct (traj_t T); [done|by eexists]. }
  assert (Hl : is_Some (py_index (traj_t T) (-1))).
  { rewrite py_index_last. destruct (last (traj_t T)) eqn:E; [by eexists|].
    by apply last_None in E. }
  destruct Hh as [t0 Hh], Hl as [tl Hl].
  unfold load_path, arm_folder in Hp, Hpath.
  unfold load_execute.
  destruct which; destruct st as [TA TB CA CB scn objs colls];
    destruct scn as [bn bone si sj sfa sfb fa fb fname dm tu hh dg scr tm tcpf rad step cm mat];
    unfold set_sa_time in Hap;
    cbn [clear_execute fst snd set_TRAJ set_ARMREFS set_sa_time scene TRAJ_A TRAJ_B
         ARMREFS_A ARMREFS_B objects collections sa_base_name sa_bone_name
         sa_start_index sa_joints sa_suffix_a sa_suffix_b sa_folder_a sa_folder_b
         da_common_filename da_delim sa_time_unit sa_has_header sa_degrees sa_scrub
         sa_time da_tcp_filename tcp_radius tcp_step tcp_column_major tcp_material]
      in Hp, Hpath, Hname, Hap |- *;
    (destruct fname as [|c name]; [done|]);
    (destruct (path_join _ _) as [|c' path']; [done|]);
    rewrite Hp, Hh, Hl; cbv zeta; by rewrite Hap.
Qed.

Lemma load_after_clear_witness :
  load_execute py_float {["/a/traj.txt" := good_file]} ArmA
               (fst (clear_execute ArmA loaded_state))
  = load_execute py_float {["/a/traj.txt" := good_file]} ArmA loaded_state.
Proof.
  apply (load_after_clear py_float {["/a/traj.txt" := good_file]} ArmA loaded_state
           (mkTraj [5 # 1; 6 # 1]
                   [[1; 2 # 1; 3 # 1; 4 # 1; 5 # 1; 6 # 1; 7 # 1];
                    [2 # 1; 3 # 1; 4 # 1; 5 # 1; 6 # 1; 7 # 1; 8 # 1]])).
  - exact loaded_state_ok.
  - done.
  - by vm_compute.
Defined.

(** X14.  Clearing an arm removes its trajectory and its cached bindings
    and sets [sa_time] to 0; the other arm, the objects of the scene with
    their bone angles, and the collections stay as they are, and the state
    remains one in which scrubbing raises no error. *)
Theorem clear_execute_keeps (which : Arm) (st : State) :
  state_ok st ->
  let st' := fst (clear_execute which st) in
  state_ok st' /\ snd (apply_pose_from_scrub st') = true /\
  TRAJ which st' = None /\ ARMREFS which st' = None /\
  (forall other, other <> which ->
     TRAJ other st' = TRAJ other st /\ ARMREFS other st' = ARMREFS other st) /\
  scene st' = scene (set_sa_time 0 st) /\
  objects st' = objects st /\ collections st' = collections st.
Proof.
  intros Hok st'.
  assert (Hok' : state_ok st').
  { destruct Hok as [Ht Hr]. split.
    - intros w T' HT'. destruct which, w; cbn in HT';
        first [done|by eapply (Ht ArmA)|by eapply (Ht ArmB)].
    - intros w k refs Hk. destruct which, w; cbn in Hk;
        first [done|by eapply (Hr ArmA)|by eapply (Hr ArmB)]. }
  split; [done|]. split; [by apply apply_pose_from_scrub_keeps|].
  split; [by destruct which|]. split; [by destruct which|].
  split; [intros other Hne; by destruct which, other|].
  split; [by destruct which|]. split; by destruct which.
Qed.

Lemma clear_execute_keeps_witness :
  TRAJ_A (fst (SA_OT_clear_a_execute loaded_state)) = None /\
  TRAJ_B (fst (SA_OT_clear_a_execute loaded_state)) = TRAJ_B loaded_state.
Proof.
  destruct (clear_execute_keeps ArmA loaded_state loaded_state_ok)
    as (_ & _ & HA & _ & Hother & _).
  split; [exact HA|]. by apply (Hother ArmB).
Defined.

(* ===================================================================== *)
(** * Further properties of the TCP operators *)

Lemma read_tcp_data_first_bad float_of delim_mode y_offset column_major pre line post :
  forall pts,
  existsb (tcp_bad_line float_of delim_mode) pre = false ->
  (non_numeric float_of delim_mode line = true ->
   read_tcp_data float_of delim_mode y_offset column_major (pre ++ line :: post) pts =
   Raise ("Non-numeric data in line: " +:+ line)) /\
  (non_numeric float_of delim_mode line = false ->
   (field_count delim_mode line < 17)%nat ->
   read_tcp_data float_of delim_mode y_offset column_major (pre ++ line :: post) pts =
   Raise ("Expected 17 numbers (t + 16 matrix). Got "
          +:+ str_N (N.of_nat (field_count delim_mode line)))).
Proof.
  induction pre as [|l pre IH]; intros pts Hg.
  - cbn [app read_tcp_data].
    destruct (floats float_of (split_fields delim_mode (strip line))) as [vals|] eqn:Ef.
    + assert (Hn : non_numeric float_of delim_mode line = false).
      { destruct (non_numeric _ _ _) eqn:E; [|done].
        apply floats_None in E. congruence. }
      rewrite Hn, (floats_Some_length _ _ _ _ Ef). split; [done|].
      intros _ Hc. apply Nat.ltb_lt in Hc. by rewrite Hc.
    + apply floats_None in Ef. rewrite Ef. by split.
  - cbn [existsb] in Hg. apply orb_false_iff in Hg as [Hl Hg].
    unfold tcp_bad_line in Hl. apply orb_false_iff in Hl as [Hn Hc].
    cbn [app read_tcp_data].
    destruct (floats float_of (split_fields delim_mode (strip l))) as [vals|] eqn:Ef.
    2:{ apply floats_None in Ef. congruence. }
    rewrite (floats_Some_length _ _ _ _ Ef), Hc. by apply IH.
Qed.

Lemma _parse_tcp_positions_data float_of (fs : FileSystem) filepath contents
    delim_mode has_header column_major y_offset :
  fs !! filepath = Some contents ->
  _parse_tcp_positions float_of fs filepath delim_mode has_header column_major y_offset =
  match read_tcp_data float_of delim_mode y_offset column_major
                      (data_lines has_header (file_lines contents)) [] with
  | Raise msg => Raise msg
  | Ok [] => Raise "No valid TCP rows found."
  | Ok pts => Ok pts
  end.
Proof.
  intros Hfs. unfold _parse_tcp_positions.
  rewrite Hfs, read_tcp_rows_read_data, andb_true_r. done.
Qed.

(** X15.  When the TCP parser fails.  For a file that exists the parser
    fails exactly when the file has no data line or a data line has a token
    that is no number or fewer than 17 fields; the error names the first
    such line, or its number of fields; a file without data lines gives "No
    valid TCP rows found.".  Otherwise the parser returns one point for
    every data line, in the order of the file. *)
Theorem parse_tcp_positions_failures (float_of : string -> option Q)
    (fs : FileSystem) (filepath contents : string) (delim_mode : Delim)
    (has_header column_major : bool) (y_offset : Q) :
  fs !! filepath = Some contents ->
  let dl := data_lines has_header (file_lines contents) in
  let parse := _parse_tcp_positions float_of fs filepath delim_mode has_header
                                    column_major y_offset in
  (is_ok parse = false <->
   existsb (tcp_bad_line float_of delim_mode) dl = true \/ dl = []) /\
  (forall pre line post,
     dl = pre ++ line :: post ->
     existsb (tcp_bad_line float_of delim_mode) pre = false ->
     (non_numeric float_of delim_mode line = true ->
      parse = Raise ("Non-numeric data in line: " +:+ line)) /\
     (non_numeric float_of delim_mode line = false ->
      (field_count delim_mode line < 17)%nat ->
      parse = Raise ("Expected 17 numbers (t + 16 matrix). Got "
                     +:+ str_N (N.of_nat (field_count delim_mode line))))) /\
  (dl = [] -> parse = Raise "No valid TCP rows found.") /\
  (forall pts, parse = Ok pts ->
     pts = map (fun line => tcp_point column_major y_offset
                              (line_values float_of delim_mode line)) dl).
Proof.
  intros Hfs dl parse.
  pose proof (_parse_tcp_positions_data float_of fs filepath contents delim_mode
                has_header column_major y_offset Hfs) as Hparse.
  fold dl parse in Hparse.
  assert (Hfirst : forall pre line post,
     dl = pre ++ line :: post ->
     existsb (tcp_bad_line float_of delim_mode) pre = false ->
     (non_numeric float_of delim_mode line = true ->
      parse = Raise ("Non-numeric data in line: " +:+ line)) /\
     (non_numeric float_of delim_mode line = false ->
      (field_count delim_mode line < 17)%nat ->
      parse = Raise ("Expected 17 numbers (t + 16 matrix). Got "
                     +:+ str_N (N.of_nat (field_count delim_mode line))))).
  { intros pre line post Hdl Hpre. rewrite Hparse, Hdl.
    destruct (read_tcp_data_first_bad float_of delim_mode y_offset column_major
                pre line post [] Hpre) as [H1 H2].
    split.
    - intros Hn. by rewrite (H1 Hn).
    - intros Hn Hc. by rewrite (H2 Hn Hc). }
  assert (Hgood : existsb (tcp_bad_line float_of delim_mode) dl = false -> dl <> [] ->
            parse = Ok (map (fun line => tcp_point column_major y_offset
                                           (line_values float_of delim_mode line)) dl)).
  { intros Hg Hne. by apply _parse_tcp_positions_good. }
  assert (Hbad : existsb (tcp_bad_line float_of delim_mode) dl = true ->
                 is_ok parse = false).
  { intros Hb. apply existsb_exists in Hb as (line & Hin & Hline).
    assert (Hsplit : exists pre l post, dl = pre ++ l :: post /\
              existsb (tcp_bad_line float_of delim_mode) pre = false /\
              tcp_bad_line float_of delim_mode l = true).
    { clear -Hin Hline. induction dl as [|l dl IH]; [done|].
      destruct (tcp_bad_line float_of delim_mode l) eqn:El.
      - by exists [], l, dl.
      - destruct Hin as [->|Hin]; [congruence|].
        destruct (IH Hin) as (pre & l' & post & -> & Hpre & Hl').
        exists (l :: pre), l', post. split; [done|]. split; [|done].
        cbn [existsb]. by rewrite El. }
    destruct Hsplit as (pre & l & post & Hdl & Hpre & Hl).
    destruct (Hfirst pre l post Hdl Hpre) as [H1 H2].
    unfold tcp_bad_line in Hl.
    destruct (non_numeric float_of delim_mode l) eqn:En.
    - by rewrite (H1 eq_refl).
    - cbn [orb] in Hl. apply Nat.ltb_lt in Hl. by rewrite (H2 eq_refl Hl). }
  assert (Hempty : dl = [] -> parse = Raise "No valid TCP rows found.").
  { intros Hdl. by rewrite Hparse, Hdl. }
  split; [|split; [done|split; [done|]]].
  - split.
    + intros Hfail.
      destruct (existsb (tcp_bad_line float_of delim_mode) dl) eqn:E; [by left|].
      right. destruct dl as [|l dl'] eqn:Edl; [done|].
      rewrite Hgood in Hfail; done.
    + intros [Hb|Hdl]; [by apply Hbad|]. by rewrite (Hempty Hdl).
  - intros pts Hp.
    destruct (existsb (tcp_bad_line float_of delim_mode) dl) eqn:E.
    { rewrite Hp in Hbad. by specialize (Hbad eq_refl). }
    destruct (decide (dl = [])) as [Hdl|Hne].
    { rewrite (Hempty Hdl) in Hp. done. }
    rewrite (Hgood eq_refl Hne) in Hp. by injection Hp as <-.
Qed.

Lemma parse_tcp_positions_failures_witness :
  _parse_tcp_positions py_float {["tcp.txt" := "0 1 0 0 10 0 1 0 20 0 0 1 30 0 0 0"]}
                       "tcp.txt" AUTO false false 0
  = Raise "Expected 17 numbers (t + 16 matrix). Got 16".
Proof.
  destruct (parse_tcp_positions_failures py_float
              {["tcp.txt" := "0 1 0 0 10 0 1 0 20 0 0 1 30 0 0 0"]}
              "tcp.txt" "0 1 0 0 10 0 1 0 20 0 0 1 30 0 0 0" AUTO false false 0
              (lookup_singleton_eq _ _))
    as (_ & H & _).
  destruct (H [] "0 1 0 0 10 0 1 0 20 0 0 1 30 0 0 0" [] eq_refl eq_refl) as [_ H2].
  apply H2; [reflexivity|]. vm_compute. lia.
Defined.

Lemma fold_delete_lookup {A} (names : list string) : forall (m : gmap string A) k,
  fold_left (fun colls name => delete name colls) names m !! k
  = if decide (k ∈ names) then None else m !! k.
Proof.
  induction names as [|n names IH]; intros m k; cbn [fold_left].
  - rewrite decide_False; [done|]. apply not_elem_of_nil.
  - rewrite IH. destruct (decide (k ∈ names)) as [Hin|Hnin].
    + rewrite decide_True; [done|]. by right.
    + destruct (decide (k = n)) as [->|Hne].
      * rewrite lookup_delete_eq. rewrite decide_True; [done|]. by left.
      * rewrite lookup_delete_ne by done. rewrite decide_False; [done|].
        by intros [?|?]%elem_of_cons.
Qed.

Lemma fold_delete_size {A} (names : list string) : forall (m : gmap string A),
  NoDup names -> (forall k, k ∈ names -> is_Some (m !! k)) ->
  (length names + size (fold_left (fun colls name => delete name colls) names m)
   = size m)%nat.
Proof.
  induction names as [|n names IH]; intros m Hnd Hin; cbn [fold_left length]; [done|].
  apply NoDup_cons in Hnd as [Hn Hnd].
  cbn [Nat.add]. rewrite IH; [| done |].
  - rewrite map_size_delete_Some by (apply Hin; by left).
    assert (size m <> 0%nat); [|lia].
    intros Hz. apply map_size_empty_inv in Hz. subst m.
    destruct (Hin n) as [x Hx]; [by left|]. by rewrite lookup_empty in Hx.
  - intros k Hk. rewrite lookup_delete_ne; [apply Hin; by right|].
    intros ->. done.
Qed.

(** The names [_clear_tcp_by_prefix] collects: each collection with the
    prefix, once. *)
Lemma prefix_names_spec {A} (prefix : string) (m : gmap string A) :
  let names := List.filter (fun name => startswith prefix name)
                           (map fst (map_to_list m)) in
  NoDup names /\
  forall k, k ∈ names <-> is_Some (m !! k) /\ startswith prefix k = true.
Proof.
  intros names. split.
  - unfold names. apply NoDup_ListNoDup, List.NoDup_filter, NoDup_ListNoDup.
    apply NoDup_fst_map_to_list.
  - intros k. unfold names. rewrite list_elem_of_In, filter_In, <- list_elem_of_In.
    assert (Hk : k ∈ map fst (map_to_list m) <-> is_Some (m !! k)).
    { split.
      - intros [[k' v] [-> Hin]]%list_elem_of_fmap.
        apply elem_of_map_to_list in Hin. by exists v.
      - intros [v Hv]. apply list_elem_of_fmap. exists (k, v).
        split; [done|]. by apply elem_of_map_to_list. }
    by rewrite Hk.
Qed.

Lemma _clear_tcp_by_prefix_lookup prefix st name :
  collections (snd (_clear_tcp_by_prefix prefix st)) !! name
  = if startswith prefix name then None else collections st !! name.
Proof.
  unfold _clear_tcp_by_prefix. cbn [snd collections set_collections].
  rewrite fold_delete_lookup.
  destruct (prefix_names_spec prefix (collections st)) as [_ Hnames].
  destruct (decide _) as [Hin|Hnin].
  - apply Hnames in Hin as [_ ->]. done.
  - destruct (startswith prefix name) eqn:Hp; [|done].
    destruct (collections st !! name) as [v|] eqn:Hv; [|done].
    exfalso. apply Hnin, Hnames. split; [by exists v|done].
Qed.

Lemma _clear_tcp_by_prefix_size prefix st :
  (fst (_clear_tcp_by_prefix prefix st)
   + size (collections (snd (_clear_tcp_by_prefix prefix st)))
   = size (collections st))%nat.
Proof.
  unfold _clear_tcp_by_prefix. cbn [fst snd collections set_collections].
  destruct (prefix_names_spec prefix (collections st)) as [Hnd Hnames].
  apply fold_delete_size; [done|]. intros k Hk. by apply Hnames in Hk as [? _].
Qed.

(** X16.  Clearing the TCP display of an arm.  Exactly the collections
    whose name starts with the prefix of the arm are removed; every other
    collection, and everything else in the state, stays as it is; and the
    number that is reported is the number of collections removed.  (The
    objects deleted with a collection are its markers: the state keeps
    markers in collections only.) *)
Theorem clear_tcp_by_prefix_spec (prefix : string) (st : State) :
  let n := fst (_clear_tcp_by_prefix prefix st) in
  let st' := snd (_clear_tcp_by_prefix prefix st) in
  (forall name, collections st' !! name
                = if startswith prefix name then None else collections st !! name) /\
  (n + size (collections st') = size (collections st))%nat /\
  st' = set_collections (collections st') st.
Proof.
  split; [|split].
  - apply _clear_tcp_by_prefix_lookup.
  - apply _clear_tcp_by_prefix_size.
  - done.
Qed.

Lemma set_collections_same st : set_collections (collections st) st = st.
Proof. by destruct st. Qed.

Lemma startswith_tcp_prefix which fname :
  startswith ("TCP " +:+ arm_letter which +:+ " (") (tcp_collection which fname) = true.
Proof. by destruct which. Qed.

(** X17.  Showing the TCP points of an arm and then clearing them leaves
    the collections as they were, when no collection of that arm was there
    before: the clear operator removes the one collection that was made and
    reports one collection cleared; the trajectories, the cached bindings
    and the scene settings are those from before the display.  Nothing is
    said about the objects: the sphere template that the display creates
    when it is missing is kept on purpose. *)
Theorem tcp_visualize_then_clear (float_of : string -> option Q) (fs : FileSystem)
    (which : Arm) (st st1 : State) (out : Outcome) :
  (forall name, startswith ("TCP " +:+ arm_letter which +:+ " (") name = true ->
                collections st !! name = None) ->
  tcp_visualize_execute float_of fs which st = (st1, out) ->
  status out = FINISHED ->
  exists st2,
    tcp_clear_execute which st1 =
    (st2, mkOutcome FINISHED
            [(INFO, "TCP " +:+ arm_letter which +:+ ": cleared 1 collection(s)")]) /\
    collections st2 = collections st /\
    TRAJ_A st2 = TRAJ_A st /\ TRAJ_B st2 = TRAJ_B st /\
    ARMREFS_A st2 = ARMREFS_A st /\ ARMREFS_B st2 = ARMREFS_B st /\
    scene st2 = scene st.
Proof.
  intros Hnone Hvis Hfin.
  set (prefix := "TCP " +:+ arm_letter which +:+ " (").
  assert (Hst1 : exists markers,
            st1 = set_collections
                    (<[tcp_collection which (da_tcp_filename (scene st)) := markers]>
                       (collections st)) st).
  { unfold tcp_visualize_execute in Hvis.
    destruct (match which with ArmA => _ | ArmB => _ end) as [|c folder];
      [injection Hvis as <- <-; done|].
    destruct (da_tcp_filename (scene st)) as [|c' fname] eqn:En;
      [injection Hvis as <- <-; done|].
    destruct (_parse_tcp_positions _ _ _ _ _ _ _) as [pts|e];
      [|injection Hvis as <- <-; done].
    unfold _scatter_tcp_points in Hvis. injection Hvis as <- _.
    eexists. reflexivity. }
  destruct Hst1 as [markers ->].
  set (name := tcp_collection which (da_tcp_filename (scene st))).
  set (st1 := set_collections (<[name := markers]> (collections st)) st).
  assert (Hname : startswith prefix name = true) by apply startswith_tcp_prefix.
  assert (Hcoll : collections (snd (_clear_tcp_by_prefix prefix st1)) = collections st).
  { apply map_eq. intros k. rewrite _clear_tcp_by_prefix_lookup.
    destruct (startswith prefix k) eqn:Hk; [by rewrite Hnone|].
    cbn [st1 collections set_collections]. apply lookup_insert_ne. congruence. }
  pose proof (_clear_tcp_by_prefix_size prefix st1) as Hsize.
  rewrite Hcoll in Hsize. cbn [st1 collections set_collections] in Hsize.
  rewrite map_size_insert_None in Hsize by by apply Hnone.
  assert (Hn : fst (_clear_tcp_by_prefix prefix st1) = 1%nat) by lia.
  unfold tcp_clear_execute. fold prefix.
  destruct (_clear_tcp_by_prefix prefix st1) as [n st'] eqn:Hc.
  cbn [fst snd] in Hn, Hcoll. subst n.
  assert (Hst' : st' = set_collections (collections st') st).
  { pose proof (f_equal snd Hc) as H'. cbn [snd] in H'. rewrite <- H'. reflexivity. }
  exists st'. split; [done|]. split; [done|]. by rewrite Hst'.
Qed.

Lemma tcp_visualize_then_clear_witness :
  exists st2,
    tcp_clear_execute ArmA
      (fst (tcp_visualize_execute py_float {["/a/tcp.txt" := tcp_file]} ArmA tcp_state))
    = (st2, mkOutcome FINISHED [(INFO, "TCP A: cleared 1 collection(s)")]) /\
    collections st2 = collections tcp_state.
Proof.
  destruct (tcp_visualize_execute py_float {["/a/tcp.txt" := tcp_file]} ArmA tcp_state)
    as [st1 out] eqn:E.
  destruct (tcp_visualize_then_clear py_float {["/a/tcp.txt" := tcp_file]} ArmA
              tcp_state st1 out) as (st2 & Hc & Hcoll & _).
  - intros name _. apply lookup_empty.
  - exact E.
  - vm_compute in E. by injection E as _ <-.
  - exists st2. split; [exact Hc|exact Hcoll].
Defined.

Lemma slice_from_length {A} (step : nat) (l : list A) : forall skip,
  (1 <= step)%nat ->
  length (slice_from step skip l)
  = if (length l <=? skip)%nat then 0%nat else S ((length l - skip - 1) / step).
Proof.
  induction l as [|x l IH]; intros skip Hstep; [done|].
  destruct skip as [|k]; cbn [slice_from length].
  - rewrite IH by done. cbn [Nat.leb]. rewrite Nat.sub_0_r. cbn [Nat.sub]. f_equal.
    rewrite Nat.sub_0_r.
    destruct (length l <=? step - 1)%nat eqn:E.
    + apply Nat.leb_le in E. rewrite Nat.div_small; [done|lia].
    + apply Nat.leb_gt in E.
      replace (length l) with (1 * step + (length l - (step - 1) - 1))%nat at 2 by lia.
      rewrite Nat.div_add_l by lia. done.
  - rewrite IH by done. done.
Qed.

Lemma slice_step_length {A} (step : nat) (l : list A) :
  (1 <= step)%nat -> length (slice_step step l) = ((length l + step - 1) / step)%nat.
Proof.
  intros Hstep. unfold slice_step. rewrite slice_from_length by done.
  destruct l as [|x l]; cbn [length Nat.leb].
  - rewrite Nat.div_small; [done|lia].
  - replace (S (length l) + step - 1)%nat with (1 * step + length l)%nat by lia.
    rewrite Nat.div_add_l by lia. f_equal. f_equal. lia.
Qed.

(** X18.  How many points are shown.  For a file that parses and a step of
    at least 1, the operator adds to the collection of the arm one marker
    for every [tcp_step]-th data line, that is the number of data lines
    divided by the step and rounded up, and reports this number. *)
Theorem tcp_visualize_count (float_of : string -> option Q) (fs : FileSystem)
    (which : Arm) (st : State) (contents : string) :
  let scn := scene st in
  arm_folder which scn <> EmptyString -> da_tcp_filename scn <> EmptyString ->
  fs !! path_join (arm_folder which scn) (da_tcp_filename scn) = Some contents ->
  let dl := data_lines (sa_has_header scn) (file_lines contents) in
  dl <> [] -> existsb (tcp_bad_line float_of (da_delim scn)) dl = false ->
  (1 <= tcp_step scn)%nat ->
  let k := ((length dl + tcp_step scn - 1) / tcp_step scn)%nat in
  let name := tcp_collection which (da_tcp_filename scn) in
  exists st' markers,
    tcp_visualize_execute float_of fs which st =
    (st', mkOutcome FINISHED
            [(INFO, "TCP " +:+ arm_letter which +:+ ": Plotted "
                    +:+ str_N (N.of_nat k) +:+ " points")]) /\
    collections st' !! name = Some (default [] (collections st !! name) ++ markers) /\
    length markers = k /\ (1 <= k)%nat /\
    (forall other, other <> name -> collections st' !! other = collections st !! other).
Proof.
  intros scn Hfolder Hfname Hfs dl Hne Hgood Hstep k name.
  unfold tcp_visualize_execute. fold scn. fold (arm_folder which scn).
  destruct (arm_folder which scn) as [|c folder] eqn:Ef; [done|].
  destruct (da_tcp_filename scn) as [|c' fname] eqn:En; [done|].
  rewrite (_parse_tcp_positions_good float_of fs _ contents _ _ _ _ Hfs Hne Hgood).
  fold dl. unfold _scatter_tcp_points.
  set (pts := map (fun line => tcp_point (tcp_column_major scn) (tcp_y_offset which)
                                 (line_values float_of (da_delim scn) line)) dl).
  set (pts' := if (1 <? tcp_step scn)%nat then slice_step (tcp_step scn) pts else pts).
  assert (Hk : length pts' = k).
  { unfold pts', k. destruct (1 <? tcp_step scn)%nat eqn:E.
    - rewrite slice_step_length by done. unfold pts. by rewrite length_map.
    - apply Nat.ltb_ge in E. assert (tcp_step scn = 1%nat) as -> by lia.
      rewrite Nat.div_1_r. unfold pts. rewrite length_map. lia. }
  eexists _, _. split; [by rewrite Hk|].
  cbn [collections set_collections]. split; [|split; [|split]].
  - unfold name, tcp_collection. by rewrite lookup_insert_eq.
  - by rewrite length_imap.
  - unfold k. destruct dl as [|l dl']; [done|]. cbn [length].
    apply Nat.div_str_pos. lia.
  - intros other Hother. apply lookup_insert_ne. unfold name, tcp_collection in Hother.
    congruence.
Qed.

Lemma tcp_visualize_count_witness :
  exists st',
    tcp_visualize_execute py_float {["/a/tcp.txt" := tcp_file]} ArmA tcp_state
    = (st', mkOutcome FINISHED [(INFO, "TCP A: Plotted 1 points")]).
Proof.
  destruct (tcp_visualize_count py_float {["/a/tcp.txt" := tcp_file]} ArmA tcp_state
              tcp_file) as (st' & markers & H & _).
  - done.
  - done.
  - by vm_compute.
  - by vm_compute.
  - by vm_compute.
  - vm_compute. lia.
  - by exists st'.
Defined.

(** X19.  A TCP display that fails changes nothing.  The operator is
    cancelled exactly when the folder or the file name is empty or the
    parser fails; then the state is the one before.  Whether it is cancelled
    or finishes, the trajectories, the cached bindings and the scene
    settings are those from before. *)
Theorem tcp_visualize_atomic (float_of : string -> option Q) (fs : FileSystem)
    (which : Arm) (st : State) :
  let scn := scene st in
  let parse :=
    _parse_tcp_positions float_of fs
      (path_join (arm_folder which scn) (da_tcp_filename scn))
      (da_delim scn) (sa_has_header scn) (tcp_column_major scn) (tcp_y_offset which) in
  let r := tcp_visualize_execute float_of fs which st in
  (status (snd r) = CANCELLED <->
   arm_folder which scn = EmptyString \/ da_tcp_filename scn = EmptyString \/
   is_ok parse = false) /\
  (status (snd r) = CANCELLED -> fst r = st) /\
  TRAJ_A (fst r) = TRAJ_A st /\ TRAJ_B (fst r) = TRAJ_B st /\
  ARMREFS_A (fst r) = ARMREFS_A st /\ ARMREFS_B (fst r) = ARMREFS_B st /\
  scene (fst r) = scene st.
Proof.
  intros scn parse r. unfold r, parse, tcp_visualize_execute.
  fold scn. fold (arm_folder which scn).
  destruct (arm_folder which scn) as [|c folder] eqn:Ef.
  { cbn [fst snd status]. split; [|done]. split; [by left|done]. }
  destruct (da_tcp_filename scn) as [|c' fname] eqn:En.
  { cbn [fst snd status]. split; [|done]. split; [by (right; left)|done]. }
  destruct (_parse_tcp_positions _ _ _ _ _ _ _) as [pts|e].
  - unfold _scatter_tcp_points. cbn [fst snd status is_ok]. split; [|done].
    split; [done|]. by intros [|[|]].
  - cbn [fst snd status is_ok]. split; [|done]. split; [|done]. intros _. by right; right.
Qed.

Lemma tcp_visualize_atomic_witness :
  tcp_visualize_execute py_float ∅ ArmA tcp_state
  = (tcp_state, mkOutcome CANCELLED [(ERROR, "TCP A: File not found: /a/tcp.txt")]).
Proof.
  destruct (tcp_visualize_atomic py_float ∅ ArmA tcp_state) as ([_ Hc] & Hst & _).
  destruct (tcp_visualize_execute py_float ∅ ArmA tcp_state) as [st' out] eqn:E.
  cbn [fst snd] in Hc, Hst. rewrite (Hst (Hc (or_intror (or_intror eq_refl)))).
  vm_compute in E. injection E as _ <-. reflexivity.
Defined.

(* ===================================================================== *)
(** * Further properties of the importer *)

Lemma least_below (P : nat -> Prop) (Hdec : forall n, Decision (P n)) n :
  (forall j, (j < n)%nat -> ~ P j) \/
  (exists k, (k < n)%nat /\ P k /\ forall j, (j < k)%nat -> ~ P j).
Proof.
  induction n as [|n [Hnone|Hsome]].
  - left. intros j Hj. lia.
  - destruct (Hdec n) as [Hn|Hn].
    + right. exists n. split; [lia|]. by split.
    + left. intros j Hj. destruct (decide (j = n)) as [->|]; [done|]. apply Hnone. lia.
  - right. destruct Hsome as (k & Hk & HP & Hleast). exists k. split; [lia|]. by split.
Qed.

Lemma unique_name_loop_least base (existing : gset string) k : forall rounds i,
  (k < rounds)%nat -> candidate base (i + N.of_nat k) ∉ existing ->
  (forall j, (j < k)%nat -> candidate base (i + N.of_nat j) ∈ existing) ->
  unique_name_loop rounds base existing i = Some (candidate base (i + N.of_nat k)).
Proof.
  induction k as [|k IH]; intros rounds i Hk Hfree Hused;
    (destruct rounds as [|rounds]; [lia|]); cbn [unique_name_loop];
    fold (candidate base i).
  - rewrite N.add_0_r in *. by rewrite decide_False.
  - rewrite decide_True.
    2:{ specialize (Hused 0%nat). rewrite N.add_0_r in Hused. apply Hused. lia. }
    replace (i + N.of_nat (S k))%N with (i + 1 + N.of_nat k)%N in * by lia.
    apply IH; [lia|done|].
    intros j Hj. specialize (Hused (S j)).
    replace (i + N.of_nat (S j))%N with (i + 1 + N.of_nat j)%N in Hused by lia.
    apply Hused. lia.
Qed.

(** X20.  The name chosen for a taken base name is the base name with the
    least suffix [.001], [.002], ... that is free: every smaller suffix is
    in use. *)
Theorem unique_name_least (base : string) (existing_names : gset string) :
  base ∈ existing_names ->
  exists i, (1 <= i)%N /\
    _unique_name base existing_names = Some (base +:+ "." +:+ format_03d i) /\
    (base +:+ "." +:+ format_03d i ∉ existing_names) /\
    forall j, (1 <= j < i)%N -> base +:+ "." +:+ format_03d j ∈ existing_names.
Proof.
  intros Hin. unfold _unique_name. rewrite decide_True by done.
  set (P := fun k : nat => candidate base (1 + N.of_nat k) ∉ existing_names).
  destruct (candidate_free base existing_names 1) as (k0 & Hk0 & Hfree0).
  destruct (least_below P (fun n => _) (S k0)) as [Hnone|(k & Hk & Hfree & Hleast)].
  { exfalso. apply (Hnone k0); [lia|done]. }
  exists (1 + N.of_nat k)%N. split; [lia|]. split; [|split; [done|]].
  - apply unique_name_loop_least; [lia|done|].
    intros j Hj. destruct (decide (candidate base (1 + N.of_nat j) ∈ existing_names));
      [done|]. by destruct (Hleast j Hj).
  - intros j Hj. specialize (Hleast (N.to_nat (j - 1))).
    unfold P in Hleast. replace (1 + N.of_nat (N.to_nat (j - 1)))%N with j in Hleast by lia.
    destruct (decide (candidate base j ∈ existing_names)) as [|Hout]; [done|].
    exfalso. apply Hleast; [lia|done].
Qed.

Lemma unique_name_least_witness :
  _unique_name "cube" {[ "cube"; "cube.001"; "cube.003" ]} = Some "cube.002".
Proof.
  destruct (unique_name_least "cube" {[ "cube"; "cube.001"; "cube.003" ]})
    as (i & Hi & Hname & Hfree & Hleast).
  - set_solver.
  - rewrite Hname. f_equal.
    destruct (decide (i = 1)%N) as [->|H1].
    { exfalso. apply Hfree. vm_compute. set_solver. }
    destruct (decide (i = 2)%N) as [->|H2]; [reflexivity|].
    exfalso. specialize (Hleast 2%N). 
    assert (Hin : "cube.002" ∈ ({[ "cube"; "cube.001"; "cube.003" ]} : gset string)).
    { apply Hleast. lia. }
    set_solver.
Defined.

Lemma parse_floats_length float_of line n vals :
  parse_floats float_of line n = Ok vals -> length vals = n.
Proof.
  unfold parse_floats. destruct (mapM float_of _) as [vs|]; [|done].
  destruct (decide (length vs = n)); [|done]. by intros [= <-].
Qed.

(** The loop over the lines, by the number of lines left: every entry it
    adds has a name and vectors of the lengths 3, 4 and 3, and takes ten
    lines. *)
Lemma scene_entries_shaped float_of n : forall it entries r,
  (length it <= n)%nat ->
  Forall (fun e => entry_shaped e /\ e_name e <> EmptyString) entries ->
  scene_entries float_of it entries = Ok r ->
  Forall (fun e => entry_shaped e /\ e_name e <> EmptyString) r /\
  (10 * length r <= 10 * length entries + length it)%nat.
Proof.
  induction n as [|n IH]; intros it entries r Hn Hall.
  { destruct it; [|simpl in Hn; lia]. cbn. intros [= <-]. split; [done|lia]. }
  destruct it as [|line it]; [cbn; intros [= <-]; split; [done|lia]|].
  cbn [length] in Hn. cbn [scene_entries].
  destruct (startswith "* " line); cbn [negb].
  2:{ intros Hr. apply IH in Hr as [H1 H2]; [|lia|done]. split; [done|]. cbn [length]. lia. }
  destruct it as [|l1 it]; [done|].
  destruct (parse_floats float_of l1 3) as [pos|] eqn:Hpos; [|done].
  destruct it as [|l2 it]; [done|].
  destruct (parse_floats float_of l2 4) as [quat|] eqn:Hquat; [|done].
  destruct it as [|l3 it]; [done|].
  destruct it as [|l4 it]; [done|].
  destruct it as [|l5 it]; [done|].
  destruct (parse_floats float_of l5 3) as [size|] eqn:Hsize; [|done].
  destruct it as [|l6 it]; [done|].
  destruct it as [|l7 it]; [done|].
  destruct it as [|l8 it]; [done|].
  destruct it as [|l9 it]; [done|].
  cbn [length] in Hn |- *.
  intros Hr. apply IH in Hr as [H1 H2]; [| lia |].
  - split; [done|]. rewrite length_app in H2. cbn [length] in H2. lia.
  - apply Forall_app. split; [done|]. constructor; [|done]. split.
    + unfold entry_shaped. cbn [e_pos e_quat_xyzw e_size].
      by rewrite (parse_floats_length _ _ _ _ Hpos), (parse_floats_length _ _ _ _ Hquat),
                 (parse_floats_length _ _ _ _ Hsize).
    + cbn [e_name]. by destruct (strip _).
Qed.

Lemma scene_entries_no_star float_of it : forall entries,
  Forall (fun line => startswith "* " line = false) it ->
  scene_entries float_of it entries = Ok entries.
Proof.
  induction it as [|line it IH]; intros entries Hall; [done|].
  apply Forall_cons in Hall as [Hline Hall].
  cbn [scene_entries]. rewrite Hline. cbn [negb]. by apply IH.
Qed.

(** X21.  The entries read from a scene file.  The first line needs no
    special treatment: the result is that of the loop run over all
    non-empty lines, which passes over every line before the first line
    that starts with "* ".  A file without such a line has no entries.
    Every entry that is returned has a name that is not empty, a position
    and a size of three numbers and a quaternion of four, and took ten
    lines of the file. *)
Theorem parse_scene_file_entries (float_of : string -> option Q) (contents : string) :
  let lines := nonempty_lines (file_lines contents) in
  _parse_scene_file float_of contents = scene_entries float_of lines [] /\
  (Forall (fun line => startswith "* " line = false) lines ->
   _parse_scene_file float_of contents = Ok []) /\
  (forall entries, _parse_scene_file float_of contents = Ok entries ->
     Forall (fun e => entry_shaped e /\ e_name e <> EmptyString) entries /\
     (10 * length entries <= length lines)%nat).
Proof.
  intros lines.
  assert (Heq : _parse_scene_file float_of contents = scene_entries float_of lines []).
  { unfold _parse_scene_file. fold lines. destruct lines as [|first it]; [done|].
    destruct (startswith "* " first) eqn:E; [done|].
    cbn [scene_entries]. by rewrite E. }
  split; [done|]. split.
  - intros Hall. rewrite Heq. by apply scene_entries_no_star.
  - intros entries Hr. rewrite Heq in Hr.
    apply (scene_entries_shaped float_of (length lines)) in Hr as [H1 H2]; [|done|done].
    split; [done|]. cbn [length] in H2. lia.
Qed.

Lemma parse_scene_file_entries_witness :
  _parse_scene_file py_float "(noname)+
some remark
." = Ok [].
Proof.
  destruct (parse_scene_file_entries py_float "(noname)+
some remark
.") as (_ & H & _).
  apply H. vm_compute. by repeat constructor.
Defined.

Lemma import_entries_fresh (new_mesh_name : gset string -> string) entries :
  forall w created,
  let boxes := List.filter (fun e => bool_decide (e_shape e = "box")) entries in
  NoDup (map e_name boxes) ->
  (forall nm, nm ∈ map e_name boxes -> nm ∉ obj_names w) ->
  exists w', import_entries new_mesh_name entries w created
             = Some (created ++ map e_name boxes, w') /\
             obj_names w' = obj_names w ∪ list_to_set (map e_name boxes).
Proof.
  induction entries as [|e entries IH]; intros w created boxes Hnd Hfree.
  - exists w. cbn. rewrite app_nil_r. split; [done|]. by rewrite (right_id_L ∅ (∪)).
  - unfold boxes in *. cbn [import_entries List.filter] in *.
    destruct (decide (e_shape e = "box")) as [Hbox|Hbox].
    2:{ rewrite bool_decide_eq_false_2 in * by done. by apply IH. }
    rewrite bool_decide_eq_true_2 in * by done. cbn [map] in *.
    apply NoDup_cons in Hnd as [Hnotin Hnd].
    destruct (_spawn_cube_unique_spec new_mesh_name (e_name e) w)
      as (nm & w1 & -> & _ & Hbase & Hw1).
    assert (nm = e_name e) as ->.
    { apply Hbase, Hfree. by left. }
    cbn [mbind option_bind fst snd].
    destruct (IH w1 (created ++ [e_name e]) Hnd) as (w' & -> & Hw').
    + intros x Hx. rewrite Hw1. intros [Hin|Hin%elem_of_singleton]%elem_of_union.
      * apply (Hfree x); [by right|done].
      * by subst x.
    + exists w'. rewrite <- app_assoc. split; [done|].
      rewrite Hw', Hw1. cbn [list_to_set]. by rewrite (assoc_L (∪)).
Qed.

(** X22.  No renaming without need.  When the names of the box entries of
    a file differ from one another and none of them is the name of an
    object, the cubes get exactly these names, in the order of the file;
    entries of another shape give no cube; and the object names afterwards
    are the ones before together with those of the cubes. *)
Theorem import_entries_keeps_names (new_mesh_name : gset string -> string)
    (entries : list Entry) (w : Names) :
  let boxes := List.filter (fun e => bool_decide (e_shape e = "box")) entries in
  NoDup (map e_name boxes) ->
  (forall nm, nm ∈ map e_name boxes -> nm ∉ obj_names w) ->
  exists w', import_entries new_mesh_name entries w [] = Some (map e_name boxes, w') /\
             obj_names w' = obj_names w ∪ list_to_set (map e_name boxes).
Proof.
  intros boxes Hnd Hfree.
  by apply (import_entries_fresh new_mesh_name entries w []).
Qed.

Lemma import_entries_keeps_names_witness :
  exists w',
    import_entries (fun _ => "Cube")
      [mkEntry "table" [0; 0; 0] [0; 0; 0; 1] "box" [1; 1; 1];
       mkEntry "ball" [0; 0; 0] [0; 0; 0; 1] "sphere" [1; 1; 1];
       mkEntry "shelf" [0; 0; 0] [0; 0; 0; 1] "box" [1; 1; 1]]
      (mkNames {[ "Camera" ]} ∅) []
    = Some (["table"; "shelf"], w').
Proof.
  destruct (import_entries_keeps_names (fun _ => "Cube")
      [mkEntry "table" [0; 0; 0] [0; 0; 0; 1] "box" [1; 1; 1];
       mkEntry "ball" [0; 0; 0] [0; 0; 0; 1] "sphere" [1; 1; 1];
       mkEntry "shelf" [0; 0; 0] [0; 0; 0; 1] "box" [1; 1; 1]]
      (mkNames {[ "Camera" ]} ∅)) as (w' & H & _).
  - change (NoDup ["table"; "shelf"]). apply NoDup_cons.
    split; [by intros ?%list_elem_of_singleton|apply NoDup_singleton].
  - intros nm Hin Hc. change (nm ∈ ["table"; "shelf"]) in Hin.
    cbn [obj_names] in Hc. apply elem_of_singleton in Hc. subst nm.
    apply elem_of_cons in Hin as [Hin|Hin]; [done|].
    by apply list_elem_of_singleton in Hin.
  - by exists w'.
Defined.

(* ===================================================================== *)
(** * The order of the exported objects *)

Lemma string_compare_refl (s : string) : String.compare s s = Eq.
Proof.
  pose proof (String.compare_antisym s s) as H.
  by destruct (String.compare s s).
Qed.

Lemma string_compare_le_trans (a : string) : forall b c,
  String.compare a b <> Gt -> String.compare b c <> Gt -> String.compare a c <> Gt.
Proof.
  induction a as [|x a IH]; intros [|y b] [|z c]; cbn [String.compare]; try done.
  unfold Ascii.compare.
  destruct (N.compare_spec (N_of_ascii x) (N_of_ascii y)) as [Hxy|Hxy|Hxy];
    destruct (N.compare_spec (N_of_ascii y) (N_of_ascii z)) as [Hyz|Hyz|Hyz];
    destruct (N.compare_spec (N_of_ascii x) (N_of_ascii z)) as [Hxz|Hxz|Hxz];
    intros H1 H2; try done; try lia. by eapply IH.
Qed.

Lemma string_ltb_asym (a b : string) : String.ltb a b = true -> String.ltb b a = false.
Proof.
  unfold String.ltb. rewrite (String.compare_antisym b a).
  by destruct (String.compare a b).
Qed.

Lemma string_ltb_leb (a b : string) : String.ltb b a = false <-> String.leb a b = true.
Proof.
  unfold String.ltb, String.leb. rewrite (String.compare_antisym b a).
  by destruct (String.compare a b).
Qed.

Lemma string_leb_trans (a b c : string) :
  String.leb a b = true -> String.leb b c = true -> String.leb a c = true.
Proof.
  unfold String.leb. intros H1 H2.
  pose proof (string_compare_le_trans a b c) as H.
  destruct (String.compare a b), (String.compare b c), (String.compare a c);
    try done; exfalso; by apply H.
Qed.

Section SortedByKey.

Context {A : Type}.
Variable key : A -> string.

Lemma insert_sorted_key_elem x l y :
  y ∈ insert_sorted (key_lt key) x l -> y = x \/ y ∈ l.
Proof.
  intros Hy. apply (elem_of_Permutation_proper _ _ _ (insert_sorted_perm (key_lt key) x l)) in Hy.
  by apply elem_of_cons in Hy.
Qed.

Lemma insert_sorted_key_sorted x l :
  StronglySorted (key_le key) l -> StronglySorted (key_le key) (insert_sorted (key_lt key) x l).
Proof.
  induction l as [|y l IH]; intros Hs; cbn [insert_sorted].
  - by repeat constructor.
  - apply StronglySorted_inv in Hs as [Hs Hall].
    destruct ((key_lt key) y x) eqn:E.
    + constructor; [by apply IH|]. apply Forall_forall. intros z Hz.
      apply insert_sorted_key_elem in Hz as [->|Hz].
      * apply string_ltb_leb. by apply string_ltb_asym.
      * rewrite Forall_forall in Hall. by apply Hall.
    + assert (Hxy : (key_le key) x y) by by apply string_ltb_leb.
      constructor; [by constructor|]. constructor; [done|].
      eapply Forall_impl; [exact Hall|]. intros z Hz.
      by apply (string_leb_trans _ (key y)).
Qed.

Lemma sorted_key_sorted l : StronglySorted (key_le key) (sorted (key_lt key) l).
Proof.
  induction l as [|x l IH]; [constructor|]. by apply insert_sorted_key_sorted.
Qed.

Lemma insert_sorted_key_filter k x l :
  List.filter (fun o => String.eqb (key o) k) (insert_sorted (key_lt key) x l)
  = List.filter (fun o => String.eqb (key o) k) (x :: l).
Proof.
  induction l as [|y l IH]; [done|]. cbn [insert_sorted].
  destruct ((key_lt key) y x) eqn:E; [|done].
  cbn [List.filter] in *. rewrite IH.
  destruct (String.eqb (key x) k) eqn:Ex; [|done].
  destruct (String.eqb (key y) k) eqn:Ey; [|done].
  apply String.eqb_eq in Ex, Ey. unfold key_lt, String.ltb in E.
  rewrite Ex, Ey, string_compare_refl in E. done.
Qed.

Lemma sorted_key_filter k l :
  List.filter (fun o => String.eqb (key o) k) (sorted (key_lt key) l)
  = List.filter (fun o => String.eqb (key o) k) l.
Proof.
  induction l as [|x l IH]; [done|]. cbn [sorted].
  rewrite insert_sorted_key_filter. cbn [List.filter]. by rewrite IH.
Qed.

End SortedByKey.

(** X23.  The order of the exported blocks.  The objects are written by
    their lower-cased names in the order of the strings, never a greater
    name before a smaller one, and objects whose lower-cased names are
    equal are written in the order in which they are selected. *)
Theorem export_objects_order (selected : list SceneObject) :
  let key := fun o : SceneObject => lower (o_name o) in
  let objs := export_objects selected in
  StronglySorted (fun a b => String.leb (key a) (key b) = true) objs /\
  forall k, List.filter (fun o => String.eqb (key o) k) objs
            = List.filter (fun o => String.eqb (key o) k)
                          (filter (fun o => o_is_mesh o = true) selected).
Proof.
  intros key objs. split.
  - apply (sorted_key_sorted key).
  - intros k. apply (sorted_key_filter key).
Qed.

(* ===================================================================== *)
(** * Binary64 arithmetic: order *)

Ltac Zbools :=
  repeat match goal with
         | |- context [(?a <? ?b)%Z] => destruct (Z.ltb_spec a b)
         | |- context [(?a =? ?b)%Z] => destruct (Z.eqb_spec a b)
         end;
  cbn [negb andb orb]; try done; try lia.

Lemma SFcompare_key x y :
  SFcompare x y =
  if SFis_nan x || SFis_nan y then None
  else Some (if lex_ltb (SFkey x) (SFkey y) then Lt
             else if lex_eqb (SFkey x) (SFkey y) then Eq else Gt).
Proof.
  destruct x as [sx|sx| |sx mx ex], y as [sy|sy| |sy my ey];
    try destruct sx; try destruct sy; try reflexivity;
    unfold SFcompare, SFis_nan, SFkey, lex_ltb, lex_eqb; cbn [orb];
    rewrite Pos.compare_cont_spec; cbn [Pos.switch_Eq];
    destruct (Z.compare_spec ex ey) as [->|H|H];
    try destruct (Pos.compare_spec mx my) as [->|E|E]; cbn [CompOpp]; Zbools.
Qed.

Lemma is_nan_spec x : is_nan x = SFis_nan (Prim2SF x).
Proof.
  unfold is_nan. rewrite FloatAxioms.eqb_spec. unfold SFeqb. rewrite SFcompare_key.
  destruct (SFis_nan (Prim2SF x)); [done|]. cbn [orb].
  destruct (SFkey (Prim2SF x)) as [[a b] c]. unfold lex_ltb, lex_eqb. Zbools.
Qed.

Lemma ltb_key x y :
  (x <? y)%float = negb (is_nan x) && negb (is_nan y) && lex_ltb (fkey x) (fkey y).
Proof.
  rewrite FloatAxioms.ltb_spec, !is_nan_spec. unfold SFltb, fkey. rewrite SFcompare_key.
  destruct (SFis_nan (Prim2SF x)), (SFis_nan (Prim2SF y)); try done. cbn [orb negb andb].
  destruct (lex_ltb _ _); [done|]. by destruct (lex_eqb _ _).
Qed.

Lemma leb_key x y :
  (x <=? y)%float = negb (is_nan x) && negb (is_nan y) && negb (lex_ltb (fkey y) (fkey x)).
Proof.
  rewrite FloatAxioms.leb_spec, !is_nan_spec. unfold SFleb, fkey. rewrite SFcompare_key.
  destruct (SFis_nan (Prim2SF x)), (SFis_nan (Prim2SF y)); try done. cbn [orb negb andb].
  destruct (SFkey (Prim2SF x)) as [[a b] c], (SFkey (Prim2SF y)) as [[a' b'] c'].
  unfold lex_ltb, lex_eqb. Zbools.
Qed.

Lemma eqb_key x y :
  (x =? y)%float = negb (is_nan x) && negb (is_nan y) && lex_eqb (fkey x) (fkey y).
Proof.
  rewrite FloatAxioms.eqb_spec, !is_nan_spec. unfold SFeqb, fkey. rewrite SFcompare_key.
  destruct (SFis_nan (Prim2SF x)), (SFis_nan (Prim2SF y)); try done. cbn [orb negb andb].
  destruct (SFkey (Prim2SF x)) as [[a b] c], (SFkey (Prim2SF y)) as [[a' b'] c'].
  unfold lex_ltb, lex_eqb. Zbools.
Qed.

Lemma is_finite_key x :
  is_finite x = negb (is_nan x) && (Z.abs (fkey x).1.1 <=? 1)%Z.
Proof.
  unfold is_finite, is_infinity, fkey.
  rewrite FloatAxioms.eqb_spec, abs_spec, is_nan_spec.
  replace (Prim2SF infinity) with (S754_infinity false) by (by vm_compute).
  by destruct (Prim2SF x) as [[]|[]| |[]].
Qed.

(** Comparisons of doubles are decided through their keys. *)
Ltac float_order :=
  rewrite ?is_finite_key, ?ltb_key, ?leb_key, ?eqb_key in *;
  repeat match goal with
         | H : context [is_nan ?x] |- _ => destruct (is_nan x)
         | |- context [is_nan ?x] => destruct (is_nan x)
         end;
  repeat match goal with
         | H : context [fkey ?x] |- _ =>
             let a := fresh "a" in let b := fresh "b" in let c := fresh "c" in
             destruct (fkey x) as [[a b] c]
         | |- context [fkey ?x] =>
             let a := fresh "a" in let b := fresh "b" in let c := fresh "c" in
             destruct (fkey x) as [[a b] c]
         end;
  unfold lex_ltb, lex_eqb in *; cbn [negb andb orb fst snd] in *; try done; try lia.

Lemma ltb_trans x y z : (x <? y)%float = true -> (y <? z)%float = true -> (x <? z)%float = true.
Proof. intros. float_order. Qed.

Lemma leb_ltb_trans x y z : (x <=? y)%float = true -> (y <? z)%float = true -> (x <? z)%float = true.
Proof. intros. float_order. Qed.

Lemma ltb_leb_trans x y z : (x <? y)%float = true -> (y <=? z)%float = true -> (x <? z)%float = true.
Proof. intros. float_order. Qed.

Lemma leb_trans x y z : (x <=? y)%float = true -> (y <=? z)%float = true -> (x <=? z)%float = true.
Proof. intros. float_order. Qed.

Lemma ltb_leb x y : (x <? y)%float = true -> (x <=? y)%float = true.
Proof. intros. float_order. Qed.

Lemma ltb_not_leb x y : (x <? y)%float = true -> (y <=? x)%float = false.
Proof. intros. float_order. Qed.

Lemma leb_total x y : is_nan x = false -> is_nan y = false ->
  (x <=? y)%float = false -> (y <? x)%float = true.
Proof. intros. float_order. Qed.

Lemma ltb_irrefl x : (x <? x)%float = false.
Proof. destruct (x <? x)%float eqn:E; [|done]. float_order. Qed.

Lemma ltb_asym x y : (x <? y)%float = true -> (y <? x)%float = false.
Proof. intros. float_order. Qed.

Lemma leb_finite_between x p y :
  (x <=? p)%float = true -> (p <=? y)%float = true ->
  is_finite x = true -> is_finite y = true -> is_finite p = true.
Proof. intros. float_order. Qed.

Lemma leb_neq_ltb x y :
  (x <=? y)%float = true -> (y =? x)%float = false -> (x <? y)%float = true.
Proof. intros. float_order. Qed.

Lemma finite_leb_total x y :
  is_finite x = true -> is_finite y = true ->
  (x <? y)%float = false -> (y <=? x)%float = true.
Proof. intros. float_order. Qed.

(* ===================================================================== *)
(** * Binary64 arithmetic: exact cases of the operations *)

Lemma Prim2SF_infinity : Prim2SF infinity = S754_infinity false.
Proof. by vm_compute. Qed.

Lemma Prim2SF_zero : Prim2SF 0%float = S754_zero false.
Proof. by vm_compute. Qed.

Lemma Prim2SF_one : Prim2SF 1%float = S754_finite false 4503599627370496 (-52).
Proof. by vm_compute. Qed.

Lemma is_finite_spec x : is_finite x = SFis_finite (Prim2SF x).
Proof.
  unfold is_finite, is_infinity.
  rewrite is_nan_spec, FloatAxioms.eqb_spec, abs_spec, Prim2SF_infinity.
  by destruct (Prim2SF x) as [[]|[]| |[]].
Qed.

Lemma eqb_zero_spec x : (x =? 0)%float = SFis_zero (Prim2SF x).
Proof.
  rewrite FloatAxioms.eqb_spec, Prim2SF_zero.
  by destruct (Prim2SF x) as [[]|[]| |[]].
Qed.

Lemma SFeqb_finite s m e s' m' e' :
  SFeqb (S754_finite s m e) (S754_finite s' m' e') = true -> s = s' /\ m = m' /\ e = e'.
Proof.
  unfold SFeqb. rewrite SFcompare_key. cbn [SFis_nan orb SFkey].
  destruct s, s'; unfold lex_ltb, lex_eqb;
    destruct (Z.ltb_spec (-1) (-1)), (Z.ltb_spec (-1) 1), (Z.ltb_spec 1 (-1)), (Z.ltb_spec 1 1);
    try lia; cbn [orb andb];
    repeat match goal with
           | |- context [(?a <? ?b)%Z] => destruct (Z.ltb_spec a b)
           | |- context [(?a =? ?b)%Z] => destruct (Z.eqb_spec a b)
           end; cbn [orb andb]; try done; intros _; repeat split; try lia; congruence.
Qed.

(** ** Subtraction and the test of the collapse *)

Lemma abs_sub_ltb_finite t p e :
  (abs (t - p) <? e)%float = true -> is_finite t = true /\ is_finite p = true.
Proof.
  rewrite FloatAxioms.ltb_spec, abs_spec, sub_spec, !is_finite_spec.
  unfold SFltb. intros H.
  destruct (Prim2SF t) as [[]|[]| |[]], (Prim2SF p) as [[]|[]| |[]];
    first [by split | by destruct (Prim2SF e) as [[]|[]| |[]]].
Qed.

Lemma shl_align_same m e : shl_align m e e = (m, e).
Proof. unfold shl_align. by rewrite Z.sub_diag. Qed.

Lemma eqb_abs_sub_ltb t p e :
  is_finite t = true -> is_finite p = true -> (0 <? e)%float = true ->
  (t =? p)%float = true -> (abs (t - p) <? e)%float = true.
Proof.
  rewrite !is_finite_spec, FloatAxioms.eqb_spec.
  rewrite !FloatAxioms.ltb_spec, abs_spec, sub_spec, Prim2SF_zero.
  intros Ht Hp He Heq.
  destruct (Prim2SF t) as [s|s| |s m x], (Prim2SF p) as [s'|s'| |s' m' x'];
    try discriminate Ht; try discriminate Hp.
  - by destruct s, s'.
  - by destruct s'.
  - by destruct s.
  - apply SFeqb_finite in Heq as (-> & -> & ->).
    unfold SF64sub, SFsub. rewrite Z.min_id, shl_align_same, Z.sub_diag. exact He.
Qed.

(** ** Rounding keeps a number that is not zero away from zero *)

Lemma iter_pos_nat {A} (f : A -> A) p : forall x,
  SpecFloat.iter_pos f p x = Nat.iter (Pos.to_nat p) f x.
Proof.
  induction p as [p IH|p IH|]; intros x; cbn [SpecFloat.iter_pos].
  - rewrite !IH, Pos2Nat.inj_xI.
    replace (S (2 * Pos.to_nat p)) with (Pos.to_nat p + (Pos.to_nat p + 1))%nat by lia.
    by rewrite !Nat.iter_add.
  - rewrite !IH, Pos2Nat.inj_xO.
    replace (2 * Pos.to_nat p)%nat with (Pos.to_nat p + Pos.to_nat p)%nat by lia.
    by rewrite Nat.iter_add.
  - done.
Qed.

Lemma shr_1_m mrs :
  (0 <= shr_m mrs)%Z -> shr_m (shr_1 mrs) = (shr_m mrs / 2)%Z.
Proof.
  destruct mrs as [m r s]. cbn [shr_m]. intros Hm.
  destruct m as [|[p|p|]|p]; cbn [shr_1 shr_m]; try lia; try done;
    Z.to_euclidean_division_equations; lia.
Qed.

Lemma shr_iter_m k : forall mrs,
  (0 <= shr_m mrs)%Z -> shr_m (Nat.iter k shr_1 mrs) = (shr_m mrs / 2 ^ Z.of_nat k)%Z.
Proof.
  induction k as [|k IH]; intros mrs Hm.
  - cbn. by rewrite Z.div_1_r.
  - rewrite Nat.iter_succ, shr_1_m.
    + rewrite IH by done. rewrite Z.div_div by lia.
      by rewrite Nat2Z.inj_succ, Z.pow_succ_r, (Z.mul_comm 2) by lia.
    + rewrite IH by done. apply Z.div_pos; lia.
Qed.

Lemma digits2_pos_le m : (2 ^ (Z.pos (digits2_pos m) - 1) <= Z.pos m)%Z.
Proof.
  induction m as [m IH|m IH|]; cbn [digits2_pos]; [| |done].
  - replace (Z.pos (Pos.succ (digits2_pos m)) - 1)%Z
      with (Z.succ (Z.pos (digits2_pos m) - 1)) by lia.
    rewrite Z.pow_succ_r by lia. lia.
  - replace (Z.pos (Pos.succ (digits2_pos m)) - 1)%Z
      with (Z.succ (Z.pos (digits2_pos m) - 1)) by lia.
    rewrite Z.pow_succ_r by lia. lia.
Qed.

Lemma shr_pos m r s e n :
  (n < Z.pos (digits2_pos m))%Z ->
  (0 < shr_m (fst (shr (Build_shr_record (Z.pos m) r s) e n)))%Z /\
  (e <= snd (shr (Build_shr_record (Z.pos m) r s) e n))%Z.
Proof.
  intros Hn. destruct n as [|p|p]; cbn [shr fst snd shr_m]; [lia| |lia].
  split; [|lia]. rewrite iter_pos_nat, shr_iter_m by (cbn; lia). cbn [shr_m].
  rewrite positive_nat_Z. apply Z.div_str_pos. split; [lia|].
  etrans; [|apply digits2_pos_le]. apply Z.pow_le_mono_r; lia.
Qed.

Lemma shr_fexp_pos m e l :
  (emin <= e)%Z ->
  (0 < shr_m (fst (shr_fexp prec emax (Z.pos m) e l)))%Z /\
  (emin <= snd (shr_fexp prec emax (Z.pos m) e l))%Z.
Proof.
  intros He. unfold shr_fexp.
  assert (Hrec : exists r s, shr_record_of_loc (Z.pos m) l = Build_shr_record (Z.pos m) r s).
  { destruct l as [|[]]; cbn; eauto. }
  destruct Hrec as (r & s & ->).
  destruct (shr_pos m r s e (fexp prec emax (Zdigits2 (Z.pos m) + e) - e)) as [H1 H2].
  { unfold fexp, SpecFloat.emin, prec, emax in *. cbn [Zdigits2]. lia. }
  split; [done|lia].
Qed.

Lemma round_nearest_even_pos m l : (0 < m)%Z -> (0 < round_nearest_even m l)%Z.
Proof. intros Hm. destruct l as [|[]]; cbn; try destruct (Z.even m); lia. Qed.

Lemma binary_round_aux_not_zero s m e l :
  (emin <= e)%Z -> SFis_zero (binary_round_aux prec emax s (Z.pos m) e l) = false.
Proof.
  intros He. unfold binary_round_aux.
  destruct (shr_fexp_pos m e l He) as [H1 H2].
  destruct (shr_fexp prec emax (Z.pos m) e l) as [mrs' e']. cbn [fst snd] in H1, H2.
  pose proof (round_nearest_even_pos _ (loc_of_shr_record mrs') H1) as H3.
  destruct (round_nearest_even (shr_m mrs') (loc_of_shr_record mrs')) as [|m2|m2]; try lia.
  destruct (shr_fexp_pos m2 e' loc_Exact H2) as [H4 H5].
  destruct (shr_fexp prec emax (Z.pos m2) e' loc_Exact) as [mrs'' e'']. cbn [fst snd] in H4, H5.
  destruct (shr_m mrs'') as [|m3|m3]; try lia.
  by destruct (e'' <=? emax - prec)%Z.
Qed.

Lemma binary_round_not_zero s m e :
  (emin <= e)%Z -> SFis_zero (binary_round prec emax s m e) = false.
Proof.
  intros He. unfold binary_round.
  destruct (shl_align m e (fexp prec emax (Z.pos (digits2_pos m) + e))) as [mz ez] eqn:E.
  apply binary_round_aux_not_zero.
  unfold shl_align in E.
  destruct (fexp prec emax (Z.pos (digits2_pos m) + e) - e)%Z eqn:E';
    injection E as <- <-; try done.
  unfold fexp, SpecFloat.emin, prec, emax in *. lia.
Qed.

Lemma binary_normalize_not_zero z e :
  z <> 0%Z -> (emin <= e)%Z -> SFis_zero (binary_normalize prec emax z e false) = false.
Proof.
  intros Hz He. destruct z; [done|..]; by apply binary_round_not_zero.
Qed.

Lemma valid_finite x s m e :
  Prim2SF x = S754_finite s m e ->
  fexp prec emax (Z.pos (digits2_pos m) + e) = e /\ (e <= emax - prec)%Z.
Proof.
  intros H. pose proof (Prim2SF_valid x) as Hv. rewrite H in Hv.
  cbn [valid_binary] in Hv. unfold bounded, canonical_mantissa in Hv.
  apply andb_true_iff in Hv as [H1 H2].
  split; [by apply Z.eqb_eq|by apply Z.leb_le].
Qed.

Lemma valid_finite_emin x s m e : Prim2SF x = S754_finite s m e -> (emin <= e)%Z.
Proof.
  intros H. destruct (valid_finite x s m e H) as [H1 _].
  unfold fexp, SpecFloat.emin, prec, emax in *. lia.
Qed.

Lemma digits2_pos_iter m d : digits2_pos (Pos.iter xO m d) = (digits2_pos m + d)%positive.
Proof.
  induction d as [|d IH] using Pos.peano_ind.
  - cbn. lia.
  - rewrite Pos.iter_succ. cbn [digits2_pos]. rewrite IH. lia.
Qed.

Lemma shl_align_digits m e e' :
  (e' <= e)%Z ->
  Z.pos (digits2_pos (fst (shl_align m e e'))) = (Z.pos (digits2_pos m) + (e - e'))%Z.
Proof.
  intros He. unfold shl_align. destruct (e' - e)%Z eqn:E; cbn [fst]; try lia.
  rewrite digits2_pos_iter. lia.
Qed.

(** The difference of two different numbers is not zero. *)
Lemma ltb_sub_not_zero x y : (x <? y)%float = true -> (y - x =? 0)%float = false.
Proof.
  intros H. rewrite eqb_zero_spec, sub_spec.
  pose proof H as H'. rewrite FloatAxioms.ltb_spec in H'. unfold SFltb in H'.
  destruct (Prim2SF y) as [sy|sy| |sy my ey] eqn:Ey,
           (Prim2SF x) as [sx|sx| |sx mx ex] eqn:Ex;
    try discriminate H';
    lazymatch goal with
    | |- context [SF64sub (S754_finite _ _ _) (S754_finite _ _ _)] => idtac
    | _ => repeat match goal with s : bool |- _ => destruct s end;
           first [discriminate H'|reflexivity]
    end.
  clear H'. unfold SF64sub, SFsub.
  pose proof (valid_finite_emin _ _ _ _ Ex). pose proof (valid_finite_emin _ _ _ _ Ey).
  apply binary_normalize_not_zero; [|lia].
  intros HZ.
  pose proof (shl_align_digits my ey (Z.min ey ex) ltac:(lia)) as Dy.
  pose proof (shl_align_digits mx ex (Z.min ey ex) ltac:(lia)) as Dx.
  assert (Hs : sy = sx) by (destruct sy, sx; cbn [cond_Zopp] in HZ; first [done|lia]).
  subst sy.
  assert (Hm : fst (shl_align my ey (Z.min ey ex)) = fst (shl_align mx ex (Z.min ey ex)))
    by (destruct sx; cbn [cond_Zopp] in HZ; lia).
  rewrite Hm in Dy.
  destruct (valid_finite _ _ _ _ Ex) as [Fx _], (valid_finite _ _ _ _ Ey) as [Fy _].
  assert (He : ey = ex).
  { replace (Z.pos (digits2_pos my) + ey)%Z with (Z.pos (digits2_pos mx) + ex)%Z in Fy by lia.
    congruence. }
  subst ey. rewrite Z.min_id, !shl_align_same in Hm. cbn [fst] in Hm. subst my.
  assert (Hxy : x = y) by (apply Prim2SF_inj; congruence).
  subst y. clear -H. float_order.
Qed.

Lemma div_eucl_mul a b : (0 < b)%Z -> Z.div_eucl (b * a) b = (a, 0%Z).
Proof.
  intros Hb. pose proof (Z.div_mul a b ltac:(lia)) as Hq.
  pose proof (Z_mod_mult a b) as Hr. rewrite (Z.mul_comm a b) in Hq, Hr.
  unfold Z.div, Z.modulo in Hq, Hr.
  destruct (Z.div_eucl (b * a) b) as [q r]. cbn [fst snd] in *. congruence.
Qed.

Lemma new_location_0 n : new_location n 0 = loc_Exact.
Proof. unfold new_location. by destruct (Z.even n). Qed.

(** A finite number that is not zero, divided by itself, is exactly 1. *)
Lemma div_self d : is_finite d = true -> (d =? 0)%float = false -> (d / d)%float = 1%float.
Proof.
  rewrite is_finite_spec, eqb_zero_spec. intros Hf Hz.
  apply Prim2SF_inj. rewrite div_spec, Prim2SF_one.
  destruct (Prim2SF d) as [s|s| |s m e]; try discriminate.
  unfold SF64div, SFdiv, SFdiv_core_binary. cbv zeta. cbn [Zdigits2].
  replace (Z.pos (digits2_pos m) + e - (Z.pos (digits2_pos m) + e))%Z with 0%Z by lia.
  rewrite Z.sub_diag.
  change (Z.min (fexp prec emax 0) 0) with (-53)%Z.
  change (0 - -53)%Z with 53%Z. cbv iota.
  rewrite Z.shiftl_mul_pow2 by lia.
  rewrite div_eucl_mul by lia. rewrite new_location_0.
  by destruct s.
Qed.

Lemma shr_52 m e :
  shr (shr_record_of_loc (Z.pos (Pos.iter xO m 52)) loc_Exact) e 52
  = (Build_shr_record (Z.pos m) false false, (e + 52)%Z).
Proof. reflexivity. Qed.

(** Multiplying by 1 changes nothing. *)
Lemma mul_one_l b : (1 * b)%float = b.
Proof.
  apply Prim2SF_inj. rewrite mul_spec, Prim2SF_one.
  destruct (Prim2SF b) as [s|s| |s m e] eqn:E; try reflexivity.
  destruct (valid_finite _ _ _ _ E) as [Hc Hb].
  unfold SF64mul, SFmul. cbn [xorb].
  unfold binary_round_aux, shr_fexp. cbn [Zdigits2].
  replace (4503599627370496 * m)%positive with (Pos.iter xO m 52) by reflexivity.
  rewrite digits2_pos_iter.
  replace (fexp prec emax (Z.pos (digits2_pos m + 52) + (-52 + e)) - (-52 + e))%Z with 52%Z.
  2:{ replace (Z.pos (digits2_pos m + 52) + (-52 + e))%Z
        with (Z.pos (digits2_pos m) + e)%Z by lia.
      rewrite Hc. lia. }
  rewrite shr_52.
  cbn [shr_m loc_of_shr_record round_nearest_even shr_record_of_loc Zdigits2].
  replace (-52 + e + 52)%Z with e by lia.
  rewrite Hc, Z.sub_diag. cbn [shr shr_m].
  by apply Z.leb_le in Hb as ->.
Qed.

Lemma mul_zero_l a :
  is_finite a = true -> SFis_zero (Prim2SF (0 * a)) = true.
Proof.
  rewrite is_finite_spec, mul_spec, Prim2SF_zero.
  by destruct (Prim2SF a) as [s|s| |s m e].
Qed.

Lemma eqb_refl x : is_nan x = false -> (x =? x)%float = true.
Proof. intros. float_order. Qed.

Lemma add_zero_l z b :
  SFis_zero (Prim2SF z) = true -> is_nan b = false -> (z + b =? b)%float = true.
Proof.
  intros Hz Hb. pose proof Hb as Hb'. rewrite is_nan_spec in Hb'.
  destruct (Prim2SF z) as [sz| | |] eqn:Ez; try discriminate Hz.
  destruct (Prim2SF b) as [s|s| |s m e] eqn:Eb; try discriminate Hb'.
  - rewrite FloatAxioms.eqb_spec, add_spec, Ez, Eb. by destruct sz, s.
  - replace (z + b)%float with b; [by apply eqb_refl|].
    apply Prim2SF_inj. by rewrite add_spec, Ez, Eb.
  - replace (z + b)%float with b; [by apply eqb_refl|].
    apply Prim2SF_inj. by rewrite add_spec, Ez, Eb.
Qed.

(** The blend with the ratio 1 is the second value. *)
Lemma blend_one a b :
  is_finite a = true -> is_nan b = false -> ((1 - 1) * a + 1 * b =? b)%float = true.
Proof.
  intros Ha Hb. rewrite mul_one_l. apply add_zero_l; [|done].
  change (1 - 1)%float with 0%float. by apply mul_zero_l.
Qed.

Lemma SFeqb_cases a b :
  SFeqb a b = true -> a = b \/ (SFis_zero a = true /\ SFis_zero b = true).
Proof.
  intros H.
  destruct a as [s|s| |s m e], b as [s'|s'| |s' m' e'];
    try (by right); try discriminate H;
    try (left; by apply SFeqb_finite in H as (-> & -> & ->));
    repeat match goal with s : bool |- _ => destruct s end;
    first [discriminate H|by left].
Qed.

(** Equal numbers have the same distance from a smaller one. *)
Lemma eqb_sub_eq q t t0 :
  (q =? t)%float = true -> (t0 <? t)%float = true -> (q - t0)%float = (t - t0)%float.
Proof.
  intros Heq Hlt. apply Prim2SF_inj. rewrite !sub_spec.
  rewrite FloatAxioms.eqb_spec in Heq. rewrite FloatAxioms.ltb_spec in Hlt.
  apply SFeqb_cases in Heq as [->|[Hq Ht]]; [done|].
  unfold SFltb in Hlt.
  destruct (Prim2SF q) as [s| | |], (Prim2SF t) as [s'| | |];
    try discriminate Hq; try discriminate Ht.
  destruct (Prim2SF t0) as [s0|s0| |s0 m0 e0]; try discriminate Hlt; done.
Qed.

(* ===================================================================== *)
(** * The sampler in binary64 arithmetic *)

Section SamplerB64.

Local Open Scope float_scope.

Lemma increasing_cons_b64 x l :
  B64.increasing (x :: l) = true ->
  B64.increasing l = true /\ forall y, head l = Some y -> (x <? y) = true.
Proof.
  simpl. destruct l as [|y l]; [done|].
  intros [H1 H2]%andb_true_iff. split; [done|]. by intros ? [= <-].
Qed.

Lemma increasing_lookup_b64 l :
  B64.increasing l = true ->
  forall i j x y, (i < j)%nat -> l !! i = Some x -> l !! j = Some y -> (x <? y) = true.
Proof.
  induction l as [|a l IH]; intros Hl i j x y Hij Hi Hj; [done|].
  apply increasing_cons_b64 in Hl as [Hl Hhd].
  destruct j as [|j]; [lia|]. simpl in Hj.
  assert (Ha : forall k z, l !! k = Some z -> (a <? z) = true).
  { intros k. induction k as [|k IHk]; intros z Hz.
    - apply Hhd. by rewrite head_lookup_0.
    - destruct (l !! k) as [w|] eqn:Hw.
      + eapply ltb_trans; [by apply IHk|]. eapply (IH Hl k (S k)); [lia|done..].
      + apply lookup_ge_None in Hw. apply lookup_lt_Some in Hz. lia. }
  destruct i as [|i]; simpl in Hi.
  - injection Hi as <-. by eapply Ha.
  - eapply (IH Hl i j); [lia|done..].
Qed.

Section BisectB64.

Variable a : list float.
Variable x : float.
Hypothesis a_increasing : B64.increasing a = true.

Lemma bisect_loop_b64_S fuel lo hi :
  B64.bisect_loop (S fuel) a x lo hi =
  if (lo <? hi)%nat then
    match a !! ((lo + hi) / 2)%nat with
    | Some am => if am <? x then B64.bisect_loop fuel a x (S ((lo + hi) / 2)) hi
                 else B64.bisect_loop fuel a x lo ((lo + hi) / 2)
    | None => None
    end
  else Some lo.
Proof. reflexivity. Qed.

(** The loop ends on the position that separates the times below [x] from
    the others; a comparison with nan is false, and so is [y < x] then. *)
Lemma bisect_loop_b64_spec fuel : forall lo hi,
  (lo <= hi <= length a)%nat -> (hi - lo <= fuel)%nat ->
  (forall j y, (j < lo)%nat -> a !! j = Some y -> (y <? x) = true) ->
  (forall j y, (hi <= j)%nat -> a !! j = Some y -> (y <? x) = false) ->
  exists i, B64.bisect_loop fuel a x lo hi = Some i /\ (lo <= i <= hi)%nat /\
    (forall j y, (j < i)%nat -> a !! j = Some y -> (y <? x) = true) /\
    (forall j y, (i <= j)%nat -> a !! j = Some y -> (y <? x) = false).
Proof.
  induction fuel as [|fuel IH]; intros lo hi Hb Hf Hlo Hhi.
  - exists lo. simpl. assert (lo = hi) as -> by lia.
    rewrite Nat.ltb_irrefl. split; [done|]. split; [lia|]. split; done.
  - rewrite bisect_loop_b64_S. destruct (lo <? hi)%nat eqn:E.
    2:{ apply Nat.ltb_ge in E. assert (lo = hi) as -> by lia. exists hi.
        split; [done|]. split; [lia|]. split; done. }
    apply Nat.ltb_lt in E.
    set (mid := ((lo + hi) / 2)%nat).
    assert (Hmid : (lo <= mid < hi)%nat).
    { unfold mid. split.
      - apply Nat.div_le_lower_bound; lia.
      - apply Nat.Div0.div_lt_upper_bound; lia. }
    destruct (a !! mid) as [am|] eqn:Ham.
    2:{ apply lookup_ge_None in Ham. lia. }
    destruct (am <? x) eqn:Ecmp.
    + destruct (IH (S mid) hi) as (i & Hi & Hr & H1 & H2); [lia|lia| |done|].
      * intros j y Hj Hy.
        destruct (decide (j = mid)) as [->|Hne]; [congruence|].
        eapply ltb_trans; [|exact Ecmp].
        eapply (increasing_lookup_b64 a a_increasing j mid); [lia|done..].
      * exists i. split; [done|]. split; [lia|]. split; done.
    + destruct (IH lo mid) as (i & Hi & Hr & H1 & H2); [lia|lia|done| |].
      * intros j y Hj Hy.
        destruct (decide (j = mid)) as [->|Hne]; [congruence|].
        destruct (y <? x) eqn:Eyx; [|done].
        assert (Hc : (am <? x) = true); [|congruence].
        eapply ltb_trans; [|exact Eyx].
        eapply (increasing_lookup_b64 a a_increasing mid j); [lia|done..].
      * exists i. split; [done|]. split; [lia|]. split; done.
Qed.

Lemma bisect_left_b64_spec :
  exists i, B64.bisect_left a x = Some i /\ (i <= length a)%nat /\
    (forall j y, (j < i)%nat -> a !! j = Some y -> (y <? x) = true) /\
    (forall j y, (i <= j)%nat -> a !! j = Some y -> (y <? x) = false).
Proof.
  destruct (bisect_loop_b64_spec (length a) 0 (length a)) as (i & Hi & Hr & H1 & H2).
  - lia.
  - lia.
  - intros; lia.
  - intros j y Hj Hy. apply lookup_lt_Some in Hy. lia.
  - exists i. split; [done|]. split; [lia|]. split; done.
Qed.

(** Between two neighbours the search finds the upper one. *)
Lemma bisect_left_b64_between i t0 t1 :
  a !! i = Some t0 -> a !! S i = Some t1 -> (t0 <? x) = true -> (t1 <? x) = false ->
  B64.bisect_left a x = Some (S i).
Proof.
  intros H0 H1 Hlt Hle.
  destruct bisect_left_b64_spec as (k & Hk & _ & Hbelow & Habove).
  rewrite Hk. f_equal.
  destruct (decide (k <= i)%nat) as [Hki|Hki].
  { pose proof (Habove i t0 Hki H0) as Hc. congruence. }
  destruct (decide (S i < k)%nat) as [Hik|Hik]; [|lia].
  pose proof (Hbelow (S i) t1 Hik H1) as Hc. congruence.
Qed.

End BisectB64.

(** The sampler between two neighbouring times. *)
Lemma sample_q_interior_b64 T q i t0 t1 q0 q1 :
  B64.increasing (B64.traj_t T) = true ->
  B64.traj_t T !! i = Some t0 -> B64.traj_t T !! S i = Some t1 ->
  B64.traj_q T !! i = Some q0 -> B64.traj_q T !! S i = Some q1 ->
  (t0 <? q) = true -> (q <=? t1) = true ->
  (forall tl, last (B64.traj_t T) = Some tl -> (tl <=? q) = false) ->
  B64.sample_q T q =
  if t1 <=? t0 + B64.eps12 then Some q1
  else Some (B64.blend ((q - t0) / (t1 - t0)) q0 q1).
Proof.
  intros Hs H0 H1 Hq0 Hq1 Hlt Hle Hltl.
  destruct (last (B64.traj_t T)) as [tl|] eqn:Hl.
  2:{ rewrite last_lookup_pred in Hl. apply lookup_ge_None in Hl.
      apply lookup_lt_Some in H1. lia. }
  specialize (Hltl tl eq_refl).
  destruct (B64.traj_t T !! 0%nat) as [h|] eqn:Hh.
  2:{ apply lookup_ge_None in Hh. apply lookup_lt_Some in H0. lia. }
  assert (Hhq : (q <=? h) = false).
  { destruct i as [|i].
    - assert (h = t0) as -> by congruence. by apply ltb_not_leb.
    - apply ltb_not_leb. eapply ltb_trans; [|exact Hlt].
      eapply (increasing_lookup_b64 _ Hs 0 (S i)); [lia|done..]. }
  rewrite <- head_lookup_0 in Hh.
  unfold B64.sample_q.
  rewrite !py_index_0, !py_index_last, Hh, Hl. simpl.
  rewrite Hhq, Hltl.
  assert (Ht1q : (t1 <? q) = false) by (clear -Hle; float_order).
  rewrite (bisect_left_b64_between _ _ Hs i t0 t1 H0 H1 Hlt Ht1q). simpl.
  rewrite !py_index_pred, !py_index_nat, H0, H1, Hq0, Hq1. simpl.
  destruct (t1 <=? t0 + B64.eps12); [done|].
  unfold B64.py_div.
  assert (Ht01 : (t0 <? t1) = true) by (eapply ltb_leb_trans; done).
  by rewrite (ltb_sub_not_zero _ _ Ht01).
Qed.


Lemma sample_q_left_b64 T q t0 :
  head (B64.traj_t T) = Some t0 -> (q <=? t0) = true ->
  B64.sample_q T q = head (B64.traj_q T).
Proof.
  intros H0 Hq. unfold B64.sample_q. rewrite !py_index_0, H0. simpl. by rewrite Hq.
Qed.

Lemma sample_q_right_b64 T q t0 tl :
  head (B64.traj_t T) = Some t0 -> last (B64.traj_t T) = Some tl ->
  (q <=? t0) = false -> (tl <=? q) = true ->
  B64.sample_q T q = last (B64.traj_q T).
Proof.
  intros H0 Hl Hlt Hq. unfold B64.sample_q.
  rewrite !py_index_0, !py_index_last, H0, Hl. simpl. by rewrite Hlt, Hq.
Qed.

Lemma blend_at_one_b64 q0 : forall q1,
  Forall (fun a => is_finite a = true) q0 -> Forall (fun b => is_nan b = false) q1 ->
  length q0 = length q1 -> B64.pose_eq (B64.blend 1 q0 q1) q1.
Proof.
  induction q0 as [|a q0 IH]; intros [|b q1] H0 H1 Hlen; try done.
  - constructor.
  - apply Forall_cons in H0 as [Ha H0]. apply Forall_cons in H1 as [Hb H1].
    unfold B64.blend. cbn [zip map fst snd]. constructor.
    + by apply blend_one.
    + apply IH; [done..|]. simpl in Hlen. lia.
Qed.

Lemma pose_eq_refl_b64 q :
  Forall (fun b => is_nan b = false) q -> B64.pose_eq q q.
Proof.
  induction 1 as [|b q Hb _ IH]; constructor; [|done]. by apply eqb_refl.
Qed.

(** C3 (as amended).  Let the times of T increase strictly and let
    [t0 < q < t1] for two consecutive times, with poses [q0] and [q1].  The
    sampler returns a pose and raises nothing: [q1] itself when
    [t1 <= t0 + 1e-12], and otherwise, in every component, the value of
    [(1-r)*q0[k] + r*q1[k]] with [r = (q-t0)/(t1-t0)], each operation being
    the one of the doubles.  For the times [0, 1] and the poses
    [[0]*7, [7]*7] the sample at 0.5 is [3.5]*7. *)
Theorem sample_q_interpolates :
  (forall (T : B64.Trajectory) (q : float) (i : nat) (t0 t1 : float) (q0 q1 : B64.Pose),
     B64.increasing (B64.traj_t T) = true ->
     B64.traj_t T !! i = Some t0 -> B64.traj_t T !! S i = Some t1 ->
     B64.traj_q T !! i = Some q0 -> B64.traj_q T !! S i = Some q1 ->
     (t0 <? q) = true -> (q <? t1) = true ->
     B64.sample_q T q =
     Some (if t1 <=? t0 + B64.eps12 then q1
           else map (fun ab => (1 - (q - t0) / (t1 - t0)) * fst ab
                               + (q - t0) / (t1 - t0) * snd ab) (zip q0 q1))) /\
  B64.sample_q (B64.mkTraj [0; 1] [replicate 7 0; replicate 7 7]) 0.5
  = Some (replicate 7 3.5).
Proof.
  split; [|by vm_compute].
  intros T q i t0 t1 q0 q1 Hinc H0 H1 Hq0 Hq1 Hlt Hgt.
  rewrite (sample_q_interior_b64 T q i t0 t1 q0 q1 Hinc H0 H1 Hq0 Hq1 Hlt).
  - by destruct (t1 <=? t0 + B64.eps12).
  - by apply ltb_leb.
  - intros tl Hl. apply ltb_not_leb.
    rewrite last_lookup_pred in Hl. apply lookup_lt_Some in H1 as Hlen.
    destruct (decide (S i = pred (length (B64.traj_t T)))) as [Heq|Hne].
    + rewrite <- Heq in Hl. by assert (tl = t1) as -> by congruence.
    + eapply ltb_trans; [exact Hgt|].
      eapply (increasing_lookup_b64 _ Hinc (S i)); [|done..]. lia.
Qed.

Lemma sample_q_interpolates_witness :
  B64.sample_q (B64.mkTraj [0; 2; 4] [[1; 5]; [3; 1]; [0; 0]]) 1 = Some [2; 3].
Proof.
  destruct sample_q_interpolates as [H _].
  exact (H (B64.mkTraj [0; 2; 4] [[1; 5]; [3; 1]; [0; 0]]) 1 0%nat 0 2 [1; 5] [3; 1]
           eq_refl eq_refl eq_refl eq_refl eq_refl eq_refl eq_refl).
Defined.

(** C3, counterexamples.  The times [0, 1e-12] increase strictly and
    [0 < 5e-13 < 1e-12], but the sampler returns the later pose [7]*7 and
    not the blend, whose components are 3.5.  And between the times 0 and
    10, with 0.1 in both poses, the sample at 3 is 0.09999999999999999,
    which is below both: the blend is rounded at every operation. *)
Lemma sample_q_tiny_interval_counterexample :
  (let T := B64.mkTraj [0; B64.eps12] [replicate 7 0; replicate 7 7] in
   let q := 0x1.19799812dea11p-41 in
   B64.increasing (B64.traj_t T) = true /\ (0 <? q) = true /\ (q <? B64.eps12) = true /\
   B64.sample_q T q = Some (replicate 7 7) /\
   B64.blend ((q - 0) / (B64.eps12 - 0)) (replicate 7 0) (replicate 7 7)
   = replicate 7 3.5) /\
  (let T := B64.mkTraj [0; 10] [[0x1.999999999999ap-4]; [0x1.999999999999ap-4]] in
   B64.increasing (B64.traj_t T) = true /\ (0 <? 3) = true /\ (3 <? 10) = true /\
   B64.sample_q T 3 = Some [0x1.9999999999999p-4] /\
   (0x1.9999999999999p-4 <? 0x1.999999999999ap-4) = true).
Proof. by vm_compute. Qed.

(** C5 (as amended).  Let the times of T increase strictly, with one pose
    per time and all poses of one length, and let the query equal the
    stored time of index [j].  The sampler returns the stored pose of index
    [j] itself when [j] is the first or the last index, and when the time
    before is within 1e-12 ([t_j <= t_(j-1) + 1e-12]).  Otherwise it blends
    with the ratio [(q - t_(j-1)) / (t_j - t_(j-1))]: when that difference
    is finite, the components of the pose before are finite and those of
    the stored pose are not nan, the pose returned equals the stored pose,
    component by component. *)
Theorem sample_q_at_sample (n : nat) (T : B64.Trajectory) (q : float) (j : nat)
    (tj : float) (qj : B64.Pose) :
  B64.increasing (B64.traj_t T) = true -> B64.well_formed n T ->
  B64.traj_t T !! j = Some tj -> B64.traj_q T !! j = Some qj -> (q =? tj) = true ->
  (j = 0%nat \/ S j = length (B64.traj_t T) -> B64.sample_q T q = Some qj) /\
  (forall i tp qp,
     j = S i -> B64.traj_t T !! i = Some tp -> B64.traj_q T !! i = Some qp ->
     ((tj <=? tp + B64.eps12) = true -> B64.sample_q T q = Some qj) /\
     (is_finite (tj - tp) = true ->
      Forall (fun a => is_finite a = true) qp -> Forall (fun b => is_nan b = false) qj ->
      exists p, B64.sample_q T q = Some p /\ B64.pose_eq p qj)).
Proof.
  intros Hinc [Hlen Hn] Htj Hqj Hq.
  destruct (head (B64.traj_t T)) as [h|] eqn:Hh.
  2:{ rewrite head_lookup_0 in Hh. apply lookup_ge_None in Hh.
      apply lookup_lt_Some in Htj. lia. }
  destruct (last (B64.traj_t T)) as [tl|] eqn:Hl.
  2:{ rewrite last_lookup_pred in Hl. apply lookup_ge_None in Hl.
      apply lookup_lt_Some in Htj. lia. }
  pose proof (lookup_lt_Some _ _ _ Htj) as Hjlen.
  assert (Hfirst : j = 0%nat -> B64.sample_q T q = Some qj).
  { intros ->. rewrite head_lookup_0 in Hh. assert (h = tj) as -> by congruence.
    rewrite (sample_q_left_b64 T q tj); [by rewrite head_lookup_0|by rewrite head_lookup_0|].
    clear -Hq. float_order. }
  assert (Hlast : j <> 0%nat -> S j = length (B64.traj_t T) -> B64.sample_q T q = Some qj).
  { intros Hj0 Hjl.
    assert (Hhtj : (h <? tj) = true).
    { rewrite head_lookup_0 in Hh.
      eapply (increasing_lookup_b64 _ Hinc 0 j); [lia|done..]. }
    rewrite last_lookup_pred, <- Hjl in Hl. cbn [pred] in Hl.
    assert (tl = tj) as -> by congruence.
    rewrite (sample_q_right_b64 T q h tj Hh).
    - by rewrite last_lookup_pred, Hlen, <- Hjl.
    - by rewrite last_lookup_pred, <- Hjl.
    - clear -Hq Hhtj. float_order.
    - clear -Hq. float_order. }
  split.
  { intros [Hj|Hj]; [by apply Hfirst|].
    destruct (decide (j = 0%nat)) as [Hj0|Hj0]; [by apply Hfirst|by apply Hlast]. }
  intros i tp qp -> Htp Hqp.
  assert (Hptj : (tp <? tj) = true).
  { eapply (increasing_lookup_b64 _ Hinc i (S i)); [lia|done..]. }
  destruct (decide (S (S i) = length (B64.traj_t T))) as [Hend|Hmid].
  { rewrite (Hlast ltac:(lia) Hend). split; [done|].
    intros _ _ Hnan. exists qj. split; [done|]. by apply pose_eq_refl_b64. }
  rewrite (sample_q_interior_b64 T q i tp tj qp qj Hinc Htp Htj Hqp Hqj).
  2:{ clear -Hq Hptj. float_order. }
  2:{ clear -Hq. float_order. }
  2:{ intros tl' Hl'. assert (tl' = tl) as -> by congruence.
      rewrite last_lookup_pred in Hl.
      assert (Htjl : (tj <? tl) = true).
      { eapply (increasing_lookup_b64 _ Hinc (S i)); [|done..]. lia. }
      clear -Hq Htjl. float_order. }
  split; [by intros ->|].
  intros Hfin Hqpf Hqjn.
  destruct (tj <=? tp + B64.eps12).
  { exists qj. split; [done|]. by apply pose_eq_refl_b64. }
  eexists. split; [done|].
  rewrite (eqb_sub_eq q tj tp Hq Hptj).
  rewrite (div_self _ Hfin (ltb_sub_not_zero _ _ Hptj)).
  apply blend_at_one_b64; [done..|].
  rewrite Forall_forall in Hn.
  rewrite (Hn qp), (Hn qj); [done|..]; by eapply list_elem_of_lookup_2.
Qed.

Lemma sample_q_at_sample_witness :
  exists p, B64.sample_q (B64.mkTraj [0; 2; 4] [[1; 5]; [3; 1]; [0; 0]]) 2 = Some p /\
            B64.pose_eq p [3; 1].
Proof.
  destruct (sample_q_at_sample 2 (B64.mkTraj [0; 2; 4] [[1; 5]; [3; 1]; [0; 0]])
              2 1 2 [3; 1]) as [_ H].
  - reflexivity.
  - split; [reflexivity|]. repeat constructor.
  - reflexivity.
  - reflexivity.
  - reflexivity.
  - destruct (H 0%nat 0 [1; 5] eq_refl eq_refl eq_refl) as [_ H'].
    apply H'; [reflexivity|by repeat constructor..].
Defined.

(** C5, counterexamples.  The times -1e308, 1e308, 1.7e308 increase
    strictly; at the stored time 1e308 the two differences overflow, the
    ratio is nan, and the pose returned is [nan], not the stored [1].  And
    with an infinite component in the pose before, the blend with the ratio
    1 multiplies it by zero: the pose returned is [nan] again. *)
Lemma sample_q_at_sample_counterexample :
  (let T := B64.mkTraj [-0x1.1ccf385ebc8a0p+1023; 0x1.1ccf385ebc8a0p+1023;
                        0x1.e42d130773b76p+1023] [[0]; [1]; [2]] in
   let q := 0x1.1ccf385ebc8a0p+1023 in
   B64.increasing (B64.traj_t T) = true /\ B64.well_formed 1 T /\
   B64.traj_t T !! 1%nat = Some q /\ B64.traj_q T !! 1%nat = Some [1] /\
   exists v, B64.sample_q T q = Some [v] /\ is_nan v = true /\ (v =? 1) = false) /\
  (let T := B64.mkTraj [0; 1; 2] [[infinity]; [1]; [2]] in
   B64.increasing (B64.traj_t T) = true /\ B64.well_formed 1 T /\
   B64.traj_t T !! 1%nat = Some 1 /\ B64.traj_q T !! 1%nat = Some [1] /\
   exists v, B64.sample_q T 1 = Some [v] /\ is_nan v = true /\ (v =? 1) = false).
Proof.
  split.
  - split; [by vm_compute|]. split; [split; [done|by repeat constructor]|].
    split; [done|]. split; [done|]. exists nan. by vm_compute.
  - split; [by vm_compute|]. split; [split; [done|by repeat constructor]|].
    split; [done|]. split; [done|]. exists nan. by vm_compute.
Qed.

End SamplerB64.

(* ===================================================================== *)
(** * Sorting and collapsing the rows in binary64 arithmetic *)

Section CollapseB64.

Local Open Scope float_scope.

Lemma eps12_pos_b64 : (0 <? B64.eps12) = true.
Proof. reflexivity. Qed.

Lemma dedup_step_snoc_b64 ts qs t q t' q' :
  B64.dedup_step (ts ++ [t], qs ++ [q]) (t', q') =
  if B64.near t' t then (ts ++ [t'], qs ++ [q'])
  else ((ts ++ [t]) ++ [t'], (qs ++ [q]) ++ [q']).
Proof. unfold B64.dedup_step, B64.near. by rewrite last_snoc, !set_last_snoc. Qed.

(** The loop of the source computes the collapse. *)
Lemma fold_dedup_step_b64 l : forall ts qs t q,
  fold_left B64.dedup_step l (ts ++ [t], qs ++ [q]) =
  (ts ++ map fst (B64.collapse_from (t, q) l), qs ++ map snd (B64.collapse_from (t, q) l)).
Proof.
  induction l as [|[t' q'] l IH]; intros ts qs t q; [done|].
  cbn [fold_left B64.collapse_from fst snd]. rewrite dedup_step_snoc_b64.
  destruct (B64.near t' t).
  - apply IH.
  - rewrite IH. cbn [map fst snd]. by rewrite <- !app_assoc.
Qed.

Lemma sort_dedup_collapse_b64 times joints :
  let c := B64.collapse (sorted B64.time_lt (zip times joints)) in
  B64.sort_dedup times joints = B64.mkTraj (map fst c) (map snd c).
Proof.
  unfold B64.sort_dedup. fold B64.time_lt.
  destruct (sorted B64.time_lt (zip times joints)) as [|[t q] l]; [done|].
  cbn [fold_left B64.collapse].
  change (B64.dedup_step ([], []) (t, q)) with ([] ++ [t], [] ++ [q] : list B64.Pose).
  by rewrite (fold_dedup_step_b64 l [] [] t q).
Qed.

(** The sort: a rearrangement of its input, sorted when the times are
    finite, and stable. *)
Lemma insert_sorted_elem_b64 (x y : float * B64.Pose) l :
  y ∈ insert_sorted B64.time_lt x l <-> y = x \/ y ∈ l.
Proof.
  induction l as [|z l IH]; simpl.
  - rewrite list_elem_of_singleton, elem_of_nil. tauto.
  - destruct (B64.time_lt z x); rewrite !elem_of_cons; [rewrite IH|]; tauto.
Qed.

Lemma sorted_elem_b64 (y : float * B64.Pose) l : y ∈ sorted B64.time_lt l <-> y ∈ l.
Proof.
  induction l as [|x l IH]; [done|]. simpl.
  rewrite insert_sorted_elem_b64, elem_of_cons, IH. tauto.
Qed.

Lemma insert_sorted_sorted_b64 x l :
  finite_time x -> Forall finite_time l ->
  time_sorted_b64 l -> time_sorted_b64 (insert_sorted B64.time_lt x l).
Proof.
  intros Hx Hfin. induction 1 as [|z l Hl IH Hz]; simpl.
  - repeat constructor.
  - apply Forall_cons in Hfin as [Hzf Hfin].
    destruct (B64.time_lt z x) eqn:E; unfold B64.time_lt in E.
    + constructor; [by apply IH|].
      apply Forall_forall. intros y [->|Hy]%insert_sorted_elem_b64.
      * by apply ltb_leb.
      * rewrite Forall_forall in Hz. by apply Hz.
    + assert (Hxz : (fst x <=? fst z) = true) by (by apply finite_leb_total).
      constructor; [by constructor|].
      constructor; [done|].
      eapply Forall_impl; [exact Hz|]. intros y Hy. simpl in Hy.
      by eapply leb_trans.
Qed.

Lemma sorted_finite_b64 l :
  Forall finite_time l -> Forall finite_time (sorted B64.time_lt l).
Proof.
  rewrite !Forall_forall. intros H e He. by apply H, sorted_elem_b64.
Qed.

Lemma sorted_sorted_b64 l :
  Forall finite_time l -> time_sorted_b64 (sorted B64.time_lt l).
Proof.
  induction 1 as [|x l Hx Hl IH]; [constructor|].
  apply insert_sorted_sorted_b64; [done|by apply sorted_finite_b64|done].
Qed.

Lemma insert_sorted_rows_at_b64 t x l :
  B64.rows_at t (insert_sorted B64.time_lt x l) = B64.rows_at t (x :: l).
Proof.
  induction l as [|z l IH]; [done|].
  simpl. destruct (B64.time_lt z x) eqn:E; [|done]. unfold B64.time_lt in E.
  unfold B64.rows_at in *. simpl in *. rewrite IH.
  destruct (fst x =? t) eqn:Ex, (fst z =? t) eqn:Ez; try done.
  exfalso. clear -E Ex Ez. float_order.
Qed.

Lemma sorted_rows_at_b64 t l :
  B64.rows_at t (sorted B64.time_lt l) = B64.rows_at t l.
Proof.
  induction l as [|x l IH]; [done|]. simpl.
  rewrite insert_sorted_rows_at_b64. unfold B64.rows_at in *. simpl. by rewrite IH.
Qed.

(** The collapse. *)
Lemma collapse_from_elem_b64 prev l e :
  e ∈ B64.collapse_from prev l -> e ∈ prev :: l.
Proof.
  revert prev. induction l as [|p l IH]; intros prev; simpl.
  - done.
  - destruct (B64.near _ _).
    + intros He. apply IH in He. by right.
    + intros [->|He]%elem_of_cons; [by left|]. apply IH in He. by right.
Qed.

(** A row that gives way is within 1e-12 of another one, hence finite:
    when the times that are kept are finite, so are the times of all
    rows. *)
Lemma collapse_from_finite_b64 l : forall prev,
  Forall finite_time (B64.collapse_from prev l) -> Forall finite_time (prev :: l).
Proof.
  induction l as [|p l IH]; intros prev; [done|].
  cbn [B64.collapse_from]. destruct (B64.near (fst p) (fst prev)) eqn:E.
  - intros H. constructor; [|by apply IH].
    unfold B64.near in E. by apply abs_sub_ltb_finite in E as [_ ?].
  - intros [Hprev H]%Forall_cons. constructor; [done|by apply IH].
Qed.

Lemma time_sorted_head_b64 prev l e :
  finite_time prev -> time_sorted_b64 (prev :: l) -> e ∈ prev :: l ->
  (fst prev <=? fst e) = true.
Proof.
  intros Hf Hs [->|He]%elem_of_cons.
  - clear -Hf. cbn beta in Hf. float_order.
  - apply StronglySorted_inv in Hs as [_ Hall].
    rewrite Forall_forall in Hall. by apply Hall.
Qed.

Lemma no_collapse_lt_b64 (prev p : float * B64.Pose) :
  finite_time prev -> finite_time p ->
  (fst prev <=? fst p) = true -> B64.near (fst p) (fst prev) = false ->
  (fst prev <? fst p) = true.
Proof.
  intros Hprev Hp Hle Hn. apply leb_neq_ltb; [done|].
  destruct (fst p =? fst prev) eqn:E; [|done].
  unfold B64.near in Hn.
  by rewrite (eqb_abs_sub_ltb (fst p) (fst prev) B64.eps12 Hp Hprev eps12_pos_b64 E) in Hn.
Qed.

Lemma increasing_cons_intro_b64 x l :
  B64.increasing l = true -> (forall y, head l = Some y -> (x <? y) = true) ->
  B64.increasing (x :: l) = true.
Proof.
  intros Hl Hx. simpl. destruct l as [|y l]; [done|].
  apply andb_true_iff. split; [|done]. by apply Hx.
Qed.

Lemma collapse_from_increasing_b64 l : forall prev,
  Forall finite_time (prev :: l) -> time_sorted_b64 (prev :: l) ->
  B64.increasing (map fst (B64.collapse_from prev l)) = true.
Proof.
  induction l as [|p l IH]; intros prev Hfin Hs; [done|].
  pose proof (StronglySorted_inv Hs) as [Hs' Hall].
  apply Forall_cons in Hfin as [Hprev Hfin].
  pose proof Hfin as [Hp _]%Forall_cons.
  cbn [B64.collapse_from].
  destruct (B64.near (fst p) (fst prev)) eqn:E; [by apply IH|].
  cbn [map]. apply increasing_cons_intro_b64; [by apply IH|].
  intros y Hy.
  assert (Hgap : (fst prev <? fst p) = true).
  { apply no_collapse_lt_b64; [done..| |done]. inversion Hall; done. }
  assert (Hpy : (fst p <=? y) = true).
  { destruct (B64.collapse_from p l) as [|e c] eqn:Ec; [done|].
    simpl in Hy. injection Hy as <-.
    eapply (time_sorted_head_b64 p l e Hp Hs'), collapse_from_elem_b64.
    rewrite Ec. by left. }
  by eapply ltb_leb_trans.
Qed.

Lemma rows_at_cons_b64 t p l :
  B64.rows_at t (p :: l) = if fst p =? t then p :: B64.rows_at t l else B64.rows_at t l.
Proof. reflexivity. Qed.

Lemma rows_at_none_b64 t l :
  (forall e, e ∈ l -> (fst e =? t) = false) -> B64.rows_at t l = [].
Proof.
  induction l as [|p l IH]; intros H; [done|].
  rewrite rows_at_cons_b64, (H p) by (by left).
  apply IH. intros e He. apply H. by right.
Qed.

Lemma rows_at_cons_last_b64 t p l e :
  last (B64.rows_at t l) = Some e -> last (B64.rows_at t (p :: l)) = Some e.
Proof.
  rewrite rows_at_cons_b64. destruct (fst p =? t); [|done].
  destruct (B64.rows_at t l) as [|x xs]; [done|]. by rewrite last_cons_cons.
Qed.

(** A row that survives the collapse is the last row of its time. *)
Lemma collapse_from_last_b64 l : forall prev e,
  Forall finite_time (prev :: l) -> time_sorted_b64 (prev :: l) ->
  e ∈ B64.collapse_from prev l ->
  last (B64.rows_at (fst e) (prev :: l)) = Some e.
Proof.
  induction l as [|p l IH]; intros prev e Hfin Hs He.
  - apply list_elem_of_singleton in He as ->.
    apply Forall_cons in Hfin as [Hprev _].
    rewrite rows_at_cons_b64, eqb_refl; [done|]. clear -Hprev. cbn beta in Hprev. float_order.
  - pose proof (StronglySorted_inv Hs) as [Hs' Hall].
    apply Forall_cons in Hfin as [Hprev Hfin].
    pose proof Hfin as [Hp _]%Forall_cons.
    cbn [B64.collapse_from] in He.
    destruct (B64.near (fst p) (fst prev)) eqn:E.
    + apply rows_at_cons_last_b64. by apply IH.
    + apply elem_of_cons in He as [->|He].
      2:{ apply rows_at_cons_last_b64. by apply IH. }
      assert (Hgap : (fst prev <? fst p) = true).
      { apply no_collapse_lt_b64; [done..| |done]. inversion Hall; done. }
      rewrite rows_at_cons_b64, eqb_refl by (clear -Hprev; cbn beta in Hprev; float_order).
      rewrite rows_at_none_b64; [done|].
      intros e He.
      pose proof (time_sorted_head_b64 p l e Hp Hs' He) as Hpe.
      clear -Hgap Hpe. float_order.
Qed.

(** The last row of a time survives the collapse when no later row is
    within 1e-12 of it. *)
Lemma collapse_from_keeps_b64 l : forall prev e,
  Forall finite_time (prev :: l) -> time_sorted_b64 (prev :: l) ->
  last (B64.rows_at (fst e) (prev :: l)) = Some e ->
  (forall r, r ∈ prev :: l ->
     ~ ((fst e <? fst r) = true /\ B64.near (fst r) (fst e) = true)) ->
  e ∈ B64.collapse_from prev l.
Proof.
  induction l as [|p l IH]; intros prev e Hfin Hs Hlast Hgap.
  - rewrite rows_at_cons_b64 in Hlast. cbn [B64.collapse_from].
    destruct (fst prev =? fst e); [|done].
    injection Hlast as <-. by left.
  - pose proof (StronglySorted_inv Hs) as [Hs' Hall].
    apply Forall_cons in Hfin as [Hprev Hfin].
    pose proof Hfin as [Hp _]%Forall_cons.
    assert (Hin : e ∈ B64.collapse_from p l \/
                  (e = prev /\ B64.rows_at (fst e) (p :: l) = [])).
    { rewrite rows_at_cons_b64 in Hlast.
      destruct (B64.rows_at (fst e) (p :: l)) as [|x xs] eqn:Erows.
      - right. destruct (fst prev =? fst e); [|done].
        injection Hlast as <-. done.
      - left. apply IH; [done|done| |].
        + rewrite Erows. destruct (fst prev =? fst e); [|done].
          by rewrite last_cons_cons in Hlast.
        + intros r Hr. apply Hgap. by right. }
    cbn [B64.collapse_from].
    destruct Hin as [Hin|[-> Hnone]].
    { destruct (B64.near _ _); [done|by right]. }
    assert (Hpne : (fst p =? fst prev) = false).
    { destruct (fst p =? fst prev) eqn:Heq; [|done].
      assert (Hpin : p ∈ B64.rows_at (fst prev) (p :: l)).
      { rewrite rows_at_cons_b64, Heq. by left. }
      rewrite Hnone in Hpin. by apply elem_of_nil in Hpin. }
    assert (Hle : (fst prev <=? fst p) = true) by (by inversion Hall).
    destruct (B64.near (fst p) (fst prev)) eqn:E; [|by left].
    exfalso. apply (Hgap p); [right; by left|].
    split; [|done]. by apply leb_neq_ltb.
Qed.


(** The reading loop keeps one pose per time. *)
Lemma read_rows_lengths_b64 float_of dm tu hh dg lines : forall hs times joints r,
  B64.read_rows float_of dm tu hh dg lines hs times joints = Ok r ->
  length times = length joints -> length (fst r) = length (snd r).
Proof.
  induction lines as [|line lines IH]; intros hs times joints r.
  - simpl. by intros [= <-].
  - cbn [B64.read_rows]. destruct (skipped _); [apply IH|].
    destruct (hh && negb hs); [apply IH|].
    destruct (B64.floats _ _) as [vals|]; [|done].
    destruct (length vals <? 15)%nat; [done|].
    intros H Hlen. eapply IH; [exact H|]. rewrite !length_app. simpl. lia.
Qed.

Lemma collapse_finite_b64 rows :
  Forall (fun t => is_finite t = true) (map fst (B64.collapse (sorted B64.time_lt rows))) ->
  Forall finite_time rows.
Proof.
  intros H. apply Forall_fmap in H.
  assert (Hs : Forall finite_time (sorted B64.time_lt rows)).
  { destruct (sorted B64.time_lt rows) as [|p l]; [done|].
    by apply collapse_from_finite_b64. }
  rewrite Forall_forall in Hs. apply Forall_forall. intros e He.
  by apply Hs, sorted_elem_b64.
Qed.

(** C1 (as amended).  Whenever the parse succeeds and the times it returns
    are finite, the times of all rows are finite, the times of the
    trajectory increase strictly and there is one pose per time.  The
    samples are the rows of the file, stable-sorted by time, in which every
    row that is followed by a row of the sorted sequence with
    [abs(t - prev) < 1e-12] gives way to that row, time and pose.  Hence
    every sample is a row of the file, and it is the last row, in file
    order, among the rows whose time equals its time; and for every time
    of the file that no row with a greater time is within 1e-12 of, the
    last row with that time is a sample.  All operations are those of the
    doubles. *)
Theorem parse_single_arm_sorted_dedup (float_of : string -> option float)
    (fs : FileSystem) (filepath : string) (delim_mode : Delim)
    (time_unit : TimeUnit) (has_header degrees : bool) (T : B64.Trajectory) :
  B64.parse_single_arm float_of fs filepath delim_mode time_unit has_header degrees = Ok T ->
  Forall (fun t => is_finite t = true) (B64.traj_t T) ->
  B64.increasing (B64.traj_t T) = true /\
  length (B64.traj_q T) = length (B64.traj_t T) /\
  exists contents times joints,
    fs !! filepath = Some contents /\
    B64.read_rows float_of delim_mode time_unit has_header degrees
                  (file_lines contents) false [] [] = Ok (times, joints) /\
    length times = length joints /\
    Forall (fun t => is_finite t = true) times /\
    zip (B64.traj_t T) (B64.traj_q T)
    = B64.collapse (sorted B64.time_lt (zip times joints)) /\
    (forall k t q, B64.traj_t T !! k = Some t -> B64.traj_q T !! k = Some q ->
       last (B64.rows_at t (zip times joints)) = Some (t, q)) /\
    (forall t q,
       last (B64.rows_at t (zip times joints)) = Some (t, q) ->
       (forall r, r ∈ zip times joints ->
          ~ ((t <? fst r) = true /\ B64.near (fst r) t = true)) ->
       exists k, B64.traj_t T !! k = Some t /\ B64.traj_q T !! k = Some q).
Proof.
  unfold B64.parse_single_arm.
  destruct (fs !! filepath) as [contents|] eqn:Hfs; [|done].
  destruct (B64.read_rows _ _ _ _ _ _ _ _ _) as [[times joints]|] eqn:Hr; [|done].
  pose proof (read_rows_lengths_b64 _ _ _ _ _ _ _ _ _ _ Hr eq_refl) as Hlen.
  simpl in Hlen.
  destruct times as [|t0 times]; [done|]. intros [= <-].
  rewrite sort_dedup_collapse_b64. cbn [B64.traj_t B64.traj_q].
  set (rows := zip (t0 :: times) joints). intros Hfin.
  pose proof (collapse_finite_b64 rows Hfin) as Hrows.
  pose proof (sorted_finite_b64 rows Hrows) as Hsf.
  pose proof (sorted_sorted_b64 rows Hrows) as Hs.
  assert (Hinc : B64.increasing (map fst (B64.collapse (sorted B64.time_lt rows))) = true).
  { destruct (sorted B64.time_lt rows) as [|p l]; [done|].
    by apply collapse_from_increasing_b64. }
  split; [done|]. split; [by rewrite !length_map|].
  exists contents, (t0 :: times), joints.
  split; [done|]. split; [done|]. split; [done|]. split.
  { rewrite <- (fst_zip (t0 :: times) joints Hlen). fold rows.
    by apply Forall_fmap. }
  split; [apply zip_fst_snd|]. split.
  - intros k t q Ht Hq.
    pose proof (lookup_fst_snd _ _ _ _ Ht Hq) as Hk.
    apply list_elem_of_lookup_2 in Hk. fold rows.
    rewrite <- (sorted_rows_at_b64 t rows).
    destruct (sorted B64.time_lt rows) as [|p l]; [by apply elem_of_nil in Hk|].
    by apply (collapse_from_last_b64 l p (t, q)).
  - intros t q Hlast Hgap. fold rows in Hlast, Hgap.
    rewrite <- (sorted_rows_at_b64 t rows) in Hlast.
    assert (Hgap' : forall r, r ∈ sorted B64.time_lt rows ->
                      ~ ((t <? fst r) = true /\ B64.near (fst r) t = true)).
    { intros r Hin. apply Hgap. by apply sorted_elem_b64. }
    destruct (sorted B64.time_lt rows) as [|p l]; [done|].
    pose proof (collapse_from_keeps_b64 l p (t, q) Hsf Hs Hlast Hgap') as Hin.
    apply list_elem_of_lookup_1 in Hin as [k Hk]. exists k.
    split; [by apply (lookup_map fst) in Hk|by apply (lookup_map snd) in Hk].
Qed.

Lemma parse_single_arm_sorted_dedup_witness :
  exists T,
    B64.parse_single_arm B64.py_float {["traj.txt" := good_file]} "traj.txt"
                         AUTO SECONDS false false = Ok T /\
    B64.increasing (B64.traj_t T) = true.
Proof.
  eexists. split; [by vm_compute|].
  eapply (parse_single_arm_sorted_dedup B64.py_float
            {["traj.txt" := good_file]} "traj.txt" AUTO SECONDS false false).
  - by vm_compute.
  - vm_compute. by repeat constructor.
Defined.

(** C1, counterexamples.  Of two rows 5e-13 apart, the one that comes first
    in the file and later in time stays, with its own time: the sample has
    neither the pose of the later row of the file nor the time of the
    earlier row of the sorted sequence.  And a file whose two rows have the
    time 1e400 is accepted: both times are read as infinity, their
    difference is nan, no row gives way, and the times returned do not
    increase. *)
Lemma parse_near_duplicate_counterexample :
  (B64.parse_single_arm B64.py_float {["traj.txt" := near_duplicate_file]} "traj.txt"
                        AUTO SECONDS false false
   = Ok (B64.mkTraj [0x1.19799812dea11p-41] [replicate 7 1]) /\
   (0x1.19799812dea11p-41 =? 0) = false) /\
  (B64.parse_single_arm B64.py_float {["traj.txt" := B64.overflow_file]} "traj.txt"
                        AUTO SECONDS false false
   = Ok (B64.mkTraj [infinity; infinity] [replicate 7 1; replicate 7 2]) /\
   B64.increasing [infinity; infinity] = false).
Proof. split; split; by vm_compute. Qed.

End CollapseB64.

(* ===================================================================== *)
(** * The samples of a parsed file in binary64 arithmetic *)

Section SamplesB64.

Local Open Scope float_scope.

Variable float_of : string -> option float.
Variable delim_mode : Delim.
Variable time_unit : TimeUnit.
Variable degrees : bool.

Lemma read_rows_read_data_b64 has_header lines : forall hs times joints,
  B64.read_rows float_of delim_mode time_unit has_header degrees lines hs times joints =
  B64.read_data float_of delim_mode time_unit degrees
    (if has_header && negb hs then drop 1 (content_lines lines)
     else content_lines lines) times joints.
Proof.
  induction lines as [|line lines IH]; intros hs times joints.
  - by destruct (has_header && negb hs).
  - cbn [B64.read_rows content_lines List.filter].
    destruct (skipped (strip line)); cbn [negb]; [apply IH|].
    destruct (has_header && negb hs) eqn:E.
    + rewrite IH. cbn [drop]. by rewrite andb_false_r.
    + cbn [B64.read_data]. destruct (B64.floats _ _) as [vals|]; [|done].
      destruct (length vals <? 15)%nat; [done|]. rewrite IH. by rewrite E.
Qed.

Lemma parse_single_arm_data_b64 (fs : FileSystem) filepath contents has_header :
  fs !! filepath = Some contents ->
  B64.parse_single_arm float_of fs filepath delim_mode time_unit has_header degrees =
  match B64.read_data float_of delim_mode time_unit degrees
                      (data_lines has_header (file_lines contents)) [] [] with
  | Raise msg => Raise msg
  | Ok (times, joints) =>
      match times with
      | [] => Raise "No valid data rows found."
      | _ => Ok (B64.sort_dedup times joints)
      end
  end.
Proof.
  intros Hfs. unfold B64.parse_single_arm. rewrite Hfs, read_rows_read_data_b64.
  unfold data_lines. by rewrite andb_true_r.
Qed.

(** A reading loop that ends well has appended the row of every data line,
    and every data line had its fifteen numbers. *)
Lemma read_data_rows_b64 dl : forall times joints r,
  B64.read_data float_of delim_mode time_unit degrees dl times joints = Ok r ->
  r = (times ++ map fst (map (B64.row_of float_of delim_mode time_unit degrees) dl),
       joints ++ map snd (map (B64.row_of float_of delim_mode time_unit degrees) dl)) /\
  Forall (fun line => (15 <= length (B64.line_values float_of delim_mode line))%nat) dl.
Proof.
  induction dl as [|line dl IH]; intros times joints r.
  - cbn [B64.read_data map]. intros [= <-]. by rewrite !app_nil_r.
  - cbn [B64.read_data].
    destruct (B64.floats float_of (split_fields delim_mode (strip line))) as [vals|] eqn:Ef;
      [|done].
    destruct (length vals <? 15)%nat eqn:El; [done|].
    apply Nat.ltb_ge in El. intros Hr. apply IH in Hr as [-> Hall].
    assert (Hv : B64.line_values float_of delim_mode line = vals).
    { unfold B64.line_values. by rewrite Ef. }
    split.
    + cbn [map]. generalize (map (B64.row_of float_of delim_mode time_unit degrees) dl).
      intros rows. unfold B64.row_of. rewrite Hv. cbn [fst snd].
      by rewrite <- !app_assoc.
    + constructor; [by rewrite Hv|done].
Qed.

(** The pose of a row with fifteen numbers has seven components. *)
Lemma row_of_length_b64 line :
  (15 <= length (B64.line_values float_of delim_mode line))%nat ->
  length (snd (B64.row_of float_of delim_mode time_unit degrees line)) = 7%nat.
Proof.
  intros Hl. unfold B64.row_of. cbn [snd].
  destruct degrees; rewrite ?length_map, length_take, length_drop; lia.
Qed.

(** A successful parse is the sorted and collapsed list of the rows of the
    data lines. *)
Lemma parse_single_arm_collapse_b64 (fs : FileSystem) filepath contents has_header T :
  fs !! filepath = Some contents ->
  B64.parse_single_arm float_of fs filepath delim_mode time_unit has_header degrees = Ok T ->
  let dl := data_lines has_header (file_lines contents) in
  let c := B64.collapse (sorted B64.time_lt
             (map (B64.row_of float_of delim_mode time_unit degrees) dl)) in
  dl <> [] /\ T = B64.mkTraj (map fst c) (map snd c) /\
  Forall (fun line => (15 <= length (B64.line_values float_of delim_mode line))%nat) dl.
Proof.
  intros Hfs Hp dl c. rewrite (parse_single_arm_data_b64 _ _ _ _ Hfs) in Hp.
  fold dl in Hp.
  destruct (B64.read_data _ _ _ _ dl [] []) as [[times joints]|] eqn:Hr; [|done].
  apply read_data_rows_b64 in Hr as [[= -> ->] Hall].
  split; [by intros Hdl; rewrite Hdl in Hp|].
  split; [|done].
  destruct (map fst (map _ dl)) eqn:E; [done|]. rewrite <- E in Hp.
  injection Hp as <-. rewrite sort_dedup_collapse_b64. by rewrite zip_fst_snd.
Qed.

Lemma collapse_from_length_b64 l : forall prev,
  (1 <= length (B64.collapse_from prev l) <= S (length l))%nat.
Proof.
  induction l as [|p l IH]; intros prev; cbn [B64.collapse_from length]; [lia|].
  destruct (B64.near _ _); cbn [length]; specialize (IH p); lia.
Qed.

Lemma collapse_length_b64 l : (length (B64.collapse l) <= length l)%nat.
Proof.
  destruct l as [|p l]; [done|]. cbn [B64.collapse length].
  pose proof (collapse_from_length_b64 l p). lia.
Qed.

Lemma collapse_nonempty_b64 l : l <> [] -> B64.collapse l <> [].
Proof.
  destruct l as [|p l]; [done|]. intros _ Hc. cbn [B64.collapse] in Hc.
  pose proof (collapse_from_length_b64 l p) as Hl. rewrite Hc in Hl. simpl in Hl. lia.
Qed.

Lemma collapse_elem_b64 l e : e ∈ B64.collapse l -> e ∈ l.
Proof.
  destruct l as [|p l]; [done|]. apply collapse_from_elem_b64.
Qed.

(** The row that stands at the end of the collapse is the last row. *)
Lemma collapse_from_last_row_b64 l : forall prev,
  last (B64.collapse_from prev l) = last (prev :: l).
Proof.
  induction l as [|p l IH]; intros prev; [done|].
  cbn [B64.collapse_from]. rewrite last_cons_cons.
  destruct (B64.near _ _); [apply IH|].
  rewrite <- IH. destruct (B64.collapse_from p l) eqn:E; [|by rewrite last_cons_cons].
  pose proof (collapse_from_length_b64 l p) as Hl. rewrite E in Hl. simpl in Hl. lia.
Qed.

Lemma time_sorted_last_b64 l e r :
  Forall finite_time l -> time_sorted_b64 l -> last l = Some e -> r ∈ l ->
  (fst r <=? fst e) = true.
Proof.
  induction l as [|p l IH]; intros Hf Hs Hl Hr; [done|].
  apply Forall_cons in Hf as [Hp Hf].
  destruct l as [|p' l].
  - injection Hl as <-. apply list_elem_of_singleton in Hr as ->.
    clear -Hp. cbn beta in Hp. float_order.
  - rewrite last_cons_cons in Hl.
    pose proof (StronglySorted_inv Hs) as [Hs' Hall].
    apply elem_of_cons in Hr as [->|Hr]; [|by apply IH].
    rewrite Forall_forall in Hall. apply Hall, list_elem_of_lookup.
    rewrite last_lookup in Hl. eauto.
Qed.

End SamplesB64.

Section ShapeB64.

Local Open Scope float_scope.

(** X1.  A trajectory returned by the parser has at least one sample and at
    most as many as the file has data lines, one pose for each time, and
    seven joint values in every pose. *)
Theorem parse_single_arm_shape (float_of : string -> option float)
    (fs : FileSystem) (filepath contents : string) (delim_mode : Delim)
    (time_unit : TimeUnit) (has_header degrees : bool) (T : B64.Trajectory) :
  fs !! filepath = Some contents ->
  B64.parse_single_arm float_of fs filepath delim_mode time_unit has_header degrees = Ok T ->
  (1 <= length (B64.traj_t T)
     <= length (data_lines has_header (file_lines contents)))%nat /\
  B64.well_formed 7 T.
Proof.
  intros Hfs Hp.
  destruct (parse_single_arm_collapse_b64 _ _ _ _ _ _ _ _ _ Hfs Hp) as (Hne & -> & Hall).
  set (rows := map (B64.row_of float_of delim_mode time_unit degrees)
                   (data_lines has_header (file_lines contents))).
  unfold B64.well_formed. cbn [B64.traj_t B64.traj_q]. split; [|split].
  - rewrite length_map. split.
    + assert (Hc : B64.collapse (sorted B64.time_lt rows) <> []).
      { apply collapse_nonempty_b64. intros Hs.
        apply (f_equal length) in Hs. rewrite sorted_length in Hs.
        unfold rows in Hs. rewrite length_map in Hs.
        by destruct (data_lines has_header (file_lines contents)). }
      destruct (B64.collapse (sorted B64.time_lt rows)); [done|simpl; lia].
    + etrans; [apply collapse_length_b64|].
      rewrite sorted_length. unfold rows. by rewrite length_map.
  - by rewrite !length_map.
  - apply Forall_forall. intros p [e [-> He]]%list_elem_of_fmap.
    apply collapse_elem_b64 in He. apply (proj1 (sorted_elem_b64 _ _)) in He.
    apply list_elem_of_fmap in He as [line [-> Hline]].
    apply row_of_length_b64. rewrite Forall_forall in Hall. by apply Hall.
Qed.

Lemma parse_single_arm_shape_witness :
  exists T,
    B64.parse_single_arm B64.py_float {["traj.txt" := near_duplicate_file]} "traj.txt"
                         AUTO SECONDS false false = Ok T /\
    (1 <= length (B64.traj_t T) <= 2)%nat /\ B64.well_formed 7 T.
Proof.
  eexists. split; [by vm_compute|].
  apply (parse_single_arm_shape B64.py_float {["traj.txt" := near_duplicate_file]}
           "traj.txt" near_duplicate_file AUTO SECONDS false false).
  - apply lookup_singleton_eq.
  - by vm_compute.
Defined.

(** X2.  Every sample of a parsed trajectory is the row of one data line of
    the file: its time is the first number of that line, multiplied by
    0.001 when the unit is milliseconds and by 1.0 otherwise, its pose the
    next seven numbers (passed through [math.radians] when [degrees] is
    set), and the numbers after the eighth have no part in it.  When the
    times returned are finite, the last sample has the greatest time of all
    data lines. *)
Theorem parse_single_arm_rows (float_of : string -> option float)
    (fs : FileSystem) (filepath contents : string) (delim_mode : Delim)
    (time_unit : TimeUnit) (has_header degrees : bool) (T : B64.Trajectory) :
  fs !! filepath = Some contents ->
  B64.parse_single_arm float_of fs filepath delim_mode time_unit has_header degrees = Ok T ->
  let dl := data_lines has_header (file_lines contents) in
  let row := B64.row_of float_of delim_mode time_unit degrees in
  (forall k t q, B64.traj_t T !! k = Some t -> B64.traj_q T !! k = Some q ->
     exists line, line ∈ dl /\ row line = (t, q)) /\
  (Forall (fun t => is_finite t = true) (B64.traj_t T) ->
   exists tl, last (B64.traj_t T) = Some tl /\
     forall line, line ∈ dl -> (fst (row line) <=? tl) = true).
Proof.
  intros Hfs Hp dl row.
  destruct (parse_single_arm_collapse_b64 _ _ _ _ _ _ _ _ _ Hfs Hp) as (Hne & -> & Hall).
  fold dl row in Hne |- *. cbn [B64.traj_t B64.traj_q]. split.
  - intros k t q Ht Hq.
    pose proof (lookup_fst_snd _ _ _ _ Ht Hq) as Hk.
    apply list_elem_of_lookup_2, collapse_elem_b64 in Hk.
    apply (proj1 (sorted_elem_b64 _ _)) in Hk.
    apply list_elem_of_fmap in Hk as [line [Heq Hline]]. by exists line.
  - intros Hfin.
    pose proof (collapse_finite_b64 (map row dl) Hfin) as Hrows.
    pose proof (sorted_finite_b64 _ Hrows) as Hsf.
    pose proof (sorted_sorted_b64 _ Hrows) as Hs.
    destruct (sorted B64.time_lt (map row dl)) as [|p l] eqn:El.
    { apply (f_equal length) in El. rewrite sorted_length, length_map in El.
      by destruct dl. }
    cbn [B64.collapse].
    destruct (last (p :: l)) as [e|] eqn:Hlast;
      [|by rewrite last_cons in Hlast; destruct (last l)].
    exists (fst e). split.
    + change (map fst (B64.collapse_from p l)) with (fst <$> B64.collapse_from p l).
      by rewrite fmap_last, collapse_from_last_row_b64, Hlast.
    + intros line Hline.
      apply (time_sorted_last_b64 (p :: l) e (row line) Hsf Hs Hlast).
      rewrite <- El. apply sorted_elem_b64, list_elem_of_fmap. by exists line.
Qed.

Lemma parse_single_arm_rows_witness :
  exists T,
    B64.parse_single_arm B64.py_float {["traj.txt" := good_file]} "traj.txt"
                         AUTO SECONDS false false = Ok T /\
    exists tl, last (B64.traj_t T) = Some tl /\
      forall line, line ∈ data_lines false (file_lines good_file) ->
                   (fst (B64.row_of B64.py_float AUTO SECONDS false line) <=? tl) = true.
Proof.
  eexists. split; [by vm_compute|].
  apply (parse_single_arm_rows B64.py_float {["traj.txt" := good_file]}
           "traj.txt" good_file AUTO SECONDS false false).
  - apply lookup_singleton_eq.
  - by vm_compute.
  - vm_compute. by repeat constructor.
Defined.

End ShapeB64.
